(** * ETH_WebServer_WebOTA: session, clock, OTA extractor and key store

    A shallow embedding of the firmware sketch [ETH_WebServer_WebOTA.ino]
    (V4.0).  C [int] values are integers of [Z], exact as long as they do
    not overflow; the epoch of the time synchronisation is computed in
    the 32-bit [long] of the target and wraps around, and the unsigned
    32-bit types ([size_t], [unsigned long]) wrap explicitly.  C division
    and remainder truncate toward zero: they are [Z.quot] and [Z.rem].

    Arduino [String]s are strings of bytes.  Url-decoding can put a NUL
    into one; where the sketch hands such a text to a C-string function
    ([strcmp] under the comparison with the password, [Preferences] for
    the values and keys of the store) only the bytes before the first NUL
    count, which is [c_str] below.  The
    collaborators of the sketch appear by what the sketch uses of them:
    [Preferences] is a finite map from key names to strings, [Update]
    accepts the bytes it is given, [millis()] and [random()] are read as
    arguments, and [strtol] is a parameter of the handlers that decode
    url-encoded text.  Each handler of the store API is embedded from the
    point where the value or key has been taken out of the request
    body. *)

From Stdlib Require Import ZArith Lia Bool List Ascii String.
From Stdlib.Strings Require Import Byte.
From stdpp Require Import base decidable option list gmap strings pretty.

Local Open Scope Z_scope.

(** ** Machine integers *)

Definition wrap32 (z : Z) : Z := z mod 2 ^ 32.

(** Conversion of an unsigned 32-bit value to [int]. *)
Definition to_int32 (z : Z) : Z :=
  let u := wrap32 z in if u <? 2 ^ 31 then u else u - 2 ^ 32.

(** ** C strings *)

(** [s.c_str()] as a C function reads it: the bytes of [s] before its
    first NUL. *)
Fixpoint c_str (s : string) : string :=
  match s with
  | EmptyString => EmptyString
  | String c rest =>
      if Ascii.eqb c "000" then EmptyString else String c (c_str rest)
  end.

(** ** DST rule and epoch computation *)

Module Clock.

(** The local variable [lastSunday] of [isDST], as computed for [month]. *)
Definition lastSunday (year month : Z) : Z :=
  let a := Z.quot (14 - month) 12 in
  let y := year - a in
  let m := month + 12 * a - 2 in
  let dayOfWeek1st :=
    Z.rem (1 + y + Z.quot y 4 - Z.quot y 100 + Z.quot y 400
           + Z.quot (31 * m) 12) 7 in
  31 - Z.rem (dayOfWeek1st + 30) 7.

Definition isDST (year month day hour : Z) : bool :=
  if (month <? 3) || (month >? 10) then false
  else if (month >? 3) && (month <? 10) then true
  else
    let lastSunday := lastSunday year month in
    if month =? 3 then
      if day <? lastSunday then false
      else if day >? lastSunday then true
      else if hour <? 2 then false
      else true
    else if month =? 10 then
      if day <? lastSunday then true
      else if day >? lastSunday then false
      else if hour <? 3 then true
      else false
    else false.

(** The leap test used twice in [syncTimeViaHTTP]. *)
Definition isLeap (y : Z) : bool :=
  (Z.rem y 4 =? 0) && (negb (Z.rem y 100 =? 0) || (Z.rem y 400 =? 0)).

(** [for (int y = 1970; y < year; y++) days += leap ? 366 : 365;]
    The loop runs [year - 1970] times (not at all when [year <= 1970]). *)
Fixpoint yearLoop (n : nat) (y days : Z) : Z :=
  match n with
  | O => days
  | S n' => yearLoop n' (y + 1) (days + (if isLeap y then 366 else 365))
  end.

Definition daysInMonth0 : list Z :=
  [31; 28; 31; 30; 31; 30; 31; 31; 30; 31; 30; 31].

(** [if (isLeap) daysInMonth[1] = 29;] *)
Definition daysInMonth (year : Z) : list Z :=
  if isLeap year then <[1%nat := 29]> daysInMonth0 else daysInMonth0.

(** [for (int m = 1; m < month; m++) days += daysInMonth[m - 1];]
    The month comes from a 12-entry name table, so the index stays inside
    the array; outside it the embedding reads 0. *)
Fixpoint monthLoop (n : nat) (m : Z) (tbl : list Z) (days : Z) : Z :=
  match n with
  | O => days
  | S n' =>
      monthLoop n' (m + 1) tbl (days + default 0 (tbl !! Z.to_nat (m - 1)))
  end.

Definition daysSinceEpoch (year month day : Z) : Z :=
  let days := yearLoop (Z.to_nat (year - 1970)) 1970 0 in
  let days := monthLoop (Z.to_nat (month - 1)) 1 (daysInMonth year) days in
  days + (day - 1).

(** [gmtEpoch] of [syncTimeViaHTTP].  The day count and the sum are
    computed in [long], 32 bits wide on the target, where arithmetic
    wraps around; wrapping after every operation gives the same as
    wrapping the exact value once. *)
Definition toEpoch (year month day hour min sec : Z) : Z :=
  to_int32
    (daysSinceEpoch year month day * 86400 + hour * 3600 + min * 60 + sec).

(** The fields stored by [sscanf] when it reports six conversions. *)
Record DateFields := {
  f_mday : Z;
  f_monthStr : string;
  f_year : Z;
  f_hour : Z;
  f_min : Z;
  f_sec : Z
}.

Definition months : list string :=
  ["Jan"; "Feb"; "Mar"; "Apr"; "May"; "Jun";
   "Jul"; "Aug"; "Sep"; "Oct"; "Nov"; "Dec"]%string.

(** The table search that sets [tm_mon]; [tm_mon] keeps its initial value
    (0, from the zeroed [struct tm]) when no name matches. *)
Fixpoint findMonth (monthStr : string) (tbl : list string) (i tm_mon : Z) : Z :=
  match tbl with
  | [] => tm_mon
  | name :: rest =>
      if String.eqb monthStr name then i
      else findMonth monthStr rest (i + 1) tm_mon
  end.

(** Wall clock of the device: what [settimeofday] installed, and the
    global [timeIsSynced]. *)
Record TimeState := { tv_sec : Z; timeIsSynced : bool }.

Definition monthOf (d : DateFields) : Z :=
  findMonth (f_monthStr d) months 0 0 + 1.

(** The [parsed == 6] block of [syncTimeViaHTTP]. *)
Definition installDate (d : DateFields) (st : TimeState) : TimeState :=
  let tm_mon := findMonth (f_monthStr d) months 0 0 in
  let tm_year := f_year d - 1900 in
  let year := tm_year + 1900 in
  let month := tm_mon + 1 in
  let day := f_mday d in
  let gmtEpoch := toEpoch year month day (f_hour d) (f_min d) (f_sec d) in
  let inDST := isDST year month day (f_hour d) in
  let offsetHours := if inDST then 2 else 1 in
  let italianEpoch := gmtEpoch + offsetHours * 3600 in
  {| tv_sec := italianEpoch; timeIsSynced := true |}.

(** *** Reference calendar functions (proleptic Gregorian, floor division) *)

Definition ref_days_from_civil (y m d : Z) : Z :=
  let y' := if m <=? 2 then y - 1 else y in
  let era := y' / 400 in
  let yoe := y' - era * 400 in
  let doy := (153 * (if m >? 2 then m - 3 else m + 9) + 2) / 5 + d - 1 in
  let doe := yoe * 365 + yoe / 4 - yoe / 100 + doy in
  era * 146097 + doe - 719468.

Definition ref_civil_from_days (z : Z) : Z * Z * Z :=
  let z := z + 719468 in
  let era := z / 146097 in
  let doe := z - era * 146097 in
  let yoe := (doe - doe / 1460 + doe / 36524 - doe / 146096) / 365 in
  let y := yoe + era * 400 in
  let doy := doe - (365 * yoe + yoe / 4 - yoe / 100) in
  let mp := (5 * doy + 2) / 153 in
  let d := doy - (153 * mp + 2) / 5 + 1 in
  let m := if mp <? 10 then mp + 3 else mp - 9 in
  (if m <=? 2 then y + 1 else y, m, d).

(** Reference leap years and month lengths. *)
Definition ref_isLeap (y : Z) : bool :=
  (y mod 4 =? 0) && (negb (y mod 100 =? 0) || (y mod 400 =? 0)).

Definition ref_daysInMonth (y m : Z) : Z :=
  if m =? 2 then (if ref_isLeap y then 29 else 28)
  else if (m =? 4) || (m =? 6) || (m =? 9) || (m =? 11) then 30
  else 31.

Definition ref_timegm (y m d hh mm ss : Z) : Z :=
  ref_days_from_civil y m d * 86400 + hh * 3600 + mm * 60 + ss.

(** Reference decomposition of an epoch into calendar fields. *)
Definition ref_gmtime (t : Z) : Z * Z * Z * Z * Z * Z :=
  let '(y, m, d) := ref_civil_from_days (t / 86400) in
  let r := t mod 86400 in
  (y, m, d, r / 3600, (r mod 3600) / 60, r mod 60).

(** Day of the week of a day number, 0 = Sunday (day 0 was a Thursday). *)
Definition ref_weekday (z : Z) : Z := (z + 4) mod 7.

(** [d] is the last Sunday of a 31-day month [m] of year [y]. *)
Definition is_last_sunday (y m d : Z) : Prop :=
  1 <= d <= 31 /\ ref_weekday (ref_days_from_civil y m d) = 0 /\ 31 < d + 7.

(** Number of leap days up to and including year [k]. *)
Definition leapsUpTo (k : Z) : Z := k / 4 - k / 100 + k / 400.

End Clock.

(** ** Multipart payload extraction of [handleOTAUpload] *)

Module Ota.

Definition BUF_SIZE : Z := 1024.
Definition WIN_SIZE : Z := 128.

(** The flash writer [Update] is a collaborator of the sketch.  Under
    correct operation [Update.write(buf, n)] accepts the first [n] bytes
    of [buf] and returns [n]; the record keeps the bytes accepted so far
    and, for every call, the requested count with the number of bytes the
    chunk buffer holds. *)
Record Updater := { image : list byte; calls : list (Z * Z) }.

Definition Update_write (u : Updater) (buf : list byte) (n : Z) : Z * Updater :=
  (n, {| image := image u ++ take (Z.to_nat n) buf;
         calls := calls u ++ [(n, Z.of_nat (length buf))] |}).

(** Locals of the upload loop that live across chunks: [written], the
    sliding [window] ([winLen] is its length), the writer, and whether
    [WRITE_AND_FINISH] was reached. *)
Record Upload := {
  written : Z;
  window : list byte;
  flash : Updater;
  finished : bool
}.

Definition start : Upload :=
  {| written := 0; window := []; flash := {| image := []; calls := [] |};
     finished := false |}.

(** The inner [for j] loop: the bytes of [w] from its head on are compared
    with the marker, stopping at the first difference. *)
Fixpoint bytesMatch (w marker : list byte) {struct marker} : bool :=
  match marker with
  | [] => true
  | c :: marker' =>
      match w with
      | [] => false
      | x :: w' => if Byte.eqb x c then bytesMatch w' marker' else false
      end
  end.

(** [window[winLen - boundaryCRLF.length() + j] != boundaryCRLF[j]] for
    no [j]. *)
Definition tailMatches (window marker : list byte) : bool :=
  bytesMatch (drop (length window - length marker)%nat window) marker.

(** The [for i] loop over one chunk: the index at which the marker
    completes, if it does, and the window afterwards. *)
Fixpoint scanChunk (marker window : list byte) (i : Z) (bs : list byte)
  : option Z * list byte :=
  match bs with
  | [] => (None, window)
  | b :: rest =>
      let window :=
        if Z.of_nat (length window) =? WIN_SIZE then tail window else window in
      let window := window ++ [b] in
      if (Z.of_nat (length marker) <=? Z.of_nat (length window))
         && tailMatches window marker
      then (Some i, window)
      else scanChunk marker window (i + 1) rest
  end.

(** One iteration of the [while (client.connected())] loop on a chunk
    [buf] of [len > 0] bytes. *)
Definition processChunk (marker : list byte) (st : Upload) (buf : list byte)
  : Upload :=
  let len := Z.of_nat (length buf) in
  match scanChunk marker (window st) 0 buf with
  | (None, win) =>
      let '(w, fl) := Update_write (flash st) buf len in
      {| written := wrap32 (written st + w); window := win; flash := fl;
         finished := false |}
  | (Some i, win) =>
      let winLen := Z.of_nat (length win) in
      let boundaryStartInWin := winLen - Z.of_nat (length marker) in
      let totalReceived := wrap32 (written st + i + 1) in
      let fileTotal := wrap32 (totalReceived - (winLen - boundaryStartInWin)) in
      let fileBytesToWrite := to_int32 (fileTotal - written st) in
      let fileBytesToWrite :=
        if fileBytesToWrite <? 0 then 0 else fileBytesToWrite in
      let fileBytesToWrite :=
        if fileBytesToWrite >? len then len else fileBytesToWrite in
      if fileBytesToWrite >? 0 then
        let '(w, fl) := Update_write (flash st) buf fileBytesToWrite in
        {| written := wrap32 (written st + w); window := win; flash := fl;
           finished := true |}
      else
        {| written := written st; window := win; flash := flash st;
           finished := true |}
  end.

(** The upload loop over the chunks that successive [client.read] calls
    return; the list ends where the client is no longer connected, and a
    read of no byte leaves the loop. *)
Fixpoint uploadLoop (marker : list byte) (st : Upload)
    (chunks : list (list byte)) : Upload :=
  match chunks with
  | [] => st
  | buf :: rest =>
      if Z.of_nat (length buf) <=? 0 then st
      else
        let st' := processChunk marker st buf in
        if finished st' then st' else uploadLoop marker st' rest
  end.

(** [client.read(buf, BUF_SIZE)] on a body that has arrived in full: the
    body is cut into chunks of [BUF_SIZE] bytes, the last one shorter. *)
Fixpoint chunksOf (fuel : nat) (n : nat) (body : list byte)
  : list (list byte) :=
  match fuel with
  | O => []
  | S fuel' =>
      match body with
      | [] => []
      | _ => take n body :: chunksOf fuel' n (drop n body)
      end
  end.

Definition readChunks (body : list byte) : list (list byte) :=
  chunksOf (length body) (Z.to_nat BUF_SIZE) body.

Definition upload (marker body : list byte) : Upload :=
  uploadLoop marker start (readChunks body).

(** Reference extractor, following the spec's words: the whole body is in
    memory, and the payload is what precedes the first occurrence of the
    marker [\r\n--boundary]. *)
Fixpoint ref_extract (marker body : list byte) : option (list byte) :=
  if bytesMatch body marker then Some []
  else
    match body with
    | [] => None
    | b :: rest => option_map (cons b) (ref_extract marker rest)
    end.

(** The marker [\r\n--B] and a body whose 1022 payload bytes are followed
    by the marker and the closing [--\r\n]: the first chunk of 1024 bytes
    ends after the marker's [\r\n]. *)
Definition marker_B : list byte := [x0d; x0a; x2d; x2d; x42].
Definition payload_1022 : list byte := repeat x41 1022.
Definition body_split : list byte :=
  payload_1022 ++ marker_B ++ [x2d; x2d; x0d; x0a].

Definition call_in_range (c : Z * Z) : Prop := 0 <= c.1 <= c.2.

Definition chunk_ok (buf : list byte) : Prop :=
  (0 < length buf <= 1024)%nat.

(** The last [n] bytes of what has been received. *)
Definition lastn (n : nat) (s : list byte) : list byte :=
  drop (length s - n)%nat s.

(** [s] ends with the marker: the test of the scan, on everything
    received instead of on the window. *)
Definition endsWith (s marker : list byte) : bool :=
  (Z.of_nat (length marker) <=? Z.of_nat (length s)) && tailMatches s marker.

(** State of the loop after the bytes [s] went by without a match. *)
Definition streaming (st : Upload) (s : list byte) : Prop :=
  finished st = false /\
  image (flash st) = s /\
  window st = lastn 128 s /\
  written st = wrap32 (Z.of_nat (length s)).

(** No prefix of [s] ends with the marker. *)
Definition noMatchIn (marker s : list byte) : Prop :=
  forall k, (k <= length s)%nat -> endsWith (take k s) marker = false.

(** The window read as a hold-back buffer: the bytes written and the
    bytes held in the window are disjoint parts of what was received. *)
Definition window_bytes_unwritten (marker : list byte)
    (chunks : list (list byte)) : Prop :=
  let st := uploadLoop marker start chunks in
  (length (image (flash st)) + length (window st) <= length (concat chunks))%nat.

End Ota.

(** ** Key-value store over the NVS namespace [keys] *)

Module Store.

Definition MAX_KEYS : nat := 100.
Definition MAX_VALUE_LENGTH : nat := 128.

(** The [Preferences] namespace: a finite map from key names to strings. *)
Abbreviation Prefs := (gmap string string).

Definition isKey (prefs : Prefs) (key : string) : bool :=
  bool_decide (is_Some (prefs !! key)).

Definition getString (prefs : Prefs) (key dflt : string) : string :=
  default dflt (prefs !! key).

(** [putString(const char* key, String value)] hands [value.c_str()] to
    the NVS, which stores a C string: the value up to its first NUL. *)
Definition putString (prefs : Prefs) (key value : string) : Prefs :=
  <[key := c_str value]> prefs.

Definition remove (prefs : Prefs) (key : string) : Prefs :=
  delete key prefs.

(** ["k" + String(i)] *)
Definition keyName (i : nat) : string := "k" +:+ pretty i.

(** What [sendJSON] is given: the status code, the [message] field and the
    [key] field when there is one. *)
Record Reply := { status : Z; message : string; key : option string }.

Definition reply (st : Z) (msg : string) : Reply :=
  {| status := st; message := msg; key := None |}.

Definition replyKey (st : Z) (msg k : string) : Reply :=
  {| status := st; message := msg; key := Some k |}.

(** [for (int i = 0; i < MAX_KEYS; i++) if (!prefs.isKey(key)) { keyIndex = i; break; }]
    [None] stands for [keyIndex = -1]. *)
Definition freeIndex (prefs : Prefs) : option nat :=
  find (fun i => negb (isKey prefs (keyName i))) (seq 0 MAX_KEYS).

(** [handleAPIInsert], from the value extracted from the JSON body and
    trimmed. *)
Definition handleAPIInsert (value : string) (prefs : Prefs) : Reply * Prefs :=
  if (String.length value =? 0)%nat then
    (reply 400 "Value cannot be empty", prefs)
  else if (MAX_VALUE_LENGTH <? String.length value)%nat then
    (reply 400 "Value too long (max 128 chars)", prefs)
  else
    match freeIndex prefs with
    | None => (reply 400 "Maximum keys reached (100/100)", prefs)
    | Some keyIndex =>
        let key := keyName keyIndex in
        (replyKey 200 "Value inserted" key, putString prefs key value)
    end.

(** [handleAPIAddKey], from the url-decoded value of the form body. *)
Definition handleAPIAddKey (value : string) (prefs : Prefs) : Reply * Prefs :=
  if (String.length value =? 0)%nat then
    (reply 400 "Value cannot be empty", prefs)
  else if (MAX_VALUE_LENGTH <? String.length value)%nat then
    (reply 400 "Value too long (max 128 chars)", prefs)
  else
    match freeIndex prefs with
    | None => (reply 400 "Maximum keys reached (100/100)", prefs)
    | Some keyIndex =>
        let key := keyName keyIndex in
        (replyKey 200 "Key saved" key, putString prefs key value)
    end.

(** [handleAPIDeleteKey], from the url-decoded key of the form body; both
    [isKey] and [remove] are given [key.c_str()], the key up to its first
    NUL. *)
Definition handleAPIDeleteKey (key : string) (prefs : Prefs) : Reply * Prefs :=
  let key := c_str key in
  if negb (isKey prefs key) then (reply 404 "Key not found", prefs)
  else (reply 200 "Key deleted", remove prefs key).

(** The search loop of [handleAPIRemove]; [foundKey] stays empty when no
    slot holds the value. *)
Definition findValue (searchValue : string) (prefs : Prefs) : string :=
  match find (fun i => isKey prefs (keyName i)
                       && String.eqb (getString prefs (keyName i) "") searchValue)
             (seq 0 MAX_KEYS) with
  | Some i => keyName i
  | None => ""
  end.

(** [handleAPIRemove], from the value extracted from the JSON body and
    trimmed. *)
Definition handleAPIRemove (searchValue : string) (prefs : Prefs)
  : Reply * Prefs :=
  if (String.length searchValue =? 0)%nat then
    (reply 400 "Value cannot be empty", prefs)
  else
    let foundKey := findValue searchValue prefs in
    if (String.length foundKey =? 0)%nat then
      (reply 404 "Value not found in storage", prefs)
    else
      (replyKey 200 "Value removed" foundKey, remove prefs foundKey).

(** Successive insert requests, with their replies in order. *)
Fixpoint insertAll (values : list string) (prefs : Prefs)
  : list Reply * Prefs :=
  match values with
  | [] => ([], prefs)
  | v :: rest =>
      let '(r, prefs') := handleAPIInsert v prefs in
      let '(rs, prefs'') := insertAll rest prefs' in
      (r :: rs, prefs'')
  end.

Definition validValue (value : string) : Prop :=
  (0 < String.length value <= MAX_VALUE_LENGTH)%nat.

(** The store holds exactly [values], in slots [k0], [k1], ... in order. *)
Definition filled (values : list string) (prefs : Prefs) : Prop :=
  forall i, prefs !! keyName i = values !! i.

End Store.

(** ** Session management *)

Module Auth.

(** One hour, in milliseconds. *)
Definition SESSION_TIMEOUT : Z := 3600000.

Record Session := {
  sessionId : string;
  lastActivity : Z;
  isAuthenticated : bool
}.

(** [isSessionValid] on the global [currentSession]; [now] is the value
    [millis()] returns, an [unsigned long] of 32 bits, so the idle time is
    a difference modulo 2^32. *)
Definition isSessionValid (token : string) (now : Z) (cur : Session)
  : bool * Session :=
  if (String.length token =? 0)%nat then (false, cur)
  else if negb (String.eqb token (sessionId cur)) then (false, cur)
  else if negb (isAuthenticated cur) then (false, cur)
  else if wrap32 (now - lastActivity cur) >? SESSION_TIMEOUT then
    (false, {| sessionId := sessionId cur;
               lastActivity := lastActivity cur;
               isAuthenticated := false |})
  else
    (true, {| sessionId := sessionId cur;
              lastActivity := now;
              isAuthenticated := isAuthenticated cur |}).

(** [String(v, HEX)] for a value that [random(0, 16)] returns. *)
Definition hexDigit (v : Z) : string :=
  match v with
  | 0 => "0" | 1 => "1" | 2 => "2" | 3 => "3" | 4 => "4" | 5 => "5"
  | 6 => "6" | 7 => "7" | 8 => "8" | 9 => "9" | 10 => "a" | 11 => "b"
  | 12 => "c" | 13 => "d" | 14 => "e" | 15 => "f" | _ => ""
  end.

(** [generateSessionId], from the 32 values that the random generator
    hands out. *)
Definition generateSessionId (draws : list Z) : string :=
  fold_left (fun sessionId v => sessionId +:+ hexDigit v) (take 32 draws) "".

Definition createSession (draws : list Z) (now : Z) : Session :=
  {| sessionId := generateSessionId draws;
     lastActivity := now;
     isAuthenticated := true |}.

Definition destroySession (cur : Session) : Session :=
  {| sessionId := "";
     lastActivity := lastActivity cur;
     isAuthenticated := false |}.



End Auth.

(** ** Login and the routing of POST requests *)

Module Http.
Import Auth.

Definition ADMIN_PASSWORD : string := "admin123".

Definition CRLF : string := String "013" (String "010" "").

(** The connection: [rx] holds the bytes that have arrived and were not
    read yet, [tx] the bytes sent to the peer. *)
Record Client := { rx : string; tx : string }.

Definition print (c : Client) (s : string) : Client :=
  {| rx := rx c; tx := tx c +:+ s |}.

Definition println (c : Client) (s : string) : Client :=
  {| rx := rx c; tx := tx c +:+ s +:+ CRLF |}.

(** [while (client.available() && body.length() < contentLength)
       body += (char)client.read();]
    returns the body and what stays unread. *)
Fixpoint readBody (contentLength : nat) (avail : string) : string * string :=
  match contentLength, avail with
  | S n, String ch rest =>
      let '(body, unread) := readBody n rest in (String ch body, unread)
  | _, _ => ("", avail)
  end.

(** [s.indexOf(pat, from)], -1 when [pat] does not occur. *)
Definition indexOfFrom (s pat : string) (from : Z) : Z :=
  match index (Z.to_nat from) pat s with
  | Some n => Z.of_nat n
  | None => -1
  end.

Definition indexOf (s pat : string) : Z := indexOfFrom s pat 0.

(** [s.substring(left)] and [s.substring(left, right)] for
    [0 <= left <= right]. *)
Definition substringFrom (s : string) (left : Z) : string :=
  substring (Z.to_nat left) (String.length s - Z.to_nat left) s.

Definition substringRange (s : string) (left right : Z) : string :=
  substring (Z.to_nat left) (Z.to_nat right - Z.to_nat left) s.

Definition extractCookie (cookieHeader cookieName : string) : string :=
  let startPos := indexOf cookieHeader (cookieName +:+ "=") in
  if startPos <? 0 then ""
  else
    let startPos := startPos + Z.of_nat (String.length cookieName) + 1 in
    let endPos := indexOfFrom cookieHeader ";" startPos in
    if endPos <? 0 then substringFrom cookieHeader startPos
    else substringRange cookieHeader startPos endPos.

Section Handlers.

(** [(char)strtol(hex, NULL, 16)] on the two characters that follow a
    percent sign: a function of the C library. *)
Variable strtol16 : ascii -> ascii -> ascii.

Fixpoint urlDecode (str : string) : string :=
  match str with
  | EmptyString => EmptyString
  | String c rest =>
      if Ascii.eqb c "+" then String " " (urlDecode rest)
      else if Ascii.eqb c "%" then
        match rest with
        | String h1 (String h2 rest') =>
            String (strtol16 h1 h2) (urlDecode rest')
        | _ => urlDecode rest
        end
      else String c (urlDecode rest)
  end.

(** The answer sent at each of the three places where the login fails. *)
Definition redirectError (c : Client) : Client :=
  let c := println c "HTTP/1.1 302 Found" in
  let c := println c "Location: /?error=1" in
  let c := println c "Connection: close" in
  println c "".

(** [handleLogin]; [now] is what [millis()] returns and [draws] what the
    random generator hands to [createSession].  [password ==
    ADMIN_PASSWORD] compares a [String] with a [const char*]: it is
    [strcmp], which reads the password up to its first NUL. *)
Definition handleLogin (contentLength now : Z) (draws : list Z)
    (c : Client) (cur : Session) : Client * Session :=
  if (contentLength <=? 0) || (contentLength >? 256) then
    (redirectError c, cur)
  else
    let '(body, unread) := readBody (Z.to_nat contentLength) (rx c) in
    let c := {| rx := unread; tx := tx c |} in
    let pwdPos := indexOf body "password=" in
    if pwdPos <? 0 then (redirectError c, cur)
    else
      let password := urlDecode (substringFrom body (pwdPos + 9)) in
      if String.eqb (c_str password) ADMIN_PASSWORD then
        let cur := createSession draws now in
        let c := println c "HTTP/1.1 302 Found" in
        let c := println c "Location: /" in
        let c := print c "Set-Cookie: sessionId=" in
        let c := print c (sessionId cur) in
        let c := println c "; Path=/; HttpOnly; Max-Age=3600" in
        let c := println c "Connection: close" in
        let c := println c "" in
        (c, cur)
      else (redirectError c, cur).

Definition serveUnauthorized (c : Client) : Client :=
  let c := println c "HTTP/1.1 401 Unauthorized" in
  let c := println c "Content-Type: text/html" in
  let c := println c "Connection: close" in
  let c := println c "" in
  let c := println c "<html><body style='font-family: Arial; text-align: center; padding: 50px;'>" in
  let c := println c "<h2 style='color: #dc3545;'>🔒 Unauthorized</h2>" in
  let c := println c "<p>Your session has expired or is invalid.</p>" in
  let c := println c "<a href='/' style='color: #667eea; text-decoration: none; font-weight: 600;'>← Login Again</a>" in
  println c "</body></html>".

Definition serve404 (c : Client) : Client :=
  let c := println c "HTTP/1.1 404 Not Found" in
  let c := println c "Content-Type: text/html" in
  let c := println c "Connection: close" in
  let c := println c "" in
  let c := println c "<html><body style='font-family: Arial; text-align: center; padding: 50px;'>" in
  let c := println c "<h2>404 - Page Not Found</h2>" in
  let c := println c "<a href='/' style='color: #667eea;'>← Back to Home</a>" in
  println c "</body></html>".

(** The handlers of the upload and of the store API act on the connection
    and on the session only through these parameters. *)
Variable handleOTAUpload :
  Z -> string -> string -> Client -> Session -> Client * Session.
Variable handleAPI : string -> Z -> Client -> Session -> Client * Session.

(** The [POST] branch of the routing in [loop], once the headers are
    read. *)
Definition routePost (requestPath cookieHeader contentType : string)
    (contentLength now : Z) (draws : list Z) (c : Client) (cur : Session)
  : Client * Session :=
  let sessionId := extractCookie cookieHeader "sessionId" in
  if String.eqb requestPath "/login" then
    handleLogin contentLength now draws c cur
  else if String.eqb requestPath "/doupdate" then
    let '(valid, cur) := isSessionValid sessionId now cur in
    if valid then handleOTAUpload contentLength contentType sessionId c cur
    else (serveUnauthorized c, cur)
  else if String.prefix "/api/" requestPath then
    if String.eqb requestPath "/api/keys" then
      handleAPI requestPath contentLength c cur
    else if String.eqb requestPath "/api/insert" then
      handleAPI requestPath contentLength c cur
    else if String.eqb requestPath "/api/remove" then
      handleAPI requestPath contentLength c cur
    else (serve404 c, cur)
  else (serve404 c, cur).

End Handlers.

(** [strtol16] on two hexadecimal digits, 0 on anything else; used to run
    the handlers on examples. *)
Definition hexValue (c : ascii) : option N :=
  let n := N_of_ascii c in
  if ((48 <=? n) && (n <=? 57))%N then Some (n - 48)%N
  else if ((97 <=? n) && (n <=? 102))%N then Some (n - 87)%N
  else if ((65 <=? n) && (n <=? 70))%N then Some (n - 55)%N
  else None.

Definition hexPair (h1 h2 : ascii) : ascii :=
  match hexValue h1, hexValue h2 with
  | Some a, Some b => ascii_of_N (16 * a + b)
  | _, _ => "000"%char
  end.


Definition okResponse (token : string) : string :=
  "HTTP/1.1 302 Found" +:+ CRLF +:+ "Location: /" +:+ CRLF
  +:+ "Set-Cookie: sessionId=" +:+ token
  +:+ "; Path=/; HttpOnly; Max-Age=3600" +:+ CRLF
  +:+ "Connection: close" +:+ CRLF +:+ CRLF.

Definition unauthorizedResponse : string :=
  tx (serveUnauthorized {| rx := ""; tx := "" |}).


Definition noSession : Session :=
  {| sessionId := ""; lastActivity := 0; isAuthenticated := false |}.

End Http.

(** ** The store API as a whole *)

Module StoreApi.
Import Store.

(** [countKeys]: the loop over the 100 slots. *)
Definition countKeys (prefs : Prefs) : nat :=
  fold_left (fun count i => if isKey prefs (keyName i) then S count else count)
            (seq 0 MAX_KEYS) 0%nat.

(** A request to the store API, with what the handler takes out of its
    body. *)
Inductive Request :=
| ReqInsert (value : string)
| ReqAddKey (value : string)
| ReqDeleteKey (key : string)
| ReqRemove (value : string).

Definition serve (r : Request) (prefs : Prefs) : Reply * Prefs :=
  match r with
  | ReqInsert v => handleAPIInsert v prefs
  | ReqAddKey v => handleAPIAddKey v prefs
  | ReqDeleteKey k => handleAPIDeleteKey k prefs
  | ReqRemove v => handleAPIRemove v prefs
  end.

(** Requests served one after the other, as [loop] does. *)
Fixpoint serveAll (rs : list Request) (prefs : Prefs) : Prefs :=
  match rs with
  | [] => prefs
  | r :: rest => serveAll rest (serve r prefs).2
  end.

(** Every entry sits in one of the slots [k0] .. [k99] and holds at most
    128 bytes. *)
Definition slotsOnly (prefs : Prefs) : Prop :=
  forall k v, prefs !! k = Some v ->
    (exists i, (i < MAX_KEYS)%nat /\ k = keyName i)
    /\ (String.length v <= MAX_VALUE_LENGTH)%nat.

(** Every value is a C string: it holds no NUL. *)
Definition cStrings (prefs : Prefs) : Prop :=
  forall k v, prefs !! k = Some v -> c_str v = v.

(** No slot holds the value [v]. *)
Definition absent (v : string) (prefs : Prefs) : Prop :=
  forall i, (i < MAX_KEYS)%nat -> prefs !! keyName i <> Some v.

End StoreApi.

(** ** Sessions over time, logout *)

Module Sessions.
Import Auth Http.

(** Successive validations of one token, at the times [times]: whether
    all of them succeed, and the session left. *)
Fixpoint validateAll (token : string) (times : list Z) (cur : Session)
  : bool * Session :=
  match times with
  | [] => (true, cur)
  | now :: rest =>
      let '(ok, cur') := isSessionValid token now cur in
      if ok then validateAll token rest cur' else (false, cur')
  end.

(** Each time is within the timeout of the one before, starting from
    [t0]. *)
Fixpoint withinTimeout (t0 : Z) (times : list Z) : Prop :=
  match times with
  | [] => True
  | now :: rest =>
      wrap32 (now - t0) <= SESSION_TIMEOUT /\ withinTimeout now rest
  end.

Definition handleLogout (c : Client) (cur : Session) : Client * Session :=
  let cur := destroySession cur in
  let c := println c "HTTP/1.1 302 Found" in
  let c := println c "Location: /" in
  let c := println c "Set-Cookie: sessionId=; Path=/; HttpOnly; Max-Age=0" in
  let c := println c "Connection: close" in
  let c := println c "" in
  (c, cur).

End Sessions.

(** ** Escaping of text for HTML pages and JSON replies *)

Module Escapes.

(** The double quote and the backslash. *)
Definition dq : ascii := "034".
Definition bs : ascii := "092".

(** [htmlEscape]: for each character in turn, [escaped += ...]. *)
Fixpoint htmlEscape (str : string) : string :=
  match str with
  | EmptyString => EmptyString
  | String c rest =>
      (if Ascii.eqb c "<" then "&lt;"
       else if Ascii.eqb c ">" then "&gt;"
       else if Ascii.eqb c "&" then "&amp;"
       else if Ascii.eqb c dq then "&quot;"
       else if Ascii.eqb c "'" then "&#39;"
       else String c "") +:+ htmlEscape rest
  end.

(** The escaping loop of [handleAPIGetKeys], [handleAPIInsert] and
    [handleAPIPrint]: for each character of the value in turn,
    [json += ...]. *)
Fixpoint jsonEscape (value : string) : string :=
  match value with
  | EmptyString => EmptyString
  | String c rest =>
      (if Ascii.eqb c dq then String bs (String dq "")
       else if Ascii.eqb c bs then String bs (String bs "")
       else if Ascii.eqb c "010" then String bs "n"
       else if Ascii.eqb c "013" then String bs "r"
       else if Ascii.eqb c "009" then String bs "t"
       else String c "") +:+ jsonEscape rest
  end.

(** A reader of the replies, not part of the sketch: it undoes the
    escapes that [jsonEscape] writes. *)
Fixpoint jsonUnescape (s : string) : string :=
  match s with
  | EmptyString => EmptyString
  | String c rest =>
      if Ascii.eqb c bs then
        match rest with
        | String e rest' =>
            String (if Ascii.eqb e "n" then "010"
                    else if Ascii.eqb e "r" then "013"
                    else if Ascii.eqb e "t" then "009"
                    else e)%char (jsonUnescape rest')
        | EmptyString => EmptyString
        end
      else String c (jsonUnescape rest)
  end.

(** The character [c] does not occur in [s]. *)
Definition lacks (c : ascii) (s : string) : Prop :=
  index 0 (String c "") s = None.

End Escapes.

(** ** Lines and the search of the multipart field *)

Module Multipart.
Import Http Escapes.

Definition CR : ascii := "013".
Definition LF : ascii := "010".

(** [readLine] on the bytes that arrive: whether a line feed was reached,
    the line without its carriage returns, and what stays unread.  The
    bytes end where the peer has closed the connection; the wait for
    bytes that have not arrived yet is not part of the embedding. *)
Fixpoint readLine (avail out : string) : bool * string * string :=
  match avail with
  | EmptyString => (false, out, EmptyString)
  | String c rest =>
      if Ascii.eqb c CR then readLine rest out
      else if Ascii.eqb c LF then (true, out, rest)
      else readLine rest (out +:+ String c "")
  end.

(** [while (true) { if (!readLine(client, line)) return false;
                    if (line.length() == 0) break; }]
    [None] stands for the [return false]. *)
Fixpoint skipHeaders (fuel : nat) (avail : string) : option string :=
  match fuel with
  | O => None
  | S fuel' =>
      let '(ok, line, rest) := readLine avail "" in
      if negb ok then None
      else if (String.length line =? 0)%nat then Some rest
      else skipHeaders fuel' rest
  end.

(** The outer loop of [findMultipartField]. *)
Fixpoint findFieldLoop (fuel : nat) (boundary searchStr avail : string)
  : bool * string :=
  match fuel with
  | O => (false, avail)
  | S fuel' =>
      let '(ok, line, rest) := readLine avail "" in
      if negb ok then (false, rest)
      else if String.prefix boundary line then
        let '(ok, line, rest) := readLine rest "" in
        if negb ok then (false, rest)
        else if 0 <=? indexOf line searchStr then
          match skipHeaders fuel' rest with
          | None => (false, EmptyString)
          | Some rest => (true, rest)
          end
        else
          match skipHeaders fuel' rest with
          | None => (false, EmptyString)
          | Some rest => findFieldLoop fuel' boundary searchStr rest
          end
      else findFieldLoop fuel' boundary searchStr rest
  end.

(** [findMultipartField]: whether the field was found, and what stays
    unread.  Every turn of a loop reads at least one byte, so the loops
    take at most as many turns as bytes have arrived. *)
Definition findMultipartField (boundary fieldName avail : string)
  : bool * string :=
  let searchStr := "name=" +:+ String dq fieldName +:+ String dq "" in
  findFieldLoop (S (String.length avail)) boundary searchStr avail.

(** [line] without its carriage returns. *)
Fixpoint dropCR (line : string) : string :=
  match line with
  | EmptyString => EmptyString
  | String c rest =>
      if Ascii.eqb c CR then dropCR rest else String c (dropCR rest)
  end.

(** What comes before the target part: lines that do not start with the
    boundary, and parts of other fields (boundary line, a line without the
    name searched for, header lines, an empty line).  Each line is given
    without its line end. *)
Inductive Item :=
| PlainLine (line : string)
| OtherPart (boundaryLine dispositionLine : string) (headers : list string).

Definition line (l : string) : string := l +:+ String CR (String LF "").

Definition lines (ls : list string) : string :=
  fold_right (fun l s => line l +:+ s) "" ls.

Definition partHead (boundaryLine dispositionLine : string)
    (headers : list string) : string :=
  line boundaryLine +:+ line dispositionLine +:+ lines headers +:+ line "".

Definition render (it : Item) : string :=
  match it with
  | PlainLine l => line l
  | OtherPart b d hs => partHead b d hs
  end.

(** A line of text: no line end inside. *)
Definition textLine (l : string) : Prop :=
  lacks CR l /\ lacks LF l.


(** The bytes of a multipart body: what comes before the target part,
    the head of the target part, and its payload with all that follows. *)
Definition multipartBody (items : list Item)
    (boundaryLine dispositionLine : string) (headers : list string)
    (payload : string) : string :=
  fold_right (fun it s => render it +:+ s)
             (partHead boundaryLine dispositionLine headers +:+ payload) items.

End Multipart.

(** ** White space *)

Module Text.

(** [isspace] of the C library, in the C locale. *)
Definition isspace (c : ascii) : bool :=
  let n := N_of_ascii c in ((n =? 32) || ((9 <=? n) && (n <=? 13)))%N.

Fixpoint trimLeft (s : string) : string :=
  match s with
  | EmptyString => EmptyString
  | String c rest => if isspace c then trimLeft rest else s
  end.

Fixpoint trimRight (s : string) : string :=
  match s with
  | EmptyString => EmptyString
  | String c rest =>
      match trimRight rest with
      | EmptyString => if isspace c then EmptyString else String c EmptyString
      | kept => String c kept
      end
  end.

(** [String::trim]: white space is removed at both ends. *)
Definition trim (s : string) : string := trimRight (trimLeft s).


End Text.

(** ** The bodies of the store requests *)

Module StoreRequests.
Import Http Store Escapes Text.

(** [s.indexOf(pat, fromIndex)] of the Arduino [String]: [fromIndex] is
    an [unsigned int], and from a position at or past the end the answer
    is -1; a negative argument is such a position. *)
Definition indexOfAt (s pat : string) (fromIndex : Z) : Z :=
  let fromIndex := wrap32 fromIndex in
  if Z.of_nat (String.length s) <=? fromIndex then -1
  else indexOfFrom s pat fromIndex.

(** The text searched for by [handleAPIInsert] and [handleAPIRemove]:
    the word [value] between double quotes. *)
Definition valueField : string := String dq ("value" +:+ String dq "").

(** How [handleAPIInsert] and [handleAPIRemove] take the value out of
    the body: the reply of the two error cases, or the value, trimmed. *)
Definition jsonValue (body : string) : Reply + string :=
  let valueStart := indexOf body valueField in
  if valueStart <? 0 then inl (reply 400 "Missing 'value' field")
  else
    let colonPos := indexOfAt body ":" valueStart in
    let quoteStart := indexOfAt body (String dq "") colonPos in
    let quoteEnd := indexOfAt body (String dq "") (quoteStart + 1) in
    if (quoteStart <? 0) || (quoteEnd <? 0) then
      inl (reply 400 "Invalid JSON format")
    else inr (trim (substringRange body (quoteStart + 1) quoteEnd)).

(** [handleAPIInsert] and [handleAPIRemove] from the request on: the
    reply, the bytes left unread and the store. *)
Definition handleAPIInsertRequest (contentLength : Z) (avail : string)
    (prefs : Prefs) : Reply * string * Prefs :=
  if (contentLength <=? 0) || (contentLength >? 512) then
    (reply 400 "Invalid content length", avail, prefs)
  else
    let '(body, unread) := readBody (Z.to_nat contentLength) avail in
    match jsonValue body with
    | inl r => (r, unread, prefs)
    | inr value =>
        let '(r, prefs') := handleAPIInsert value prefs in (r, unread, prefs')
    end.


Section Forms.

Variable strtol16 : ascii -> ascii -> ascii.



End Forms.

(** A body in which the first [value] between quotes is followed by
    [mid], a colon, [gap], and the text [v] between double quotes. *)
Definition jsonBody (pre mid gap v post : string) : string :=
  pre +:+ valueField +:+ mid +:+ ":" +:+ gap
  +:+ String dq v +:+ String dq post.

(** No white space at either end of [s]. *)
Definition trimmed (s : string) : Prop := trim s = s.

End StoreRequests.

(** ** The listings of the store *)

Module Listing.
Import Http Store StoreApi Escapes.

(** A word between double quotes. *)
Definition quoted (s : string) : string := String dq s +:+ String dq "".

(** [sendJSON]: the status line ends in [OK] whatever the code is. *)
Definition sendJSON (c : Client) (statusCode : Z) (json : string) : Client :=
  let c := print c "HTTP/1.1 " in
  let c := print c (pretty statusCode) in
  let c := println c " OK" in
  let c := println c "Content-Type: application/json" in
  let c := println c "Connection: close" in
  let c := println c "" in
  println c json.

(** The loop over the slots of [handleAPIGetKeys] and [handleAPIPrint];
    [slots] are the indices still to visit. *)
Fixpoint listLoop (prefs : Prefs) (slots : list nat) (first : bool)
    (json : string) : string :=
  match slots with
  | [] => json
  | i :: rest =>
      let key := keyName i in
      if isKey prefs key then
        let value := getString prefs key "" in
        let json := if negb first then json +:+ "," else json in
        let json :=
          json +:+ ("{" +:+ quoted "key" +:+ ":" +:+ String dq key
                    +:+ String dq "," +:+ quoted "value" +:+ ":"
                    +:+ String dq "") in
        let json := json +:+ jsonEscape value in
        let json := json +:+ String dq "}" in
        listLoop prefs rest false json
      else listLoop prefs rest first json
  end.

(** The text built by [handleAPIGetKeys] ([field] is [keys]) and by
    [handleAPIPrint] ([field] is [data]). *)
Definition listing (field : string) (prefs : Prefs) : string :=
  let json :=
    "{" +:+ quoted "success" +:+ ":true," +:+ quoted "count" +:+ ":"
    +:+ pretty (countKeys prefs) +:+ "," +:+ quoted field +:+ ":[" in
  listLoop prefs (seq 0 MAX_KEYS) true json +:+ "]}".

Definition handleAPIGetKeys (c : Client) (prefs : Prefs) : Client :=
  sendJSON c 200 (listing "keys" prefs).

Definition handleAPIPrint (c : Client) (prefs : Prefs) : Client :=
  sendJSON c 200 (listing "data" prefs).

(** The entries of the slots [slots], in that order. *)
Definition entriesOf (prefs : Prefs) (slots : list nat)
  : list (string * string) :=
  flat_map (fun i => match prefs !! keyName i with
                     | Some v => [(keyName i, v)]
                     | None => []
                     end) slots.

Definition entries (prefs : Prefs) : list (string * string) :=
  entriesOf prefs (seq 0 MAX_KEYS).

(** One entry as a JSON object, and texts joined by commas. *)
Definition renderEntry (e : string * string) : string :=
  "{" +:+ quoted "key" +:+ ":" +:+ quoted e.1 +:+ ","
  +:+ quoted "value" +:+ ":" +:+ String dq (jsonEscape e.2)
  +:+ String dq "}".

Fixpoint joinComma (l : list string) : string :=
  match l with
  | [] => ""
  | [x] => x
  | x :: rest => x +:+ "," +:+ joinComma rest
  end.

(** The separator that the loop writes before the entries [es]. *)
Definition sep (first : bool) (es : list (string * string)) : string :=
  match es with
  | [] => ""
  | _ => if first then "" else ","
  end.

End Listing.

(** ** The upload handler as a whole *)

Module OtaHandler.
Import Http Ota Multipart Escapes Text.

Definition sendUpdateError (c : Client) (msg : string) : Client :=
  let c := println c "HTTP/1.1 500 Internal Server Error" in
  let c := println c "Content-Type: text/html" in
  let c := println c "Connection: close" in
  let c := println c "" in
  let c := println c "<html><body style='font-family: Arial; text-align: center; padding: 50px;'>" in
  let c := println c "<h2 style='color: #dc3545;'>❌ Update Failed</h2>" in
  let c := print c "<p>" in
  let c := print c msg in
  let c := println c "</p>" in
  let c := println c "<p style='color: #666; font-size: 14px;'>Check Serial Monitor for details.</p>" in
  let c := println c "<a href='/' style='color: #667eea; text-decoration: none; font-weight: 600;'>← Back to Dashboard</a>" in
  println c "</body></html>".

Definition sendUpdateSuccess (c : Client) : Client :=
  let c := println c "HTTP/1.1 200 OK" in
  let c := println c "Content-Type: text/html" in
  let c := println c "Connection: close" in
  let c := println c "" in
  let c := println c "<html><head><meta http-equiv='refresh' content='15;url=/'></head>" in
  let c := println c "<body style='font-family: Arial; text-align: center; padding: 50px; background: linear-gradient(135deg, #667eea 0%, #764ba2 100%); color: white;'>" in
  let c := println c "<div style='background: white; color: #333; padding: 50px; border-radius: 20px; display: inline-block;'>" in
  let c := println c "<h2 style='color: #28a745;'>✅ Update Successful!</h2>" in
  let c := println c "<p>Device is rebooting...</p>" in
  let c := println c "<p style='color: #666; font-size: 14px; margin-top: 20px;'>You will be redirected in 15 seconds.</p>" in
  println c "</div></body></html>".

(** What became of the flash writer: [Update.begin] was not reached, it
    failed, or the payload loop ran and [Update.end(true)] answered
    [committed]; the device restarts exactly when it answered true. *)
Inductive Outcome :=
| Refused
| BeginFailed
| Written (u : Upload) (committed : bool).

Definition restarts (o : Outcome) : bool :=
  match o with
  | Written _ committed => committed
  | _ => false
  end.

(** [handleOTAUpload]; [beginOk] and [endOk] are what [Update.begin] and
    [Update.end(true)] answer.  The payload loop reads the bytes left by
    [findMultipartField] in chunks of 1024 and ends at the marker or
    where [client.connected()] is found false with nothing left to read;
    what it leaves unread is dropped with the connection. *)
Definition handleOTAUpload (beginOk endOk : bool) (contentType : string)
    (c : Client) : Client * Outcome :=
  if negb (String.prefix "multipart/form-data" contentType) then
    (sendUpdateError c "Invalid content type", Refused)
  else
    let bPos := indexOf contentType "boundary=" in
    if bPos <? 0 then (sendUpdateError c "Boundary not found", Refused)
    else
      let boundary := trim ("--" +:+ substringFrom contentType (bPos + 9)) in
      let '(found, unread) := findMultipartField boundary "update" (rx c) in
      let c := {| rx := unread; tx := tx c |} in
      if negb found then (sendUpdateError c "Firmware file not found", Refused)
      else if negb beginOk then
        (sendUpdateError c "Failed to initialize update", BeginFailed)
      else
        let boundaryCRLF := String CR (String LF "") +:+ boundary in
        let u := uploadLoop (list_byte_of_string boundaryCRLF) start
                            (readChunks (list_byte_of_string unread)) in
        let c := {| rx := ""; tx := tx c |} in
        if endOk then (sendUpdateSuccess c, Written u true)
        else
          (sendUpdateError c "Update failed during finalization",
           Written u false).

(** The status line of each of the two answers. *)
Definition statusLine (committed : bool) : string :=
  if committed then "HTTP/1.1 200 OK"
  else "HTTP/1.1 500 Internal Server Error".

(** A form as a browser sends it: a text field, a line of preamble, and
    the [update] part with the bytes [fileAndRest] behind its header. *)
Definition disposition (field : string) : string :=
  "Content-Disposition: form-data; name=" +:+ String dq field +:+ String dq "".

Definition formType : string := "multipart/form-data; boundary=B".

Definition formClient (fileAndRest : string) : Client :=
  {| rx := multipartBody
             [OtherPart "--B" (disposition "note") [];
              PlainLine "spring release"]
             "--B" (disposition "update")
             ["Content-Type: application/octet-stream"]
             fileAndRest;
     tx := "" |}.

End OtaHandler.

(** ** The clock as [/api/time] reports it *)

Module TimeApi.
Import Clock.

Definition dayNames : list string :=
  ["Sunday"; "Monday"; "Tuesday"; "Wednesday"; "Thursday"; "Friday";
   "Saturday"]%string.

(** The values that [handleAPIGetTime] puts into its JSON text. *)
Record TimeReply := {
  t_time : Z * Z * Z;
  t_date : Z * Z * Z;
  t_day : string;
  t_timezone : string;
  t_offset : string;
  t_timestamp : Z;
  t_synced : bool;
  t_dst : bool
}.

(** [handleAPIGetTime] up to the formatting of the text: [now] is what
    [time(&now)] returns, and [gmtime_r], a function of the C library,
    is the reference decomposition [ref_gmtime] with [ref_weekday] for
    [tm_wday]. *)
Definition handleAPIGetTime (now : Z) (st : TimeState) : TimeReply :=
  let '(year, mon, mday, hour, min, sec) := ref_gmtime now in
  let inDST := isDST year mon mday hour in
  {| t_time := (hour, min, sec);
     t_date := (year, mon, mday);
     t_day := default "" (dayNames !! Z.to_nat (ref_weekday (now / 86400)));
     t_timezone := if inDST then "CEST" else "CET";
     t_offset := if inDST then "+02:00" else "+01:00";
     t_timestamp := wrap32 now;
     t_synced := timeIsSynced st;
     t_dst := inDST |}.

(** The hours, in GMT, at which [isDST] of the GMT fields and [isDST] of
    the fields of the shifted clock differ: hour 1 of the last Sunday of
    March, hours 1 and 2 of the last Sunday of October. *)
Definition inTransition (year month day hour : Z) : bool :=
  ((month =? 3) && (day =? lastSunday year 3) && (hour =? 1))
  || ((month =? 10) && (day =? lastSunday year 10)
      && ((hour =? 1) || (hour =? 2))).

(** The day after [year]-[month]-[day]. *)
Definition nextDay (year month day : Z) : Z * Z * Z :=
  if day <? ref_daysInMonth year month then (year, month, day + 1)
  else if month <? 12 then (year, month + 1, 1)
  else (year + 1, 1, 1).

(** The Central European rule, in GMT: summer time runs from 01:00 GMT
    of the last Sunday of March, the day [s3], to 01:00 GMT of the last
    Sunday of October, the day [s10]. *)
Definition ref_summerTime (s3 s10 month day hour : Z) : bool :=
  ((4 <=? month) && (month <=? 9))
  || ((month =? 3) && ((s3 <? day) || ((day =? s3) && (1 <=? hour))))
  || ((month =? 10) && ((day <? s10) || ((day =? s10) && (hour <? 1)))).

(** The block at the head of [loop]: [now] and [now'] are the two
    readings of [millis()], [lastSync] the static variable, and [fetched]
    the date that [syncTimeViaHTTP] reads from the time server when it is
    called, [None] when it fails. *)
Definition resync (now now' lastSync : Z) (fetched : option DateFields)
    (st : TimeState) : TimeState * Z :=
  if wrap32 (now - lastSync) >? 3600000 then
    (if negb (timeIsSynced st) then
       match fetched with
       | Some d => installDate d st
       | None => st
       end
     else st,
     now')
  else (st, lastSync).

(** Successive passes of [loop]. *)
Fixpoint resyncAll (passes : list (Z * Z * option DateFields))
    (lastSync : Z) (st : TimeState) : TimeState * Z :=
  match passes with
  | [] => (st, lastSync)
  | (now, now', fetched) :: rest =>
      let '(st', lastSync') := resync now now' lastSync fetched st in
      resyncAll rest lastSync' st'
  end.

End TimeApi.

(** ** The request parser of [loop] *)

Module Parser.
Import Http Escapes Multipart Text StoreRequests.

Definition isdigit (c : ascii) : bool :=
  let n := N_of_ascii c in ((48 <=? n) && (n <=? 57))%N.

(** The digits at the head of [s], read in base ten. *)
Fixpoint digitsValue (s : string) (acc : Z) : Z :=
  match s with
  | EmptyString => acc
  | String c rest =>
      if isdigit c
      then digitsValue rest (10 * acc + Z.of_N (N_of_ascii c - 48))
      else acc
  end.

(** [String::toInt], that is [atol] of the C library: white space, a
    sign, digits; a value outside the 32 bits of a [long] is brought to
    the nearest bound, as [strtol] does. *)
Definition toInt (s : string) : Z :=
  let s := trimLeft s in
  let v :=
    match s with
    | String "-" rest => - digitsValue rest 0
    | String "+" rest => digitsValue rest 0
    | _ => digitsValue s 0
    end in
  Z.max (- 2 ^ 31) (Z.min (2 ^ 31 - 1) v).

(** The local variables of [loop] that the parser keeps. *)
Record Parser := {
  currentLineIsBlank : bool;
  currentLine : string;
  requestPath : string;
  requestMethod : string;
  contentLength : Z;
  contentType : string;
  cookieHeader : string
}.

Definition start : Parser :=
  {| currentLineIsBlank := true; currentLine := ""; requestPath := "";
     requestMethod := ""; contentLength := 0; contentType := "";
     cookieHeader := "" |}.

Definition isRequestLine (line : string) : bool :=
  String.prefix "GET " line || String.prefix "POST " line
  || String.prefix "DELETE " line.

(** [firstSpace] and [secondSpace] of the request line test, and the
    test [secondSpace > 0] under which method and path are assigned. *)
Definition firstSpace (line : string) : Z := indexOf line " ".

Definition secondSpace (line : string) : Z :=
  indexOfAt line " " (firstSpace line + 1).

Definition requestLineHit (line : string) : bool :=
  isRequestLine line && (secondSpace line >? 0).

(** The tests made on [currentLine] after every character read; [line]
    is the current line with that character. *)
Definition scanLine (line : string) (p : Parser) : Parser :=
  {| currentLineIsBlank := currentLineIsBlank p;
     currentLine := line;
     requestPath :=
       if requestLineHit line
       then substringRange line (firstSpace line + 1) (secondSpace line)
       else requestPath p;
     requestMethod :=
       if requestLineHit line
       then substringRange line 0 (firstSpace line)
       else requestMethod p;
     contentLength :=
       if String.prefix "Content-Length: " line
       then toInt (substringFrom line 16) else contentLength p;
     contentType :=
       if String.prefix "Content-Type: " line
       then trim (substringFrom line 14) else contentType p;
     cookieHeader :=
       if String.prefix "Cookie: " line
       then trim (substringFrom line 8) else cookieHeader p |}.

(** One character: it joins the line unless it is a line end, and the
    line is scanned. *)
Definition parseChar (c : ascii) (p : Parser) : Parser :=
  let line :=
    if negb (Ascii.eqb c LF) && negb (Ascii.eqb c CR)
    then currentLine p +:+ String c ""
    else currentLine p in
  scanLine line p.

(** The end of the loop body: a line feed starts a new line, any other
    character but a carriage return makes the line not blank. *)
Definition endOfChar (c : ascii) (p : Parser) : Parser :=
  if Ascii.eqb c LF then
    {| currentLineIsBlank := true; currentLine := "";
       requestPath := requestPath p; requestMethod := requestMethod p;
       contentLength := contentLength p; contentType := contentType p;
       cookieHeader := cookieHeader p |}
  else if negb (Ascii.eqb c CR) then
    {| currentLineIsBlank := false; currentLine := currentLine p;
       requestPath := requestPath p; requestMethod := requestMethod p;
       contentLength := contentLength p; contentType := contentType p;
       cookieHeader := cookieHeader p |}
  else p.

(** The [while (client.connected())] loop of [loop] up to the routing:
    the parser at the line feed of a blank line, with the bytes left
    unread, or [None] when the bytes end before that and nothing is
    routed. *)
Fixpoint parseRequest (avail : string) (p : Parser)
  : option (Parser * string) :=
  match avail with
  | EmptyString => None
  | String c rest =>
      let p := parseChar c p in
      if Ascii.eqb c LF && currentLineIsBlank p then Some (p, rest)
      else parseRequest rest (endOfChar c p)
  end.

(** The parser after a whole line [l]: the scan of the line, and the new
    line begun. *)
Definition afterLine (l : string) (p : Parser) : Parser :=
  endOfChar LF (scanLine l p).

Definition afterLines (ls : list string) (p : Parser) : Parser :=
  fold_left (fun p l => afterLine l p) ls p.


(** The parser in the middle of a line, after the characters [read] of
    it. *)
Definition midLine (read : string) (p : Parser) : Parser :=
  endOfChar "x" (scanLine read p).

End Parser.

(** * Properties *)

Module ClockFacts.
Import Clock.

Lemma isLeap_mod (y : Z) :
  0 <= y ->
  isLeap y = (y mod 4 =? 0) && (negb (y mod 100 =? 0) || (y mod 400 =? 0)).
Proof.
  intros Hy. unfold isLeap. now rewrite !Z.rem_mod_nonneg by lia.
Qed.

Lemma leapsUpTo_step (y : Z) :
  1 <= y ->
  leapsUpTo y = leapsUpTo (y - 1) + (if isLeap y then 1 else 0).
Proof.
  intros Hy. rewrite isLeap_mod by lia. unfold leapsUpTo.
  destruct (Z.eqb_spec (y mod 4) 0), (Z.eqb_spec (y mod 100) 0),
    (Z.eqb_spec (y mod 400) 0); cbn [andb orb negb];
    Z.div_mod_to_equations; lia.
Qed.

Lemma yearLoop_closed (n : nat) : forall y days,
  1 <= y ->
  yearLoop n y days =
    days + 365 * Z.of_nat n + leapsUpTo (y + Z.of_nat n - 1) - leapsUpTo (y - 1).
Proof.
  induction n as [|n IH]; intros y days Hy.
  - cbn [yearLoop]. replace (y + Z.of_nat 0 - 1) with (y - 1) by lia. lia.
  - cbn [yearLoop]. rewrite IH by lia.
    replace (y + 1 + Z.of_nat n - 1) with (y + Z.of_nat (S n) - 1) by lia.
    replace (y + 1 - 1) with y by lia.
    rewrite (leapsUpTo_step y) by lia.
    destruct (isLeap y); lia.
Qed.

Lemma lastSunday_mod (year month : Z) :
  0 <= year -> month = 3 \/ month = 10 ->
  lastSunday year month =
    31 - ((1 + year + year / 4 - year / 100 + year / 400
           + (if month =? 3 then 2 else 20)) mod 7 + 30) mod 7.
Proof.
  intros Hy Hm. unfold lastSunday.
  assert (Z.quot (14 - month) 12 = 0) as -> by (destruct Hm; subst; reflexivity).
  replace (year - 0) with year by lia.
  assert (Z.quot (31 * (month + 12 * 0 - 2)) 12 = if month =? 3 then 2 else 20)
    as -> by (destruct Hm; subst; reflexivity).
  rewrite !Z.quot_div_nonneg by lia.
  set (e := 1 + year + year / 4 - year / 100 + year / 400 + _).
  assert (0 <= e) by (subst e; destruct (month =? 3); Z.div_mod_to_equations; lia).
  rewrite (Z.rem_mod_nonneg e) by lia.
  rewrite Z.rem_mod_nonneg; [reflexivity | | lia].
  pose proof (Z.mod_pos_bound e 7); lia.
Qed.

Lemma lastSunday_ok (year month : Z) :
  0 <= year -> month = 3 \/ month = 10 ->
  is_last_sunday year month (lastSunday year month).
Proof.
  intros Hy Hm. rewrite lastSunday_mod by assumption.
  unfold is_last_sunday, ref_weekday, ref_days_from_civil.
  destruct Hm; subst month; cbn; Z.div_mod_to_equations; lia.
Qed.

Lemma monthLoop_acc (n : nat) : forall m tbl days,
  monthLoop n m tbl days = days + monthLoop n m tbl 0.
Proof.
  induction n as [|n IH]; intros m tbl days; cbn [monthLoop]; [lia|].
  rewrite IH, (IH _ _ (0 + _)). lia.
Qed.

Lemma daysSinceEpoch_ref (year month day : Z) :
  1970 <= year -> 1 <= month <= 12 ->
  daysSinceEpoch year month day = ref_days_from_civil year month day.
Proof.
  intros Hy Hm. unfold daysSinceEpoch.
  rewrite yearLoop_closed by lia.
  rewrite Z2Nat.id by lia.
  replace (1970 + (year - 1970) - 1) with (year - 1) by lia.
  change (leapsUpTo (1970 - 1)) with 477.
  pose proof (leapsUpTo_step year ltac:(lia)) as Hstep.
  unfold daysInMonth. rewrite isLeap_mod in * by lia.
  assert (month = 1 \/ month = 2 \/ month = 3 \/ month = 4 \/ month = 5 \/
          month = 6 \/ month = 7 \/ month = 8 \/ month = 9 \/ month = 10 \/
          month = 11 \/ month = 12) as Hcases by lia.
  unfold ref_days_from_civil, leapsUpTo in *.
  destruct ((year mod 4 =? 0) && (negb (year mod 100 =? 0) || (year mod 400 =? 0)));
    repeat (destruct Hcases as [-> | Hcases]); try subst month;
    rewrite monthLoop_acc;
    match goal with
    | |- context [monthLoop ?n ?m ?t 0] =>
        let v := eval vm_compute in (monthLoop n m t 0) in
        change (monthLoop n m t 0) with v
    end;
    cbn [Z.leb Z.gtb Z.compare Pos.compare Pos.compare_cont];
    Z.div_mod_to_equations; lia.
Qed.

Lemma monthOf_range (d : DateFields) : 1 <= monthOf d <= 12.
Proof.
  unfold monthOf, months.
  cbn [findMonth].
  repeat match goal with
         | |- context [String.eqb ?a ?b] => destruct (String.eqb a b)
         end; lia.
Qed.

Lemma timeOfDay_split (D hh mm ss : Z) :
  0 <= hh < 24 -> 0 <= mm < 60 -> 0 <= ss < 60 ->
  let t := D * 86400 + hh * 3600 + mm * 60 + ss in
  t / 86400 = D /\ (t mod 86400) / 3600 = hh /\
  ((t mod 86400) mod 3600) / 60 = mm /\ (t mod 86400) mod 60 = ss.
Proof.
  intros Hh Hm Hs t. subst t.
  assert ((D * 86400 + hh * 3600 + mm * 60 + ss) / 86400 = D) as HD
    by (Z.div_mod_to_equations; lia).
  assert ((D * 86400 + hh * 3600 + mm * 60 + ss) mod 86400 =
          hh * 3600 + mm * 60 + ss) as ->
    by (Z.div_mod_to_equations; lia).
  repeat split; [exact HD | Z.div_mod_to_equations; lia ..].
Qed.

Lemma ref_isLeap_true (y : Z) :
  ref_isLeap y = true -> y mod 4 = 0 /\ (y mod 100 <> 0 \/ y mod 400 = 0).
Proof.
  unfold ref_isLeap. rewrite andb_true_iff, orb_true_iff, negb_true_iff.
  rewrite !Z.eqb_eq, Z.eqb_neq. tauto.
Qed.

(** Decomposition of a day number given by its era, year of era and day
    of the (March-based) year. *)
Lemma ref_civil_from_parts (era yoe doy : Z) :
  0 <= yoe < 400 -> 0 <= doy <= 365 ->
  (doy = 365 -> (yoe + 1) mod 4 = 0 /\ ((yoe + 1) mod 100 <> 0 \/ yoe = 399)) ->
  ref_civil_from_days
    (era * 146097 + (yoe * 365 + yoe / 4 - yoe / 100 + doy) - 719468)
  = let mp := (5 * doy + 2) / 153 in
    let m := if mp <? 10 then mp + 3 else mp - 9 in
    (if m <=? 2 then yoe + era * 400 + 1 else yoe + era * 400,
     m, doy - (153 * mp + 2) / 5 + 1).
Proof.
  intros Hyoe Hdoy Hleap. unfold ref_civil_from_days. cbv zeta.
  set (doe := yoe * 365 + yoe / 4 - yoe / 100 + doy).
  assert (0 <= doe < 146097) as Hdoe by (subst doe; Z.div_mod_to_equations; lia).
  replace (era * 146097 + doe - 719468 + 719468) with (doe + era * 146097) by lia.
  rewrite Z.div_add by lia. rewrite (Z.div_small doe) by lia.
  replace (doe + era * 146097 - (0 + era) * 146097) with doe by lia.
  assert ((doe - doe / 1460 + doe / 36524 - doe / 146096) / 365 = yoe) as ->
    by (subst doe; Z.div_mod_to_equations; lia).
  replace (doe - (365 * yoe + yoe / 4 - yoe / 100)) with doy by (subst doe; lia).
  reflexivity.
Qed.

Lemma ref_civil_roundtrip (y m d : Z) :
  1 <= m <= 12 -> 1 <= d <= ref_daysInMonth y m ->
  ref_civil_from_days (ref_days_from_civil y m d) = (y, m, d).
Proof.
  intros Hm Hd.
  assert (m = 1 \/ m = 2 \/ m = 3 \/ m = 4 \/ m = 5 \/ m = 6 \/ m = 7 \/
          m = 8 \/ m = 9 \/ m = 10 \/ m = 11 \/ m = 12) as Hc by lia.
  assert (m = 2 -> d = 29 -> y mod 4 = 0 /\ (y mod 100 <> 0 \/ y mod 400 = 0))
    as Hfeb.
  { intros -> ->. unfold ref_daysInMonth in Hd. cbn [Z.eqb Pos.eqb] in Hd.
    destruct (ref_isLeap y) eqn:E; [now apply ref_isLeap_true | lia]. }
  assert (1 <= d <= 31 /\ (m = 2 -> d <= 29) /\
          (m = 4 \/ m = 6 \/ m = 9 \/ m = 11 -> d <= 30)) as Hb.
  { unfold ref_daysInMonth in Hd.
    repeat (destruct Hc as [-> | Hc]); try subst m; cbn [Z.eqb Pos.eqb orb] in Hd;
      try destruct (ref_isLeap y); lia. }
  clear Hd.
  unfold ref_days_from_civil. cbv zeta.
  repeat (destruct Hc as [-> | Hc]); try subst m;
    cbn [Z.leb Z.gtb Z.compare Pos.compare Pos.compare_cont];
    match goal with
    | |- context [(153 * ?mp + 2) / 5] =>
        let v := eval vm_compute in ((153 * mp + 2) / 5) in
        change ((153 * mp + 2) / 5) with v
    end;
    rewrite ref_civil_from_parts;
    try (Z.div_mod_to_equations; lia);
    cbv zeta;
    match goal with
    | |- context [(5 * ?doy + 2) / 153] =>
        first
          [ assert ((5 * doy + 2) / 153 = 0) as -> by (Z.div_mod_to_equations; lia)
          | assert ((5 * doy + 2) / 153 = 1) as -> by (Z.div_mod_to_equations; lia)
          | assert ((5 * doy + 2) / 153 = 2) as -> by (Z.div_mod_to_equations; lia)
          | assert ((5 * doy + 2) / 153 = 3) as -> by (Z.div_mod_to_equations; lia)
          | assert ((5 * doy + 2) / 153 = 4) as -> by (Z.div_mod_to_equations; lia)
          | assert ((5 * doy + 2) / 153 = 5) as -> by (Z.div_mod_to_equations; lia)
          | assert ((5 * doy + 2) / 153 = 6) as -> by (Z.div_mod_to_equations; lia)
          | assert ((5 * doy + 2) / 153 = 7) as -> by (Z.div_mod_to_equations; lia)
          | assert ((5 * doy + 2) / 153 = 8) as -> by (Z.div_mod_to_equations; lia)
          | assert ((5 * doy + 2) / 153 = 9) as -> by (Z.div_mod_to_equations; lia)
          | assert ((5 * doy + 2) / 153 = 10) as -> by (Z.div_mod_to_equations; lia)
          | assert ((5 * doy + 2) / 153 = 11) as -> by (Z.div_mod_to_equations; lia) ]
    end;
    match goal with
    | |- context [(153 * ?mp + 2) / 5] =>
        let v := eval vm_compute in ((153 * mp + 2) / 5) in
        change ((153 * mp + 2) / 5) with v
    end;
    cbn [Z.ltb Z.leb Z.add Z.sub Z.opp Z.compare Pos.compare Pos.compare_cont
         Z.pos_sub Pos.add Pos.succ Pos.pred_double Z.double Z.succ_double
         Z.pred_double];
    (f_equal; [f_equal|]; try lia;
     match goal with |- context [?a <=? 2] => destruct (Z.leb_spec a 2) end;
     lia).
Qed.

Lemma civil_roundtrip (y m d : Z) :
  1970 <= y -> 1 <= m <= 12 -> 1 <= d <= ref_daysInMonth y m ->
  ref_civil_from_days (daysSinceEpoch y m d) = (y, m, d).
Proof.
  intros Hy Hm Hd. rewrite daysSinceEpoch_ref by assumption.
  now apply ref_civil_roundtrip.
Qed.

Lemma to_int32_exact (z : Z) : - 2 ^ 31 <= z < 2 ^ 31 -> to_int32 z = z.
Proof.
  intros Hz. unfold to_int32, wrap32.
  destruct (Z.ltb_spec (z mod 2 ^ 32) (2 ^ 31)); Z.div_mod_to_equations; lia.
Qed.

(** Within the range of a 32-bit [long] the computation is the reference
    one. *)
Lemma toEpoch_exact (year month day hh mm ss : Z) :
  1970 <= year -> 1 <= month <= 12 ->
  - 2 ^ 31 <= ref_timegm year month day hh mm ss < 2 ^ 31 ->
  toEpoch year month day hh mm ss = ref_timegm year month day hh mm ss.
Proof.
  intros Hy Hm Hfit. unfold toEpoch.
  rewrite daysSinceEpoch_ref by assumption.
  now apply to_int32_exact.
Qed.

Lemma ref_timegm_fits_long (year month day hh mm ss : Z) :
  1970 <= year <= 2037 -> 1 <= month <= 12 -> 1 <= day <= 31 ->
  0 <= hh < 24 -> 0 <= mm < 60 -> 0 <= ss < 60 ->
  0 <= ref_timegm year month day hh mm ss < 2 ^ 31 - 7200.
Proof.
  intros Hy Hm Hd Hh Hmi Hs. unfold ref_timegm.
  assert (0 <= ref_days_from_civil year month day <= 24836 + 1).
  { unfold ref_days_from_civil.
    destruct (Z.leb_spec month 2), (Z.gtb_spec month 2); try lia;
      Z.div_mod_to_equations; lia. }
  lia.
Qed.

Lemma toEpoch_fits_long (year month day hh mm ss : Z) :
  1970 <= year <= 2037 -> 1 <= month <= 12 -> 1 <= day <= 31 ->
  0 <= hh < 24 -> 0 <= mm < 60 -> 0 <= ss < 60 ->
  toEpoch year month day hh mm ss = ref_timegm year month day hh mm ss
  /\ 0 <= toEpoch year month day hh mm ss < 2 ^ 31 - 7200.
Proof.
  intros Hy Hm Hd Hh Hmi Hs.
  pose proof (ref_timegm_fits_long year month day hh mm ss Hy Hm Hd Hh Hmi Hs).
  rewrite toEpoch_exact by lia. split; [reflexivity | assumption].
Qed.

(** C3: a time synchronisation installs, as the device clock, the GMT
    epoch of the parsed [Date:] fields plus one hour, or plus two hours
    when [isDST] holds of those same GMT fields, GMT hour included; the
    clock is then marked as synchronised. *)
Theorem sync_installs_gmt_plus_offset (d : DateFields) (st : TimeState) :
  let year := f_year d in
  let month := monthOf d in
  let gmtEpoch := toEpoch year month (f_mday d) (f_hour d) (f_min d) (f_sec d) in
  tv_sec (installDate d st) =
    gmtEpoch + 3600 * (if isDST year month (f_mday d) (f_hour d) then 2 else 1)
  /\ timeIsSynced (installDate d st) = true.
Proof.
  cbv zeta. unfold installDate, monthOf; cbn [tv_sec timeIsSynced].
  replace (f_year d - 1900 + 1900) with (f_year d) by lia.
  split; [|reflexivity].
  destruct (isDST _ _ _ _); lia.
Qed.

Lemma isDST_march (year day hour : Z) :
  (isDST year 3 day hour = true <->
     lastSunday year 3 < day \/ (day = lastSunday year 3 /\ 2 <= hour)).
Proof.
  unfold isDST; change (3 <? 3) with false; change (3 >? 10) with false;
    change (3 >? 3) with false; change (3 =? 3) with true; cbn [orb andb].
  destruct (Z.ltb_spec day (lastSunday year 3)),
    (Z.gtb_spec day (lastSunday year 3)), (Z.ltb_spec hour 2);
    split; intros; try discriminate; try reflexivity; lia.
Qed.

Lemma isDST_october (year day hour : Z) :
  (isDST year 10 day hour = true <->
     day < lastSunday year 10 \/ (day = lastSunday year 10 /\ hour < 3)).
Proof.
  unfold isDST; change (10 <? 3) with false; change (10 >? 10) with false;
    change (10 >? 3) with true; change (10 <? 10) with false;
    change (10 =? 3) with false; change (10 =? 10) with true; cbn [orb andb].
  destruct (Z.ltb_spec day (lastSunday year 10)),
    (Z.gtb_spec day (lastSunday year 10)), (Z.ltb_spec hour 3);
    split; intros; try discriminate; try reflexivity; lia.
Qed.

(** C4: [isDST] is total; it is false in January, February, November and
    December and true from April to September; in March it is true exactly
    after the last Sunday and from hour 2 on that day, in October exactly
    before the last Sunday and before hour 3 on that day; and for a year
    of the common era the day [31 - ((dayOfWeek1st + 30) mod 7)] it uses is
    the actual last Sunday of March and of October. *)
Theorem isDST_central_european (year day hour : Z) :
  (forall month, month = 1 \/ month = 2 \/ month = 11 \/ month = 12 ->
     isDST year month day hour = false)
  /\ (forall month, 4 <= month <= 9 -> isDST year month day hour = true)
  /\ (isDST year 3 day hour = true <->
        lastSunday year 3 < day \/ (day = lastSunday year 3 /\ 2 <= hour))
  /\ (isDST year 3 day hour = false <->
        day < lastSunday year 3 \/ (day = lastSunday year 3 /\ hour < 2))
  /\ (isDST year 10 day hour = true <->
        day < lastSunday year 10 \/ (day = lastSunday year 10 /\ hour < 3))
  /\ (isDST year 10 day hour = false <->
        lastSunday year 10 < day \/ (day = lastSunday year 10 /\ 3 <= hour))
  /\ (0 <= year ->
        is_last_sunday year 3 (lastSunday year 3) /\
        is_last_sunday year 10 (lastSunday year 10)).
Proof.
  split; [|split; [|split; [|split; [|split; [|split]]]]].
  - intros month Hm. unfold isDST.
    destruct Hm as [-> | [-> | [-> | ->]]]; reflexivity.
  - intros month Hm. unfold isDST.
    destruct (Z.ltb_spec month 3), (Z.gtb_spec month 10),
      (Z.gtb_spec month 3), (Z.ltb_spec month 10); cbn; lia || reflexivity.
  - apply isDST_march.
  - rewrite <- not_true_iff_false, isDST_march. lia.
  - apply isDST_october.
  - rewrite <- not_true_iff_false, isDST_october. lia.
  - intros Hy; split; apply lastSunday_ok; auto.
Qed.

Lemma isDST_central_european_witness :
  0 <= 2024 /\ is_last_sunday 2024 3 (lastSunday 2024 3)
  /\ is_last_sunday 2024 10 (lastSunday 2024 10)
  /\ isDST 2024 7 14 12 = true.
Proof.
  pose proof (isDST_central_european 2024 14 12)
    as (_ & Hsummer & _ & _ & _ & _ & Hlast).
  split; [lia|].
  destruct (Hlast ltac:(lia)) as [H3 H10].
  split; [exact H3 | split; [exact H10 | apply Hsummer; lia]].
Defined.

(** C5 fails as stated: the second after 2038-01-19T03:14:07Z does not fit
    the 32-bit [long] of the computation, which wraps to the lowest
    value, and for a date before 1970 the loop over the years does not
    run, so that the last second of 1969 comes out as the last second of
    a year counted from 1970. *)
Lemma toEpoch_leaves_reference :
  toEpoch 2038 1 19 3 14 8 = - 2147483648
  /\ ref_timegm 2038 1 19 3 14 8 = 2147483648
  /\ toEpoch 1969 12 31 23 59 59 = 31535999
  /\ ref_timegm 1969 12 31 23 59 59 = - 1.
Proof. vm_compute. auto. Qed.

(** C5, as amended: the day count and epoch computed by
    [syncTimeViaHTTP] agree with the reference calendar-to-epoch function
    for every date from 1970 on, with a month between 1 and 12, whose
    epoch fits a signed 32-bit [long], that is up to
    2038-01-19T03:14:07Z; 2024-03-01T00:00:00Z maps to 1709251200; and
    the reference decomposition inverts the computation on every valid
    date and time of day in that range, so in particular on dates of
    every month of 2023 and of 2024. *)
Theorem toEpoch_agrees_with_reference :
  (forall year month day hh mm ss,
      1970 <= year -> 1 <= month <= 12 ->
      - 2 ^ 31 <= ref_timegm year month day hh mm ss < 2 ^ 31 ->
      toEpoch year month day hh mm ss = ref_timegm year month day hh mm ss)
  /\ toEpoch 2024 3 1 0 0 0 = 1709251200
  /\ ref_timegm 2038 1 19 3 14 7 = 2 ^ 31 - 1
  /\ (forall y m d hh mm ss,
        1970 <= y -> 1 <= m <= 12 -> 1 <= d <= ref_daysInMonth y m ->
        0 <= hh < 24 -> 0 <= mm < 60 -> 0 <= ss < 60 ->
        ref_timegm y m d hh mm ss < 2 ^ 31 ->
        ref_gmtime (toEpoch y m d hh mm ss) = (y, m, d, hh, mm, ss))
  /\ (forall y m d hh mm ss,
        y = 2023 \/ y = 2024 -> 1 <= m <= 12 -> 1 <= d <= 28 ->
        0 <= hh < 24 -> 0 <= mm < 60 -> 0 <= ss < 60 ->
        ref_gmtime (toEpoch y m d hh mm ss) = (y, m, d, hh, mm, ss)).
Proof.
  assert (forall y m d hh mm ss,
        1970 <= y -> 1 <= m <= 12 -> 1 <= d <= ref_daysInMonth y m ->
        0 <= hh < 24 -> 0 <= mm < 60 -> 0 <= ss < 60 ->
        ref_timegm y m d hh mm ss < 2 ^ 31 ->
        ref_gmtime (toEpoch y m d hh mm ss) = (y, m, d, hh, mm, ss)) as Hround.
  { intros y m d hh mm ss Hy Hm Hd Hh Hmi Hs Hfit.
    assert (0 <= ref_days_from_civil y m d) as Hdays.
    { unfold ref_days_from_civil.
      destruct (Z.leb_spec m 2), (Z.gtb_spec m 2); try lia;
        Z.div_mod_to_equations; lia. }
    rewrite toEpoch_exact by (try assumption; unfold ref_timegm in *; lia).
    unfold ref_gmtime, ref_timegm.
    destruct (timeOfDay_split (ref_days_from_civil y m d) hh mm ss Hh Hmi Hs)
      as (H1 & H2 & H3 & H4).
    rewrite H1, H2, H3, H4, ref_civil_roundtrip by assumption.
    reflexivity. }
  split; [|split; [|split; [|split]]].
  - exact toEpoch_exact.
  - reflexivity.
  - reflexivity.
  - exact Hround.
  - intros y m d hh mm ss Hy Hm Hd Hh Hmi Hs.
    apply Hround; try assumption; [lia| |].
    + unfold ref_daysInMonth.
      destruct (m =? 2), (ref_isLeap y),
        ((m =? 4) || (m =? 6) || (m =? 9) || (m =? 11)); lia.
    + pose proof (ref_timegm_fits_long y m d hh mm ss
                    ltac:(lia) Hm ltac:(lia) Hh Hmi Hs). lia.
Qed.

Lemma toEpoch_agrees_with_reference_witness :
  toEpoch 2024 2 29 23 59 59 = ref_timegm 2024 2 29 23 59 59
  /\ ref_gmtime (toEpoch 2038 1 19 3 14 7) = (2038, 1, 19, 3, 14, 7)
  /\ ref_gmtime (toEpoch 2023 12 25 6 30 15) = (2023, 12, 25, 6, 30, 15).
Proof.
  destruct toEpoch_agrees_with_reference as (Hagree & _ & _ & Hall & Hround).
  split; [|split].
  - apply (Hagree 2024 2 29 23 59 59);
      [lia | lia | vm_compute; split; discriminate || reflexivity].
  - apply (Hall 2038 1 19 3 14 7); try lia;
      vm_compute; try split; discriminate || reflexivity.
  - apply (Hround 2023 12 25 6 30 15); [left|..]; lia.
Defined.

(** The reference functions on known dates: day 0 is Thursday 1 January
    1970, and the last Sundays of March and October of 2024 and 2025 are
    the 31st, 27th, 30th and 26th. *)
Example ref_known_dates :
  ref_days_from_civil 1970 1 1 = 0
  /\ ref_civil_from_days 19783 = (2024, 3, 1)
  /\ ref_weekday (ref_days_from_civil 1970 1 1) = 4
  /\ (lastSunday 2024 3, lastSunday 2024 10) = (31, 27)
  /\ (lastSunday 2025 3, lastSunday 2025 10) = (30, 26).
Proof. vm_compute. auto. Qed.

(** The DST decision of a synchronisation looks at the GMT hour: at
    01:30 GMT on 31 March 2024, when Central European clocks already show
    summer time, the clock installed is GMT + 1 h. *)
Example sync_uses_gmt_hour :
  let d := {| f_mday := 31; f_monthStr := "Mar"; f_year := 2024;
              f_hour := 1; f_min := 30; f_sec := 0 |} in
  isDST 2024 3 31 1 = false
  /\ tv_sec (installDate d {| tv_sec := 0; timeIsSynced := false |})
     = ref_timegm 2024 3 31 1 30 0 + 3600.
Proof. vm_compute. auto. Qed.

End ClockFacts.

Module OtaFacts.
Import Ota.

Lemma to_int32_small (z : Z) : - 2 ^ 31 <= z < 2 ^ 31 -> to_int32 z = z.
Proof.
  intros Hz. unfold to_int32, wrap32.
  destruct (Z.ltb_spec (z mod 2 ^ 32) (2 ^ 31)); Z.div_mod_to_equations; lia.
Qed.

(** The byte count computed at a match is the chunk index of the marker's
    first byte, whatever [written] holds. *)
Lemma fileBytesToWrite_value (w i L : Z) :
  - 2 ^ 31 <= i + 1 - L < 2 ^ 31 ->
  to_int32 (wrap32 (wrap32 (w + i + 1) - L) - w) = i + 1 - L.
Proof.
  intros Hr. rewrite <- (to_int32_small (i + 1 - L)) by assumption.
  unfold to_int32.
  assert (wrap32 (wrap32 (wrap32 (w + i + 1) - L) - w) = wrap32 (i + 1 - L)) as ->.
  { unfold wrap32. change (2 ^ 32) with 4294967296.
    Z.div_mod_to_equations; lia. }
  reflexivity.
Qed.

Lemma scanChunk_bounds (marker : list byte) (bs : list byte) :
  forall window i r win',
    (length window <= 128)%nat ->
    scanChunk marker window i bs = (r, win') ->
    (length win' <= 128)%nat /\
    match r with
    | Some k => i <= k < i + Z.of_nat (length bs)
                /\ (length marker <= length win')%nat
    | None => True
    end.
Proof.
  induction bs as [|b rest IH]; intros window i r win' Hw Hscan.
  - cbn in Hscan. injection Hscan as <- <-. auto.
  - cbn [scanChunk] in Hscan.
    set (w1 := if Z.of_nat (length window) =? WIN_SIZE then tail window else window)
      in Hscan.
    assert (length (w1 ++ [b]) <= 128)%nat as Hw1.
    { rewrite length_app; cbn. subst w1. unfold WIN_SIZE.
      destruct (Z.eqb_spec (Z.of_nat (length window)) 128).
      - destruct window; cbn in *; lia.
      - lia. }
    destruct (Z.leb_spec (Z.of_nat (length marker)) (Z.of_nat (length (w1 ++ [b]))));
      cbn [andb] in Hscan.
    + destruct (tailMatches (w1 ++ [b]) marker).
      * injection Hscan as <- <-. split; [assumption|]. cbn [length]. lia.
      * apply IH in Hscan; [|assumption]. destruct Hscan as [? Hr]. split; [assumption|].
        destruct r; [|exact I]. cbn [length]. lia.
    + apply IH in Hscan; [|assumption]. destruct Hscan as [? Hr]. split; [assumption|].
      destruct r; [|exact I]. cbn [length]. lia.
Qed.

(** What one loop iteration writes: the whole chunk when the marker does
    not complete in it, and otherwise the bytes of the chunk that precede
    the marker's first byte (none when the marker began in an earlier
    chunk). *)
Lemma processChunk_step (marker : list byte) (st : Upload) (buf : list byte) :
  (length (window st) <= 128)%nat -> (length buf <= 1024)%nat ->
  let st' := processChunk marker st buf in
  window st' = (scanChunk marker (window st) 0 buf).2 /\
  (length (window st') <= 128)%nat /\
  match (scanChunk marker (window st) 0 buf).1 with
  | None =>
      finished st' = false /\ image (flash st') = image (flash st) ++ buf
  | Some i =>
      finished st' = true /\
      image (flash st') =
        image (flash st)
        ++ take (Z.to_nat (i + 1 - Z.of_nat (length marker))) buf
  end.
Proof.
  intros Hw Hb. cbv zeta. unfold processChunk.
  destruct (scanChunk marker (window st) 0 buf) as [r win] eqn:Hscan.
  destruct (scanChunk_bounds _ _ _ _ _ _ Hw Hscan) as [Hwin Hr].
  cbn [fst snd]. destruct r as [i|].
  - destruct Hr as [Hi HL].
    replace (Z.of_nat (length win)
             - (Z.of_nat (length win) - Z.of_nat (length marker)))
      with (Z.of_nat (length marker)) by lia.
    rewrite fileBytesToWrite_value by lia.
    set (n := i + 1 - Z.of_nat (length marker)).
    destruct (Z.ltb_spec n 0) as [Hneg | Hpos].
    + destruct (Z.gtb_spec 0 (Z.of_nat (length buf))); [lia|].
      cbn. repeat split; try assumption.
      replace (Z.to_nat n) with 0%nat by lia. now rewrite take_0, app_nil_r.
    + destruct (Z.gtb_spec n (Z.of_nat (length buf))); [lia|].
      destruct (Z.gtb_spec n 0); cbn; repeat split; try assumption.
      replace (Z.to_nat n) with 0%nat by lia. now rewrite take_0, app_nil_r.
  - cbn. repeat split; try assumption.
    rewrite Nat2Z.id, take_ge by lia. reflexivity.
Qed.

Lemma processChunk_calls (marker : list byte) (st : Upload) (buf : list byte) :
  Forall call_in_range (calls (flash st)) ->
  Forall call_in_range (calls (flash (processChunk marker st buf))).
Proof.
  intros Hst. unfold processChunk.
  destruct (scanChunk marker (window st) 0 buf) as [[i|] win].
  - set (fb := to_int32 _).
    set (fb0 := if fb <? 0 then 0 else fb).
    set (fb1 := if fb0 >? Z.of_nat (length buf) then Z.of_nat (length buf) else fb0).
    destruct (Z.gtb_spec fb1 0) as [Hpos|Hnp]; cbn; [|assumption].
    apply Forall_app; split; [assumption|]. constructor; [|constructor].
    unfold call_in_range; cbn. subst fb1 fb0.
    destruct (Z.ltb_spec fb 0);
      destruct (Z.gtb_spec 0 (Z.of_nat (length buf)));
      destruct (Z.gtb_spec fb (Z.of_nat (length buf))); lia.
  - cbn. apply Forall_app; split; [assumption|]. constructor; [|constructor].
    unfold call_in_range; cbn. lia.
Qed.

Lemma uploadLoop_calls (marker : list byte) (chunks : list (list byte)) :
  forall st, Forall call_in_range (calls (flash st)) ->
             Forall call_in_range (calls (flash (uploadLoop marker st chunks))).
Proof.
  induction chunks as [|buf rest IH]; intros st Hst; cbn [uploadLoop]; [assumption|].
  destruct (Z.of_nat (length buf) <=? 0); [assumption|].
  pose proof (processChunk_calls marker st buf Hst) as Hstep.
  destruct (finished (processChunk marker st buf)); auto.
Qed.

(** C10: every call of [Update.write] made by the payload loop asks for a
    byte count between 0 and the number of bytes of the current chunk,
    for every marker and every sequence of chunks read. *)
Theorem write_count_within_chunk (marker : list byte)
    (chunks : list (list byte)) :
  Forall call_in_range (calls (flash (uploadLoop marker start chunks))).
Proof. apply uploadLoop_calls. constructor. Qed.

Lemma lastn_push (s : list byte) (b : byte) :
  (if Z.of_nat (length (lastn 128 s)) =? WIN_SIZE
   then tail (lastn 128 s) else lastn 128 s) ++ [b]
  = lastn 128 (s ++ [b]).
Proof.
  unfold lastn, WIN_SIZE. rewrite length_drop, length_app. cbn [length].
  destruct (Z.eqb_spec (Z.of_nat (length s - (length s - 128))) 128) as [He|Hne].
  - assert (128 <= length s)%nat by lia.
    replace (length s + 1 - 128)%nat with (S (length s - 128)) by lia.
    rewrite drop_app_le by lia.
    f_equal. change (tail (drop (length s - 128) s))
      with (drop 1 (drop (length s - 128) s)).
    rewrite drop_drop. f_equal. lia.
  - assert (length s < 128)%nat by lia.
    replace (length s - 128)%nat with 0%nat by lia.
    replace (length s + 1 - 128)%nat with 0%nat by lia.
    reflexivity.
Qed.

Lemma lastn_length (s : list byte) : (length (lastn 128 s) <= 128)%nat.
Proof. unfold lastn. rewrite length_drop. lia. Qed.

(** Without a match the window ends up holding the last 128 bytes
    received, the bytes of the chunk included. *)
Lemma scanChunk_window (marker : list byte) (bs : list byte) :
  forall s i win,
    scanChunk marker (lastn 128 s) i bs = (None, win) ->
    win = lastn 128 (s ++ bs).
Proof.
  induction bs as [|b rest IH]; intros s i win Hscan.
  - cbn in Hscan. injection Hscan as <-. now rewrite app_nil_r.
  - cbn [scanChunk] in Hscan. rewrite lastn_push in Hscan.
    destruct (_ && _) in Hscan; [discriminate|].
    apply IH in Hscan. now rewrite <- app_assoc in Hscan.
Qed.

Lemma bytesMatch_take (marker : list byte) :
  forall w, bytesMatch w marker = true <-> take (length marker) w = marker.
Proof.
  induction marker as [|c m IH]; intros w; cbn [bytesMatch length].
  - rewrite take_0. split; reflexivity.
  - destruct w as [|x w]; cbn [take]; [split; discriminate|].
    destruct (Byte.eqb x c) eqn:E.
    + apply Byte.byte_dec_bl in E. subst. rewrite IH. split; congruence.
    + apply Byte.eqb_false in E. split; [discriminate | congruence].
Qed.

Lemma endsWith_suffix (s marker : list byte) :
  endsWith s marker = true <-> marker `suffix_of` s.
Proof.
  unfold endsWith, tailMatches. rewrite andb_true_iff, Z.leb_le, bytesMatch_take.
  split.
  - intros [HL Ht]. exists (take (length s - length marker) s).
    rewrite take_ge in Ht by (rewrite length_drop; lia).
    rewrite <- (take_drop (length s - length marker) s) at 1.
    now rewrite Ht.
  - intros [k ->]. rewrite length_app. split; [lia|].
    replace (length k + length marker - length marker)%nat with (length k) by lia.
    rewrite drop_app_length. apply take_ge. lia.
Qed.

(** The 128-byte window decides the same test as the whole stream, for a
    marker of at most 128 bytes. *)
Lemma window_suffices (marker s : list byte) :
  (length marker <= 128)%nat ->
  (Z.of_nat (length marker) <=? Z.of_nat (length (lastn 128 s)))
    && tailMatches (lastn 128 s) marker
  = endsWith s marker.
Proof.
  intros HL. unfold endsWith, tailMatches, lastn.
  rewrite length_drop.
  destruct (Z.leb_spec (Z.of_nat (length marker)) (Z.of_nat (length s)));
    destruct (Z.leb_spec (Z.of_nat (length marker))
                (Z.of_nat (length s - (length s - 128)))); try lia;
    cbn [andb]; try reflexivity.
  rewrite drop_drop. do 2 f_equal. lia.
Qed.

(** At a match the bytes received so far end with the marker, and they
    did not at any earlier byte of the chunk. *)
Lemma scanChunk_first_match (marker : list byte) (bs : list byte) :
  (length marker <= 128)%nat ->
  forall s i0 r win,
    scanChunk marker (lastn 128 s) i0 bs = (r, win) ->
    match r with
    | Some i =>
        i0 <= i < i0 + Z.of_nat (length bs) /\
        endsWith (s ++ take (S (Z.to_nat (i - i0))) bs) marker = true /\
        forall j, (j < Z.to_nat (i - i0))%nat ->
                  endsWith (s ++ take (S j) bs) marker = false
    | None =>
        forall j, (j < length bs)%nat ->
                  endsWith (s ++ take (S j) bs) marker = false
    end.
Proof.
  intros HL. induction bs as [|b rest IH]; intros s i0 r win Hscan.
  - cbn in Hscan. injection Hscan as <- <-. cbn. lia.
  - cbn [scanChunk] in Hscan. rewrite lastn_push, window_suffices in Hscan by assumption.
    destruct (endsWith (s ++ [b]) marker) eqn:E.
    + injection Hscan as <- <-. cbn [length].
      replace (Z.to_nat (i0 - i0)) with 0%nat by lia. cbn [take].
      repeat split; [lia | lia | assumption | lia].
    + apply IH in Hscan. destruct r as [i|].
      * destruct Hscan as (Hi & Hend & Hbefore). cbn [length].
        replace (Z.to_nat (i - i0)) with (S (Z.to_nat (i - (i0 + 1)))) by lia.
        repeat split; [lia | lia | | ].
        -- cbn [take]. rewrite <- app_assoc in Hend. exact Hend.
        -- intros [|j] Hj; cbn [take]; [exact E|].
           specialize (Hbefore j ltac:(lia)).
           rewrite <- app_assoc in Hbefore. exact Hbefore.
      * intros [|j] Hj; cbn [take]; [exact E|].
        cbn [length] in Hj. specialize (Hscan j ltac:(lia)).
        rewrite <- app_assoc in Hscan. exact Hscan.
Qed.

Lemma uploadLoop_streaming (marker : list byte) (chunks : list (list byte)) :
  forall st s,
    streaming st s -> Forall chunk_ok chunks ->
    let st' := uploadLoop marker st chunks in
    (finished st' = false -> streaming st' (s ++ concat chunks)) /\
    (finished st' = true ->
       exists pre buf post i,
         chunks = pre ++ buf :: post /\
         (scanChunk marker (lastn 128 (s ++ concat pre)) 0 buf).1 = Some i /\
         image (flash st') =
           (s ++ concat pre)
           ++ take (Z.to_nat (i + 1 - Z.of_nat (length marker))) buf).
Proof.
  induction chunks as [|buf rest IH]; intros st s Hst Hok; cbn [uploadLoop].
  - cbv zeta. cbn [concat]. rewrite app_nil_r. split; [auto|].
    destruct Hst as [Hf _]. congruence.
  - inversion Hok as [|? ? [Hpos Hlen] Hrest]; subst.
    destruct (Z.leb_spec (Z.of_nat (length buf)) 0); [lia|].
    destruct Hst as (Hf & Himg & Hwin & Hwr).
    assert (length (window st) <= 128)%nat as Hw
      by (rewrite Hwin; apply lastn_length).
    destruct (processChunk_step marker st buf Hw Hlen) as (Hw' & _ & Hstep).
    destruct (scanChunk marker (window st) 0 buf) as [r win] eqn:Hscan.
    cbn [fst snd] in *. destruct r as [i|].
    + destruct Hstep as [Hfin Himg']. rewrite Hfin. cbv zeta.
      split; [congruence|]. intros _.
      exists [], buf, rest, i. cbn [concat app]. rewrite app_nil_r.
      rewrite <- Hwin, Hscan. cbn [fst]. rewrite Himg', Himg. auto.
    + destruct Hstep as [Hfin Himg']. rewrite Hfin.
      assert (streaming (processChunk marker st buf) (s ++ buf)) as Hst'.
      { repeat split; try assumption.
        - now rewrite Himg', Himg.
        - rewrite Hw'. rewrite Hwin in Hscan.
          now apply scanChunk_window in Hscan.
        - unfold processChunk. rewrite Hscan. cbn. rewrite Hwr.
          unfold wrap32. rewrite Zplus_mod_idemp_l, length_app.
          f_equal. lia. }
      destruct (IH _ _ Hst' Hrest) as [IH1 IH2]. cbv zeta. split.
      * intros Hnf. specialize (IH1 Hnf). cbn [concat].
        now rewrite app_assoc.
      * intros Hfn. destruct (IH2 Hfn) as (pre & buf' & post & i & -> & Hs & Hi).
        exists (buf :: pre), buf', post, i. cbn [concat app].
        rewrite !app_assoc in *. auto.
Qed.

Lemma start_streaming : streaming start [].
Proof. repeat split. Qed.

Lemma noMatchIn_nil (marker : list byte) :
  (0 < length marker)%nat -> noMatchIn marker [].
Proof.
  intros HL k Hk. cbn [length] in Hk. replace k with 0%nat by lia.
  cbn [take]. unfold endsWith.
  destruct (Z.leb_spec (Z.of_nat (length marker)) (Z.of_nat (length (@nil byte))));
    [cbn [length] in *; lia | reflexivity].
Qed.

Lemma noMatchIn_app (marker s bs : list byte) :
  noMatchIn marker s ->
  (forall j, (j < length bs)%nat ->
             endsWith (s ++ take (S j) bs) marker = false) ->
  noMatchIn marker (s ++ bs).
Proof.
  intros Hs Hbs k Hk. rewrite length_app in Hk.
  destruct (decide (k <= length s)%nat) as [Hle|Hgt].
  - rewrite take_app_le by assumption. now apply Hs.
  - replace k with (length s + S (k - length s - 1))%nat by lia.
    rewrite take_app_add. apply Hbs. lia.
Qed.

(** The loop stops in the chunk in which the bytes received first end with
    the marker. *)
Lemma uploadLoop_first_match (marker : list byte) (chunks : list (list byte)) :
  (length marker <= 128)%nat ->
  forall st s,
    streaming st s -> noMatchIn marker s -> Forall chunk_ok chunks ->
    finished (uploadLoop marker st chunks) = true ->
    exists pre buf post i,
      chunks = pre ++ buf :: post /\ (i < length buf)%nat /\
      noMatchIn marker (s ++ concat pre) /\
      endsWith ((s ++ concat pre) ++ take (S i) buf) marker = true /\
      (forall j, (j < i)%nat ->
                 endsWith ((s ++ concat pre) ++ take (S j) buf) marker = false) /\
      image (flash (uploadLoop marker st chunks)) =
        (s ++ concat pre) ++ take (S i - length marker) buf.
Proof.
  intros HL.
  induction chunks as [|buf rest IH]; intros st s Hst Hno Hok; cbn [uploadLoop].
  - destruct Hst as [Hf _]. congruence.
  - inversion Hok as [|? ? [Hpos Hlen] Hrest]; subst.
    destruct (Z.leb_spec (Z.of_nat (length buf)) 0); [lia|].
    destruct Hst as (Hf & Himg & Hwin & Hwr).
    assert (length (window st) <= 128)%nat as Hw
      by (rewrite Hwin; apply lastn_length).
    destruct (processChunk_step marker st buf Hw Hlen) as (Hw' & _ & Hstep).
    destruct (scanChunk marker (window st) 0 buf) as [r win] eqn:Hscan.
    rewrite Hwin in Hscan.
    pose proof (scanChunk_first_match marker buf HL _ _ _ _ Hscan) as Hfirst.
    cbn [fst snd] in *. destruct r as [i|].
    + destruct Hstep as [Hfin Himg']. rewrite Hfin. intros _.
      destruct Hfirst as (Hi & Hend & Hbefore).
      replace (i - 0) with i in * by lia.
      exists [], buf, rest, (Z.to_nat i). cbn [concat app]. rewrite app_nil_r.
      repeat split; try assumption; [lia|].
      rewrite Himg', Himg. do 2 f_equal. lia.
    + destruct Hstep as [Hfin Himg']. rewrite Hfin.
      assert (streaming (processChunk marker st buf) (s ++ buf)) as Hst'.
      { repeat split; try assumption.
        - now rewrite Himg', Himg.
        - rewrite Hw'. now apply scanChunk_window in Hscan.
        - unfold processChunk. rewrite Hwin, Hscan. cbn. rewrite Hwr.
          unfold wrap32. rewrite Zplus_mod_idemp_l, length_app.
          f_equal. lia. }
      intros Hfn.
      destruct (IH _ _ Hst' (noMatchIn_app _ _ _ Hno Hfirst) Hrest Hfn)
        as (pre & buf' & post & i & -> & Hi & Hpre & Hend & Hbefore & Hi').
      exists (buf :: pre), buf', post, i. cbn [concat app].
      rewrite !app_assoc in *. auto 10.
Qed.

Lemma bytesMatch_app (marker rest : list byte) :
  bytesMatch (marker ++ rest) marker = true.
Proof. apply bytesMatch_take. now rewrite take_app_length. Qed.

Lemma endsWith_cons (b : byte) (s marker : list byte) :
  endsWith (b :: s) marker = false -> endsWith s marker = false.
Proof.
  intros H. apply not_true_is_false. intros E.
  apply endsWith_suffix in E. destruct E as [k ->].
  assert (endsWith (b :: k ++ marker) marker = true) as E'
    by (apply endsWith_suffix; now exists (b :: k)).
  congruence.
Qed.

(** The reference extractor returns what precedes the first place at
    which the body ends with the marker. *)
Lemma ref_extract_first (marker : list byte) (p : list byte) :
  forall rest,
    (forall k, (k < length p + length marker)%nat ->
               endsWith (take k (p ++ marker ++ rest)) marker = false) ->
    ref_extract marker (p ++ marker ++ rest) = Some p.
Proof.
  induction p as [|b p IH]; intros rest Hno.
  - cbn [app]. destruct (marker ++ rest) eqn:E; cbn [ref_extract];
      rewrite <- ?E, bytesMatch_app; reflexivity.
  - cbn [app ref_extract].
    destruct (bytesMatch (b :: p ++ marker ++ rest) marker) eqn:E.
    + exfalso. apply bytesMatch_take in E.
      specialize (Hno (length marker) ltac:(cbn [length]; lia)).
      cbn [app] in Hno. rewrite E in Hno.
      assert (endsWith marker marker = true) as E'
        by (apply endsWith_suffix; now exists []).
      congruence.
    + rewrite IH; [reflexivity|]. intros k Hk.
      specialize (Hno (S k) ltac:(cbn [length]; lia)).
      cbn [app take] in Hno. now apply endsWith_cons in Hno.
Qed.

(** The extractor against the reference, on every upload in which the
    marker is found: they agree when the marker lies inside the chunk in
    which it completes; when its first bytes came with earlier chunks the
    extractor has written them too. *)
Lemma upload_vs_reference (marker : list byte) (chunks : list (list byte)) :
  (0 < length marker <= 128)%nat -> Forall chunk_ok chunks ->
  finished (uploadLoop marker start chunks) = true ->
  exists payload pre buf post i,
    chunks = pre ++ buf :: post /\ (i < length buf)%nat /\
    ref_extract marker (concat chunks) = Some payload /\
    concat pre ++ take (S i) buf = payload ++ marker /\
    ((length marker <= S i)%nat ->
       image (flash (uploadLoop marker start chunks)) = payload) /\
    ((S i < length marker)%nat ->
       image (flash (uploadLoop marker start chunks)) =
         payload ++ take (length marker - S i) marker).
Proof.
  intros [HL0 HL] Hok Hfin.
  pose proof (noMatchIn_nil marker HL0) as Hno0.
  destruct (uploadLoop_first_match marker chunks HL start [] start_streaming
              Hno0 Hok Hfin)
    as (pre & buf & post & i & Hch & Hi & Hpre & Hend & Hbefore & Himg).
  cbn [app] in *.
  destruct (proj1 (endsWith_suffix _ _) Hend) as [payload Hsplit].
  exists payload, pre, buf, post, i.
  assert (length (concat pre) + S i = length payload + length marker)%nat as Hlen.
  { rewrite <- !length_app, <- Hsplit, length_app, length_take. lia. }
  repeat split; try assumption.
  - rewrite Hch, concat_app. cbn [concat].
    rewrite <- (take_drop (S i) buf) at 1.
    rewrite <- (app_assoc (take (S i) buf)), (app_assoc (concat pre)), Hsplit.
    rewrite <- app_assoc. apply ref_extract_first.
    intros k Hk. rewrite (app_assoc payload), <- Hsplit.
    destruct (decide (k <= length (concat pre))%nat) as [Hle|Hgt].
    + rewrite <- app_assoc, take_app_le by assumption. now apply Hpre.
    + replace k with (length (concat pre) + S (k - length (concat pre) - 1))%nat
        by lia.
      rewrite <- app_assoc, take_app_add.
      rewrite take_app_le by (rewrite length_take; lia).
      rewrite take_take, Nat.min_l by lia. apply Hbefore. lia.
  - intros Hin. rewrite Himg.
    apply (f_equal (take (length payload))) in Hsplit.
    rewrite take_app_length in Hsplit. rewrite <- Hsplit.
    replace (length payload) with (length (concat pre) + (S i - length marker))%nat
      by lia.
    rewrite take_app_add, take_take. do 2 f_equal. lia.
  - intros Hout. rewrite Himg.
    replace (S i - length marker)%nat with 0%nat by lia. rewrite take_0, app_nil_r.
    apply (f_equal (take (length (concat pre)))) in Hsplit.
    rewrite take_app_length in Hsplit. rewrite Hsplit.
    replace (length (concat pre)) with (length payload + (length marker - S i))%nat
      by lia.
    now rewrite take_app_add.
Qed.

(** While the loop has not stopped, no prefix of the bytes received ends
    with the marker: the scan misses no occurrence. *)
Lemma uploadLoop_no_match (marker : list byte) (chunks : list (list byte)) :
  (length marker <= 128)%nat ->
  forall st s,
    streaming st s -> noMatchIn marker s -> Forall chunk_ok chunks ->
    finished (uploadLoop marker st chunks) = false ->
    noMatchIn marker (s ++ concat chunks).
Proof.
  intros HL.
  induction chunks as [|buf rest IH]; intros st s Hst Hno Hok; cbn [uploadLoop].
  - intros _. cbn [concat]. now rewrite app_nil_r.
  - inversion Hok as [|? ? [Hpos Hlen] Hrest]; subst.
    destruct (Z.leb_spec (Z.of_nat (length buf)) 0); [lia|].
    destruct Hst as (Hf & Himg & Hwin & Hwr).
    assert (length (window st) <= 128)%nat as Hw
      by (rewrite Hwin; apply lastn_length).
    destruct (processChunk_step marker st buf Hw Hlen) as (Hw' & _ & Hstep).
    destruct (scanChunk marker (window st) 0 buf) as [r win] eqn:Hscan.
    rewrite Hwin in Hscan.
    pose proof (scanChunk_first_match marker buf HL _ _ _ _ Hscan) as Hfirst.
    cbn [fst snd] in *. destruct r as [i|].
    + destruct Hstep as [Hfin Himg']. rewrite Hfin. congruence.
    + destruct Hstep as [Hfin Himg']. rewrite Hfin.
      assert (streaming (processChunk marker st buf) (s ++ buf)) as Hst'.
      { repeat split; try assumption.
        - now rewrite Himg', Himg.
        - rewrite Hw'. now apply scanChunk_window in Hscan.
        - unfold processChunk. rewrite Hwin, Hscan. cbn. rewrite Hwr.
          unfold wrap32. rewrite Zplus_mod_idemp_l, length_app.
          f_equal. lia. }
      intros Hnf. cbn [concat]. rewrite app_assoc.
      exact (IH _ _ Hst' (noMatchIn_app _ _ _ Hno Hfirst) Hrest Hnf).
Qed.

(** C2, as amended: the window detects the marker and holds nothing back.
    On a stream in which the marker first occurs behind [payload]: after
    chunks that end before the marker begins, every byte received has
    been passed to [Update.write] although the last 128 of them are still
    in the window; the marker is detected, in the chunk in which the
    bytes received first end with it, and by then every byte of the
    payload has been written; and when the whole marker lies in that
    chunk, what has been written is the payload and nothing else, as the
    reference extractor gives it. *)
Theorem window_holds_nothing_back (marker payload rest : list byte) :
  (0 < length marker <= 128)%nat ->
  (forall k, (k < length payload + length marker)%nat ->
             endsWith (take k (payload ++ marker ++ rest)) marker = false) ->
  ref_extract marker (payload ++ marker ++ rest) = Some payload
  /\ (forall chunks,
        Forall chunk_ok chunks -> concat chunks `prefix_of` payload ->
        let st := uploadLoop marker start chunks in
        finished st = false /\
        image (flash st) = concat chunks /\
        window st = lastn 128 (concat chunks))
  /\ (forall chunks,
        Forall chunk_ok chunks -> concat chunks = payload ++ marker ++ rest ->
        let st := uploadLoop marker start chunks in
        finished st = true /\
        payload `prefix_of` image (flash st) /\
        exists pre buf post i,
          chunks = pre ++ buf :: post /\ (i < length buf)%nat /\
          concat pre ++ take (S i) buf = payload ++ marker /\
          ((length marker <= S i)%nat -> image (flash st) = payload)).
Proof.
  intros HL Hfirst.
  assert (ref_extract marker (payload ++ marker ++ rest) = Some payload) as Href
    by now apply ref_extract_first.
  split; [exact Href|]. split.
  - intros chunks Hok [tl Hpre]. cbv zeta.
    destruct (finished (uploadLoop marker start chunks)) eqn:Hfin.
    + exfalso.
      destruct (upload_vs_reference marker chunks HL Hok Hfin)
        as (p & pre & buf & post & i & Hch & Hi & _ & Hsplit & _).
      assert (concat chunks = (p ++ marker) ++ drop (S i) buf ++ concat post)
        as Hcat.
      { rewrite Hch, concat_app. cbn [concat].
        rewrite <- Hsplit, <- !app_assoc. f_equal.
        rewrite app_assoc. now rewrite take_drop. }
      assert (length p + length marker <= length payload)%nat as Hlen.
      { rewrite Hpre, Hcat, !length_app. lia. }
      specialize (Hfirst (length p + length marker)%nat ltac:(lia)).
      rewrite Hpre, Hcat, <- !app_assoc in Hfirst.
      rewrite (app_assoc p marker), <- length_app, take_app_length in Hfirst.
      assert (endsWith (p ++ marker) marker = true) as E
        by (apply endsWith_suffix; now exists p).
      congruence.
    + destruct (uploadLoop_streaming marker chunks start [] start_streaming Hok)
        as [Hrun _].
      destruct (Hrun Hfin) as (_ & Himg & Hwin & _). auto.
  - intros chunks Hok Hcat. cbv zeta.
    assert (finished (uploadLoop marker start chunks) = true) as Hfin.
    { apply not_false_iff_true. intros Hnf.
      pose proof (uploadLoop_no_match marker chunks (proj2 HL) start []
                    start_streaming (noMatchIn_nil marker (proj1 HL)) Hok Hnf)
        as Hno.
      cbn [app] in Hno. rewrite Hcat in Hno.
      specialize (Hno (length payload + length marker)%nat
                    ltac:(rewrite !length_app; lia)).
      rewrite app_assoc, <- length_app, take_app_length in Hno.
      assert (endsWith (payload ++ marker) marker = true) as E
        by (apply endsWith_suffix; now exists payload).
      congruence. }
    split; [exact Hfin|].
    destruct (upload_vs_reference marker chunks HL Hok Hfin)
      as (p & pre & buf & post & i & Hch & Hi & Hp & Hsplit & Hin & Hout).
    rewrite Hcat, Href in Hp. injection Hp as <-.
    split.
    + destruct (decide (length marker <= S i)%nat) as [Hle|Hgt].
      * rewrite (Hin Hle). exists []. now rewrite app_nil_r.
      * rewrite (Hout ltac:(lia)). eexists. reflexivity.
    + exists pre, buf, post, i. auto 6.
Qed.

Lemma window_holds_nothing_back_witness :
  let st := uploadLoop marker_B start
              [[x41; x41]; [x41; x0d; x0a; x2d; x2d; x42; x2d]] in
  ref_extract marker_B ([x41; x41; x41] ++ marker_B ++ [x2d])
  = Some [x41; x41; x41]
  /\ finished st = true
  /\ [x41; x41; x41] `prefix_of` image (flash st).
Proof.
  cbv zeta.
  destruct (window_holds_nothing_back marker_B [x41; x41; x41] [x2d])
    as (Href & _ & Hrun).
  - vm_compute. lia.
  - intros k Hk. unfold marker_B in Hk. cbn [length] in Hk.
    do 8 (destruct k as [|k]; [vm_compute; reflexivity|]). lia.
  - destruct (Hrun [[x41; x41]; [x41; x0d; x0a; x2d; x2d; x42; x2d]])
      as (Hfin & Hpre & _).
    + repeat constructor; vm_compute; lia.
    + reflexivity.
    + exact (conj Href (conj Hfin Hpre)).
Defined.

(** C2 fails as stated: three payload bytes are passed to [Update.write]
    with the chunk that brings them, while all three are still in the
    window. *)
Lemma window_bytes_written_early :
  let st := uploadLoop marker_B start [[x41; x41; x41]] in
  image (flash st) = [x41; x41; x41]
  /\ window st = [x41; x41; x41]
  /\ ~ window_bytes_unwritten marker_B [[x41; x41; x41]].
Proof.
  cbv zeta. split; [reflexivity|]. split; [reflexivity|].
  unfold window_bytes_unwritten. vm_compute. lia.
Qed.

(** C1 on a body whose closing marker straddles the first 1024-byte chunk
    boundary: the marker is detected, but the 1024 bytes written are the
    1022 payload bytes followed by the first two bytes of the marker,
    where the reference extractor yields the 1022 payload bytes. *)
Theorem split_marker_overcount :
  let st := upload marker_B body_split in
  finished st = true /\
  image (flash st) = payload_1022 ++ take 2 marker_B /\
  written st = 1024 /\
  ref_extract marker_B body_split = Some payload_1022 /\
  length payload_1022 = 1022%nat.
Proof. vm_compute. auto 6. Qed.

End OtaFacts.

Module StoreFacts.
Import Store.

Lemma find_seq_Some (P : nat -> bool) (n : nat) :
  forall start i,
    find P (seq start n) = Some i <->
    (start <= i < start + n)%nat /\ P i = true /\
    forall j, (start <= j < i)%nat -> P j = false.
Proof.
  induction n as [|n IH]; intros start i; cbn [seq find].
  - split; [discriminate | lia].
  - destruct (P start) eqn:E.
    + split.
      * intros [= <-]. repeat split; [lia | lia | assumption | lia].
      * intros (Hr & HP & Hlow).
        destruct (decide (i = start)) as [->|Hne]; [reflexivity|].
        rewrite (Hlow start) in E by lia. discriminate.
    + rewrite IH. split.
      * intros (Hr & HP & Hlow). repeat split; [lia | lia | assumption |].
        intros j Hj. destruct (decide (j = start)) as [->|]; [assumption|].
        apply Hlow. lia.
      * intros (Hr & HP & Hlow).
        assert (i <> start) by congruence.
        repeat split; [lia | lia | assumption |]. intros j Hj. apply Hlow. lia.
Qed.

Lemma find_seq_None (P : nat -> bool) (n : nat) :
  forall start,
    find P (seq start n) = None <->
    forall j, (start <= j < start + n)%nat -> P j = false.
Proof.
  induction n as [|n IH]; intros start; cbn [seq find].
  - split; [lia | reflexivity].
  - destruct (P start) eqn:E.
    + split; [discriminate|]. intros H. rewrite H in E by lia. discriminate.
    + rewrite IH. split; intros H j Hj.
      * destruct (decide (j = start)) as [->|]; [assumption|]. apply H. lia.
      * apply H. lia.
Qed.

Lemma keyName_inj (i j : nat) : keyName i = keyName j -> i = j.
Proof.
  unfold keyName. intros H. apply (inj (String.app "k")) in H.
  now apply (inj pretty) in H.
Qed.

Lemma c_str_idem (s : string) : c_str (c_str s) = c_str s.
Proof.
  induction s as [|c s IH]; [reflexivity|]. cbn [c_str].
  destruct (Ascii.eqb c "000") eqn:E; [reflexivity|].
  cbn [c_str]. now rewrite E, IH.
Qed.

Lemma c_str_length (s : string) :
  (String.length (c_str s) <= String.length s)%nat.
Proof.
  induction s as [|c s IH]; [reflexivity|]. cbn [c_str].
  destruct (Ascii.eqb c "000"); cbn [String.length]; lia.
Qed.

Lemma keyName_nonempty (i : nat) : String.length (keyName i) <> 0%nat.
Proof. unfold keyName. change ("k" +:+ pretty i) with (String "k" (pretty i)). discriminate. Qed.

Lemma isKey_true (prefs : Prefs) (k : string) :
  isKey prefs k = true <-> is_Some (prefs !! k).
Proof. unfold isKey. apply bool_decide_eq_true. Qed.

Lemma isKey_false (prefs : Prefs) (k : string) :
  isKey prefs k = false <-> prefs !! k = None.
Proof.
  unfold isKey. rewrite bool_decide_eq_false, eq_None_not_Some. reflexivity.
Qed.

Lemma freeIndex_Some (prefs : Prefs) (i : nat) :
  freeIndex prefs = Some i <->
  (i < MAX_KEYS)%nat /\ prefs !! keyName i = None /\
  forall j, (j < i)%nat -> is_Some (prefs !! keyName j).
Proof.
  unfold freeIndex. rewrite find_seq_Some.
  rewrite negb_true_iff, isKey_false. split.
  - intros (Hr & Hi & Hlow). repeat split; [lia | assumption |].
    intros j Hj. apply isKey_true. specialize (Hlow j ltac:(lia)).
    now apply negb_false_iff in Hlow.
  - intros (Hr & Hi & Hlow). repeat split; [lia | lia | assumption |].
    intros j Hj. apply negb_false_iff, isKey_true, Hlow. lia.
Qed.

Lemma freeIndex_None (prefs : Prefs) :
  freeIndex prefs = None <->
  forall j, (j < MAX_KEYS)%nat -> is_Some (prefs !! keyName j).
Proof.
  unfold freeIndex. rewrite find_seq_None. split; intros H j Hj.
  - apply isKey_true, negb_false_iff, H. lia.
  - apply negb_false_iff, isKey_true, H. lia.
Qed.

Lemma handleAPIInsert_valid (value : string) (prefs : Prefs) :
  validValue value ->
  handleAPIInsert value prefs =
    match freeIndex prefs with
    | None => (reply 400 "Maximum keys reached (100/100)", prefs)
    | Some i => (replyKey 200 "Value inserted" (keyName i),
                 <[keyName i := c_str value]> prefs)
    end.
Proof.
  intros [Hpos Hlen]. unfold handleAPIInsert.
  destruct (Nat.eqb_spec (String.length value) 0); [lia|].
  destruct (Nat.ltb_spec MAX_VALUE_LENGTH (String.length value)); [lia|].
  reflexivity.
Qed.

Lemma handleAPIAddKey_valid (value : string) (prefs : Prefs) :
  validValue value ->
  handleAPIAddKey value prefs =
    match freeIndex prefs with
    | None => (reply 400 "Maximum keys reached (100/100)", prefs)
    | Some i => (replyKey 200 "Key saved" (keyName i),
                 <[keyName i := c_str value]> prefs)
    end.
Proof.
  intros [Hpos Hlen]. unfold handleAPIAddKey.
  destruct (Nat.eqb_spec (String.length value) 0); [lia|].
  destruct (Nat.ltb_spec MAX_VALUE_LENGTH (String.length value)); [lia|].
  reflexivity.
Qed.

Lemma filled_freeIndex (values : list string) (prefs : Prefs) :
  filled values prefs ->
  freeIndex prefs =
    if (length values <? MAX_KEYS)%nat then Some (length values) else None.
Proof.
  intros Hf. destruct (Nat.ltb_spec (length values) MAX_KEYS).
  - apply freeIndex_Some. repeat split; [assumption | |].
    + rewrite Hf. apply lookup_ge_None. lia.
    + intros j Hj. rewrite Hf. now apply lookup_lt_is_Some.
  - apply freeIndex_None. intros j Hj. rewrite Hf.
    apply lookup_lt_is_Some. lia.
Qed.

Lemma filled_insert (values : list string) (prefs : Prefs) (v : string) :
  filled values prefs ->
  filled (values ++ [v]) (<[keyName (length values) := v]> prefs).
Proof.
  intros Hf i. destruct (decide (i = length values)) as [->|Hne].
  - rewrite lookup_insert_eq. symmetry. apply list_lookup_middle. reflexivity.
  - rewrite lookup_insert_ne by (intros E; apply keyName_inj in E; congruence).
    rewrite Hf. destruct (decide (i < length values)%nat).
    + now rewrite lookup_app_l.
    + rewrite !lookup_ge_None_2; [reflexivity | rewrite length_app; cbn; lia | lia].
Qed.

Lemma insertAll_filled (values : list string) :
  forall done prefs,
    filled done prefs -> (length done + length values <= MAX_KEYS)%nat ->
    Forall validValue values ->
    (insertAll values prefs).1 =
      map (fun i => replyKey 200 "Value inserted" (keyName i))
          (seq (length done) (length values)) /\
    filled (done ++ map c_str values) (insertAll values prefs).2.
Proof.
  induction values as [|v rest IH]; intros done prefs Hf Hlen Hval.
  - cbn. rewrite app_nil_r. auto.
  - inversion Hval as [|? ? Hv Hrest]; subst. cbn [insertAll length map] in *.
    rewrite handleAPIInsert_valid, (filled_freeIndex done) by assumption.
    destruct (Nat.ltb_spec (length done) MAX_KEYS); [|lia].
    specialize (IH (done ++ [c_str v]) _ (filled_insert _ _ (c_str v) Hf)).
    rewrite length_app in IH. cbn [length] in IH.
    destruct (insertAll rest _) as [rs prefs''] eqn:E. cbn [fst snd] in *.
    destruct IH as [IH1 IH2]; [lia | assumption |].
    rewrite <- app_assoc in IH2. cbn [seq map]. split; [|assumption].
    f_equal. rewrite IH1. f_equal. f_equal. lia.
Qed.

(** C6: an add of a valid value is stored, as the C string the NVS
    keeps of it, under the lowest unoccupied
    index below 100, by either add handler; from the empty store 100 adds
    of valid values are answered with the keys [k0] to [k99] in order, and
    a further add is answered with the capacity error and leaves the store
    as it is; and once the slots up to [k3] are occupied, deleting [k3]
    makes the next add assign [k3] again. *)
Theorem add_assigns_lowest_free_index :
  (forall (prefs : Prefs) value i,
      validValue value -> (i < MAX_KEYS)%nat ->
      prefs !! keyName i = None ->
      (forall j, (j < i)%nat -> is_Some (prefs !! keyName j)) ->
      handleAPIInsert value prefs =
        (replyKey 200 "Value inserted" (keyName i),
         <[keyName i := c_str value]> prefs)
      /\ handleAPIAddKey value prefs =
        (replyKey 200 "Key saved" (keyName i),
         <[keyName i := c_str value]> prefs))
  /\ (forall values extra,
        length values = MAX_KEYS -> Forall validValue values ->
        validValue extra ->
        let '(replies, prefs) := insertAll values ∅ in
        replies = map (fun i => replyKey 200 "Value inserted" (keyName i))
                      (seq 0 MAX_KEYS)
        /\ handleAPIInsert extra prefs =
             (reply 400 "Maximum keys reached (100/100)", prefs)
        /\ handleAPIAddKey extra prefs =
             (reply 400 "Maximum keys reached (100/100)", prefs))
  /\ (forall (prefs : Prefs) value,
        validValue value ->
        (forall j, (j <= 3)%nat -> is_Some (prefs !! keyName j)) ->
        keyName 3 = "k3" /\
        handleAPIDeleteKey "k3" prefs = (reply 200 "Key deleted", delete "k3" prefs)
        /\ handleAPIInsert value (delete "k3" prefs) =
             (replyKey 200 "Value inserted" "k3",
              <["k3" := c_str value]> (delete "k3" prefs))).
Proof.
  split; [|split].
  - intros prefs value i Hv Hi Hfree Hlow.
    assert (freeIndex prefs = Some i) as Hidx by (apply freeIndex_Some; auto).
    rewrite handleAPIInsert_valid, handleAPIAddKey_valid, Hidx by assumption.
    auto.
  - intros values extra Hlen Hval Hextra.
    assert (filled [] (∅ : Prefs)) as H0 by (intros i; apply lookup_empty).
    destruct (insertAll_filled values [] ∅ H0) as [Hr Hf];
      [cbn; lia | assumption |].
    destruct (insertAll values ∅) as [replies prefs]. cbn [fst snd app length] in *.
    rewrite Hlen in Hr.
    rewrite handleAPIInsert_valid, handleAPIAddKey_valid by assumption.
    rewrite (filled_freeIndex (map c_str values) prefs Hf), length_map, Hlen.
    rewrite Nat.ltb_irrefl. auto.
  - intros prefs value Hv Hocc.
    assert (keyName 3 = "k3") as Hk by reflexivity.
    split; [exact Hk|]. rewrite <- Hk. split.
    + unfold handleAPIDeleteKey, remove.
      change (c_str (keyName 3)) with (keyName 3).
      rewrite (proj2 (isKey_true prefs (keyName 3))) by (apply Hocc; lia).
      reflexivity.
    + rewrite handleAPIInsert_valid by assumption.
      assert (freeIndex (delete (keyName 3) prefs) = Some 3%nat) as ->; [|reflexivity].
      apply freeIndex_Some. repeat split.
      * unfold MAX_KEYS. lia.
      * apply lookup_delete_eq.
      * intros j Hj. rewrite lookup_delete_ne.
        -- apply Hocc. lia.
        -- intros E. apply keyName_inj in E. lia.
Qed.

Lemma add_assigns_lowest_free_index_witness :
  handleAPIInsert "table-5" (<[keyName 0 := "a"]> (<[keyName 2 := "c"]> ∅)) =
    (replyKey 200 "Value inserted" (keyName 1),
     <[keyName 1 := "table-5"]> (<[keyName 0 := "a"]> (<[keyName 2 := "c"]> ∅))).
Proof.
  refine (proj1 (proj1 add_assigns_lowest_free_index
                   (<[keyName 0 := "a"]> (<[keyName 2 := "c"]> ∅))
                   "table-5" 1%nat _ _ _ _)).
  - unfold validValue, MAX_VALUE_LENGTH. cbn. lia.
  - unfold MAX_KEYS. lia.
  - vm_compute. reflexivity.
  - intros j Hj. assert (j = 0%nat) as -> by lia. vm_compute. eauto.
Defined.

Lemma findValue_Some (prefs : Prefs) (v : string) (i : nat) :
  (i < MAX_KEYS)%nat -> prefs !! keyName i = Some v ->
  (forall j, (j < i)%nat -> prefs !! keyName j <> Some v) ->
  findValue v prefs = keyName i.
Proof.
  intros Hi Hv Hlow. unfold findValue.
  assert (find (fun i => isKey prefs (keyName i)
                         && String.eqb (getString prefs (keyName i) "") v)
               (seq 0 MAX_KEYS) = Some i) as ->; [|reflexivity].
  apply find_seq_Some. repeat split; [lia | lia | |].
  - unfold getString. rewrite (proj2 (isKey_true _ _)), Hv by (rewrite Hv; eauto).
    cbn. apply String.eqb_refl.
  - intros j Hj. specialize (Hlow j ltac:(lia)).
    unfold isKey, getString. destruct (prefs !! keyName j) as [u|] eqn:E.
    + rewrite bool_decide_eq_true_2 by eauto. cbn.
      apply String.eqb_neq. congruence.
    + rewrite bool_decide_eq_false_2; [reflexivity|]. intros [? ?]. discriminate.
Qed.

Lemma findValue_None (prefs : Prefs) (v : string) :
  (forall i, (i < MAX_KEYS)%nat -> prefs !! keyName i <> Some v) ->
  findValue v prefs = "".
Proof.
  intros Hno. unfold findValue.
  assert (find (fun i => isKey prefs (keyName i)
                         && String.eqb (getString prefs (keyName i) "") v)
               (seq 0 MAX_KEYS) = None) as ->; [|reflexivity].
  apply find_seq_None. intros j Hj. specialize (Hno j ltac:(lia)).
  unfold isKey, getString. destruct (prefs !! keyName j) as [u|] eqn:E.
  - rewrite bool_decide_eq_true_2 by eauto. cbn.
    apply String.eqb_neq. congruence.
  - rewrite bool_decide_eq_false_2; [reflexivity|]. intros [? ?]. discriminate.
Qed.

(** C9: for a non-empty search value, remove-by-value deletes the occupied
    slot of lowest index that holds the value and answers with its key,
    every other slot keeping its content, slots of higher index that hold
    the same value included; when no occupied slot holds the value the
    store is unchanged and the answer is 404, value not found. *)
Theorem remove_by_value_first_match (prefs : Prefs) (v : string) :
  v <> "" ->
  (forall i,
      (i < MAX_KEYS)%nat -> prefs !! keyName i = Some v ->
      (forall j, (j < i)%nat -> prefs !! keyName j <> Some v) ->
      let '(r, prefs') := handleAPIRemove v prefs in
      r = replyKey 200 "Value removed" (keyName i) /\
      prefs' = delete (keyName i) prefs /\
      prefs' !! keyName i = None /\
      (forall k, k <> keyName i -> prefs' !! k = prefs !! k))
  /\ ((forall i, (i < MAX_KEYS)%nat -> prefs !! keyName i <> Some v) ->
      handleAPIRemove v prefs = (reply 404 "Value not found in storage", prefs)).
Proof.
  intros Hne.
  assert ((String.length v =? 0)%nat = false) as Hlen
    by (destruct v; [congruence | reflexivity]).
  split.
  - intros i Hi Hv Hlow. unfold handleAPIRemove. rewrite Hlen.
    rewrite (findValue_Some prefs v i) by assumption.
    destruct (Nat.eqb_spec (String.length (keyName i)) 0) as [E|_];
      [now apply keyName_nonempty in E|].
    unfold remove. repeat split.
    + apply lookup_delete_eq.
    + intros k Hk. now apply lookup_delete_ne.
  - intros Hno. unfold handleAPIRemove. rewrite Hlen.
    now rewrite (findValue_None prefs v Hno).
Qed.

Lemma remove_by_value_first_match_witness :
  let prefs : Prefs :=
    <[keyName 0 := "a"]> (<[keyName 1 := "b"]> (<[keyName 4 := "b"]> ∅)) in
  handleAPIRemove "b" prefs =
    (replyKey 200 "Value removed" (keyName 1), delete (keyName 1) prefs)
  /\ delete (keyName 1) prefs !! keyName 4 = Some "b".
Proof.
  cbv zeta.
  pose proof (proj1 (remove_by_value_first_match
    (<[keyName 0 := "a"]> (<[keyName 1 := "b"]> (<[keyName 4 := "b"]> ∅)))
    "b" ltac:(discriminate)) 1%nat) as H.
  destruct (handleAPIRemove _ _) as [r prefs'].
  destruct H as (-> & -> & _ & Hother).
  - unfold MAX_KEYS. lia.
  - vm_compute. reflexivity.
  - intros j Hj. assert (j = 0%nat) as -> by lia. vm_compute. discriminate.
  - split; [reflexivity|]. vm_compute. reflexivity.
Defined.

End StoreFacts.

Module AuthFacts.
Import Auth.

Lemma length_zero_empty (s : string) : (String.length s =? 0)%nat = true <-> s = "".
Proof. destruct s; cbn; split; congruence. Qed.

(** C7: [isSessionValid] answers false when the token is empty, differs
    from the stored one, the session is not authenticated, or the idle
    time exceeds one hour; every rejection leaves the session as it was,
    except that a matching token of an authenticated session that timed
    out also clears the authenticated flag; otherwise the answer is true
    and the activity time becomes the current time.  After
    [destroySession] every token is rejected. *)
Theorem isSessionValid_spec (token : string) (now : Z) (cur : Session) :
  let idle := wrap32 (now - lastActivity cur) in
  let rejected :=
    token = "" \/ token <> sessionId cur \/ isAuthenticated cur = false
    \/ idle > SESSION_TIMEOUT in
  ((isSessionValid token now cur).1 = false <-> rejected)
  /\ (token = "" \/ token <> sessionId cur \/ isAuthenticated cur = false ->
      (isSessionValid token now cur).2 = cur)
  /\ (token <> "" -> token = sessionId cur -> isAuthenticated cur = true ->
      idle > SESSION_TIMEOUT ->
      isSessionValid token now cur =
        (false, {| sessionId := sessionId cur;
                   lastActivity := lastActivity cur;
                   isAuthenticated := false |}))
  /\ (~ rejected ->
      isSessionValid token now cur =
        (true, {| sessionId := sessionId cur;
                  lastActivity := now;
                  isAuthenticated := true |}))
  /\ (0 <= lastActivity cur <= now -> now < 2 ^ 32 ->
      idle = now - lastActivity cur)
  /\ (forall anyToken now',
        (isSessionValid anyToken now' (destroySession cur)).1 = false).
Proof.
  cbv zeta.
  assert (forall a n, (isSessionValid a n (destroySession cur)).1 = false) as Hd.
  { intros a n. unfold isSessionValid, destroySession. cbn [sessionId isAuthenticated].
    destruct (String.length a =? 0)%nat; [reflexivity|].
    destruct (String.eqb a ""); reflexivity. }
  assert (0 <= lastActivity cur <= now -> now < 2 ^ 32 ->
          wrap32 (now - lastActivity cur) = now - lastActivity cur) as Hidle.
  { intros. unfold wrap32. apply Z.mod_small. lia. }
  unfold isSessionValid.
  pose proof (length_zero_empty token) as Hempty.
  destruct (String.length token =? 0)%nat;
    [assert (token = "") by (now apply Hempty)
    |assert (token <> "") by (intros E; apply Hempty in E; discriminate)];
    clear Hempty;
    destruct (String.eqb_spec token (sessionId cur));
    destruct (isAuthenticated cur) eqn:Ha;
    destruct (Z.gtb_spec (wrap32 (now - lastActivity cur)) SESSION_TIMEOUT);
    cbn [negb fst snd];
    (split; [|split; [|split; [|split; [|split]]]]);
    try exact Hd; try exact Hidle;
    try (split; intros; try reflexivity; try discriminate);
    intros; try reflexivity; try tauto; try congruence; try lia;
    try (exfalso; tauto);
    try (exfalso; intuition (congruence || lia)).
Qed.

Lemma isSessionValid_spec_witness :
  let cur := {| sessionId := "c0ffee"; lastActivity := 1000;
                isAuthenticated := true |} in
  isSessionValid "c0ffee" (1000 + 3600001) cur =
    (false, {| sessionId := "c0ffee"; lastActivity := 1000;
               isAuthenticated := false |})
  /\ isSessionValid "c0ffee" (1000 + 3600000) cur =
    (true, {| sessionId := "c0ffee"; lastActivity := 1000 + 3600000;
              isAuthenticated := true |}).
Proof.
  cbv zeta.
  pose proof (isSessionValid_spec "c0ffee" (1000 + 3600001)
    {| sessionId := "c0ffee"; lastActivity := 1000; isAuthenticated := true |})
    as (_ & _ & Hout & _).
  pose proof (isSessionValid_spec "c0ffee" (1000 + 3600000)
    {| sessionId := "c0ffee"; lastActivity := 1000; isAuthenticated := true |})
    as (_ & _ & _ & Hin & _).
  split.
  - apply Hout; [discriminate | reflexivity | reflexivity | vm_compute; reflexivity].
  - apply Hin. cbn [sessionId isAuthenticated lastActivity].
    intros [H|[H|[H|H]]]; [discriminate | apply H; reflexivity | discriminate |].
    vm_compute in H. discriminate.
Defined.

End AuthFacts.

Module HttpFacts.
Import Auth Http.






(** [strcmp] stops at a NUL: a decoded value that continues behind the
    password with a NUL, as [%00] decodes to, is not the password and is
    accepted. *)
Example login_reads_password_up_to_nul :
  urlDecode hexPair "admin123%00x" <> ADMIN_PASSWORD
  /\ handleLogin hexPair 21 5 (repeat 10 32)
       {| rx := "password=admin123%00x"; tx := "" |} noSession
     = ({| rx := ""; tx := okResponse (generateSessionId (repeat 10 32)) |},
        createSession (repeat 10 32) 5).
Proof. split; [vm_compute; discriminate | vm_compute; reflexivity]. Qed.


End HttpFacts.

Module StoreApiFacts.
Import Store StoreApi StoreFacts.

Lemma countLoop_acc (P : nat -> bool) (l : list nat) :
  forall c, fold_left (fun count i => if P i then S count else count) l c
            = (c + fold_left (fun count i => if P i then S count else count) l 0)%nat.
Proof.
  induction l as [|x l IH]; intros c; cbn [fold_left]; [lia|].
  rewrite IH, (IH (if P x then 1 else 0)%nat). destruct (P x); lia.
Qed.

Lemma countLoop_bound (P : nat -> bool) (l : list nat) :
  (fold_left (fun count i => if P i then S count else count) l 0 <= length l)%nat.
Proof.
  induction l as [|x l IH]; cbn [fold_left length]; [lia|].
  rewrite countLoop_acc. destruct (P x); lia.
Qed.

Lemma countLoop_full (P : nat -> bool) (l : list nat) :
  fold_left (fun count i => if P i then S count else count) l 0%nat = length l
  <-> (forall x, In x l -> P x = true).
Proof.
  induction l as [|x l IH]; cbn [fold_left length].
  - split; [intros _ x [] | reflexivity].
  - rewrite countLoop_acc. pose proof (countLoop_bound P l) as Hb.
    destruct (P x) eqn:E; split.
    + intros H y [<-|Hy]; [assumption|]. apply IH; [lia | assumption].
    + intros H. f_equal. apply IH. intros y Hy. apply H. now right.
    + intros H. lia.
    + intros H. rewrite (H x) in E by now left. discriminate.
Qed.

(** Counting with a predicate that differs at one index of a list
    without repetition. *)
Lemma countLoop_flip (P Q : nat -> bool) (i : nat) (l : list nat) :
  NoDup l -> In i l -> P i = false -> Q i = true ->
  (forall j, j <> i -> Q j = P j) ->
  fold_left (fun count i => if Q i then S count else count) l 0%nat
  = S (fold_left (fun count i => if P i then S count else count) l 0%nat).
Proof.
  intros Hnd Hin HP HQ Hsame. induction l as [|x l IH]; [destruct Hin|].
  cbn [fold_left]. rewrite (countLoop_acc Q), (countLoop_acc P).
  inversion Hnd as [|? ? Hx Hnd']; subst.
  destruct (decide (x = i)) as [->|Hne].
  - rewrite HP, HQ.
    assert (fold_left (fun count i => if Q i then S count else count) l 0%nat
            = fold_left (fun count i => if P i then S count else count) l 0%nat) as ->;
      [|lia].
    clear IH Hin Hnd Hnd'. induction l as [|y l IHl]; [reflexivity|].
    cbn [fold_left]. rewrite (countLoop_acc Q), (countLoop_acc P).
    rewrite Hsame by (intros ->; apply Hx; now left).
    rewrite IHl; [reflexivity|]. intros H. apply Hx. now right.
  - destruct Hin as [?|Hin]; [congruence|].
    rewrite Hsame by assumption. rewrite IH by assumption. lia.
Qed.

Lemma isKey_insert (prefs : Prefs) (i j : nat) (v : string) :
  isKey (<[keyName i := v]> prefs) (keyName j)
  = if decide (j = i) then true else isKey prefs (keyName j).
Proof.
  unfold isKey. destruct (decide (j = i)) as [->|Hne].
  - rewrite lookup_insert_eq. apply bool_decide_eq_true_2. eauto.
  - rewrite lookup_insert_ne; [reflexivity|].
    intros E. apply keyName_inj in E. congruence.
Qed.

Lemma isKey_delete (prefs : Prefs) (i j : nat) :
  isKey (delete (keyName i) prefs) (keyName j)
  = if decide (j = i) then false else isKey prefs (keyName j).
Proof.
  unfold isKey. destruct (decide (j = i)) as [->|Hne].
  - rewrite lookup_delete_eq. apply bool_decide_eq_false_2. intros [? ?]. discriminate.
  - rewrite lookup_delete_ne; [reflexivity|].
    intros E. apply keyName_inj in E. congruence.
Qed.

Lemma countSlots_full (prefs : Prefs) (n : nat) :
  fold_left (fun count i => if isKey prefs (keyName i) then S count else count)
            (seq 0 n) 0%nat = n
  <-> forall j, (j < n)%nat -> is_Some (prefs !! keyName j).
Proof.
  pose proof (countLoop_full (fun i => isKey prefs (keyName i)) (seq 0 n)) as H.
  rewrite length_seq in H. rewrite H. split.
  - intros Hall j Hj. apply isKey_true, Hall, in_seq. lia.
  - intros Hall x Hx. apply isKey_true, Hall. apply in_seq in Hx. lia.
Qed.

Lemma countSlots_bound (prefs : Prefs) (n : nat) :
  (fold_left (fun count i => if isKey prefs (keyName i) then S count else count)
             (seq 0 n) 0 <= n)%nat.
Proof.
  pose proof (countLoop_bound (fun i => isKey prefs (keyName i)) (seq 0 n)) as H.
  now rewrite length_seq in H.
Qed.

Lemma countKeys_insert (prefs : Prefs) (i : nat) (v : string) :
  (i < MAX_KEYS)%nat -> prefs !! keyName i = None ->
  countKeys (<[keyName i := v]> prefs) = S (countKeys prefs).
Proof.
  intros Hi Hfree. unfold countKeys.
  apply (countLoop_flip (fun j => isKey prefs (keyName j)) _ i).
  - apply NoDup_seq.
  - apply in_seq. lia.
  - now apply isKey_false.
  - rewrite isKey_insert. now destruct (decide (i = i)).
  - intros j Hj. rewrite isKey_insert. now destruct (decide (j = i)).
Qed.

Lemma countKeys_delete (prefs : Prefs) (i : nat) :
  (i < MAX_KEYS)%nat -> is_Some (prefs !! keyName i) ->
  countKeys prefs = S (countKeys (delete (keyName i) prefs)).
Proof.
  intros Hi Hocc. unfold countKeys.
  apply (countLoop_flip (fun j => isKey (delete (keyName i) prefs) (keyName j)) _ i).
  - apply NoDup_seq.
  - apply in_seq. lia.
  - rewrite isKey_delete. now destruct (decide (i = i)).
  - now apply isKey_true.
  - intros j Hj. rewrite isKey_delete. now destruct (decide (j = i)).
Qed.

(** X1: with a valid value, an add is refused for lack of room exactly
    when [countKeys] has reached 100, and an add that is not refused
    raises [countKeys] by one. *)
Theorem capacity_tracks_countKeys (prefs : Prefs) (value : string) :
  validValue value ->
  ((handleAPIInsert value prefs).1 = reply 400 "Maximum keys reached (100/100)"
   <-> countKeys prefs = MAX_KEYS)
  /\ ((countKeys prefs < MAX_KEYS)%nat ->
      countKeys (handleAPIInsert value prefs).2 = S (countKeys prefs))
  /\ (countKeys prefs <= MAX_KEYS)%nat.
Proof.
  intros Hv. rewrite handleAPIInsert_valid by assumption.
  assert (countKeys prefs = MAX_KEYS <-> freeIndex prefs = None) as Hfull
    by (unfold countKeys; now rewrite countSlots_full, freeIndex_None).
  assert (countKeys prefs <= MAX_KEYS)%nat as Hle
    by exact (countSlots_bound prefs MAX_KEYS).
  split; [|split; [|exact Hle]].
  - rewrite Hfull. destruct (freeIndex prefs) as [i|]; cbn [fst];
      split; intros; try reflexivity; discriminate.
  - intros Hlt. destruct (freeIndex prefs) as [i|] eqn:E; cbn [snd].
    + apply freeIndex_Some in E. destruct E as (Hi & Hfree & _).
      now apply countKeys_insert.
    + exfalso. rewrite (proj2 Hfull eq_refl) in Hlt.
      revert Hlt. apply Nat.lt_irrefl.
Qed.

Lemma capacity_tracks_countKeys_witness :
  countKeys (handleAPIInsert "a" (<[keyName 1 := "b"]> ∅)).2 = 2%nat.
Proof.
  pose proof (proj1 (proj2 (capacity_tracks_countKeys
                 (<[keyName 1 := "b"]> ∅) "a" ltac:(vm_compute; lia)))) as H.
  rewrite H; vm_compute; [reflexivity | lia].
Defined.

Lemma add_cases (value : string) (prefs : Prefs) :
  (handleAPIInsert value prefs).2 = (handleAPIAddKey value prefs).2
  /\ ((handleAPIInsert value prefs).2 = prefs /\
       (handleAPIInsert value prefs).1.(key) = None
      \/ exists i, (i < MAX_KEYS)%nat /\ prefs !! keyName i = None /\
           validValue value /\
           (handleAPIInsert value prefs).1.(key) = Some (keyName i) /\
           (handleAPIAddKey value prefs).1.(key) = Some (keyName i) /\
           (handleAPIInsert value prefs).2 = <[keyName i := c_str value]> prefs).
Proof.
  unfold handleAPIInsert, handleAPIAddKey, putString.
  destruct (Nat.eqb_spec (String.length value) 0); [cbn; auto|].
  destruct (Nat.ltb_spec MAX_VALUE_LENGTH (String.length value)); [cbn; auto|].
  destruct (freeIndex prefs) as [i|] eqn:E; [|cbn; auto].
  apply freeIndex_Some in E. destruct E as (Hi & Hfree & _).
  cbn [fst snd key replyKey]. split; [reflexivity|]. right. exists i.
  unfold validValue. repeat split; auto; lia.
Qed.

(** X2: an add never overwrites: whatever the value, every entry of the
    store is still there unchanged afterwards, with either add handler;
    and when the reply carries a key, that key was free before and holds
    afterwards the value up to its first NUL, which is the whole value
    when it holds none. *)
Theorem add_never_overwrites (value : string) (prefs : Prefs) :
  let r := handleAPIInsert value prefs in
  (handleAPIAddKey value prefs).2 = r.2
  /\ (forall k v, prefs !! k = Some v -> r.2 !! k = Some v)
  /\ (forall k, key r.1 = Some k ->
        prefs !! k = None /\ r.2 !! k = Some (c_str value) /\
        getString r.2 k "" = c_str value /\
        (c_str value = value -> r.2 !! k = Some value)).
Proof.
  cbv zeta. destruct (add_cases value prefs) as [Hsame Hc].
  split; [now symmetry|].
  destruct Hc as [[-> Hk] | (i & Hi & Hfree & Hv & Hk & _ & ->)].
  - split; [auto|]. intros k Hk'. rewrite Hk in Hk'. discriminate.
  - split.
    + intros k v Hkv. rewrite lookup_insert_ne; [assumption|].
      intros <-. rewrite Hfree in Hkv. discriminate.
    + intros k Hk'. rewrite Hk in Hk'. injection Hk' as <-.
      unfold getString. rewrite lookup_insert_eq.
      repeat split; [assumption|]. now intros ->.
Qed.

Lemma add_never_overwrites_witness :
  let prefs : Prefs := <[keyName 0 := "a"]> ∅ in
  prefs !! keyName 1 = None
  /\ (handleAPIInsert "tok" prefs).2 !! keyName 1 = Some "tok"
  /\ getString (handleAPIInsert "tok" prefs).2 (keyName 1) "" = "tok".
Proof.
  cbv zeta.
  destruct (proj2 (proj2 (add_never_overwrites "tok" (<[keyName 0 := "a"]> ∅)))
              (keyName 1)) as (Hfree & Hnew & Hget & _).
  - vm_compute. reflexivity.
  - exact (conj Hfree (conj Hnew Hget)).
Defined.

(** The form value [ab%00cd] decodes to five bytes and is stored as [ab];
    [%00] alone passes the length test and is stored as the empty value;
    and the key [k0%00xx] deletes [k0]. *)
Example store_keeps_c_strings :
  (handleAPIAddKey ("ab" +:+ String "000" "cd") ∅).2 !! "k0" = Some "ab"
  /\ handleAPIAddKey (String "000" "") ∅
     = (replyKey 200 "Key saved" "k0", {[ "k0" := "" ]})
  /\ handleAPIDeleteKey ("k0" +:+ String "000" "xx") {[ "k0" := "a" ]}
     = (reply 200 "Key deleted", ∅).
Proof. vm_compute. auto. Qed.

(** X3: adding a valid value and removing by value what the store keeps
    of it (the value itself when it holds no NUL), when that is not empty
    and no slot holds it, gives back the store as it was, and the removal
    answers with the key that the add assigned. *)
Theorem insert_remove_roundtrip (value : string) (prefs : Prefs) :
  validValue value -> c_str value <> "" -> absent (c_str value) prefs ->
  (countKeys prefs < MAX_KEYS)%nat ->
  exists k,
    (handleAPIInsert value prefs).1 = replyKey 200 "Value inserted" k
    /\ handleAPIRemove (c_str value) (handleAPIInsert value prefs).2
       = (replyKey 200 "Value removed" k, prefs).
Proof.
  intros Hv Hne Habs Hroom.
  rewrite handleAPIInsert_valid by assumption.
  destruct (freeIndex prefs) as [i|] eqn:E.
  - apply freeIndex_Some in E. destruct E as (Hi & Hfree & _).
    exists (keyName i). cbn [fst snd]. split; [reflexivity|].
    unfold handleAPIRemove.
    assert ((String.length (c_str value) =? 0)%nat = false) as ->
      by (destruct (c_str value); [congruence | reflexivity]).
    rewrite (findValue_Some (<[keyName i := c_str value]> prefs) (c_str value) i Hi).
    + destruct (Nat.eqb_spec (String.length (keyName i)) 0) as [E|_];
        [now apply keyName_nonempty in E|].
      unfold remove. f_equal. rewrite delete_insert_eq. now apply delete_id.
    + apply lookup_insert_eq.
    + intros j Hj. rewrite lookup_insert_ne.
      * apply Habs. lia.
      * intros Heq. apply keyName_inj in Heq. lia.
  - exfalso.
    assert (countKeys prefs = MAX_KEYS) as Hfull.
    { unfold countKeys. apply countSlots_full. now apply freeIndex_None. }
    rewrite Hfull in Hroom. revert Hroom. apply Nat.lt_irrefl.
Qed.

Lemma insert_remove_roundtrip_witness :
  handleAPIRemove "t5" (handleAPIInsert "t5" (<[keyName 0 := "a"]> ∅)).2
  = (replyKey 200 "Value removed" (keyName 1), <[keyName 0 := "a"]> ∅).
Proof.
  destruct (insert_remove_roundtrip "t5" (<[keyName 0 := "a"]> ∅))
    as (k & Hk & Hr).
  - vm_compute. lia.
  - vm_compute. discriminate.
  - intros i Hi. change (c_str "t5") with "t5". destruct (decide (i = 0%nat)) as [->|Hne].
    + vm_compute. discriminate.
    + rewrite lookup_insert_ne, lookup_empty; [discriminate|].
      intros E. apply keyName_inj in E. congruence.
  - vm_compute. lia.
  - change (c_str "t5") with "t5" in Hr. rewrite Hr. f_equal.
    assert ((handleAPIInsert "t5" (<[keyName 0 := "a"]> ∅)).1
            = replyKey 200 "Value inserted" (keyName 1)) as H1
      by (vm_compute; reflexivity).
    rewrite H1 in Hk. unfold replyKey in Hk. injection Hk as <-. reflexivity.
Defined.

Lemma slotsOnly_insert (prefs : Prefs) (i : nat) (v : string) :
  slotsOnly prefs -> (i < MAX_KEYS)%nat ->
  (String.length v <= MAX_VALUE_LENGTH)%nat ->
  slotsOnly (<[keyName i := v]> prefs).
Proof.
  intros Hs Hi Hv k w Hkw. apply lookup_insert_Some in Hkw.
  destruct Hkw as [[<- <-] | [_ Hkw]]; [eauto | eauto].
Qed.

Lemma slotsOnly_delete (prefs : Prefs) (k : string) :
  slotsOnly prefs -> slotsOnly (delete k prefs).
Proof.
  intros Hs k' w Hkw. apply lookup_delete_Some in Hkw. destruct Hkw; eauto.
Qed.

Lemma cStrings_insert (prefs : Prefs) (k v : string) :
  cStrings prefs -> cStrings (<[k := c_str v]> prefs).
Proof.
  intros Hs k' w Hkw. apply lookup_insert_Some in Hkw.
  destruct Hkw as [[_ <-] | [_ Hkw]]; [apply c_str_idem | eauto].
Qed.

Lemma cStrings_delete (prefs : Prefs) (k : string) :
  cStrings prefs -> cStrings (delete k prefs).
Proof.
  intros Hs k' w Hkw. apply lookup_delete_Some in Hkw. destruct Hkw; eauto.
Qed.

Lemma serve_slotsOnly (r : Request) (prefs : Prefs) :
  slotsOnly prefs /\ cStrings prefs ->
  slotsOnly (serve r prefs).2 /\ cStrings (serve r prefs).2.
Proof.
  intros [Hs Hc].
  assert (forall v, slotsOnly (handleAPIInsert v prefs).2
                    /\ cStrings (handleAPIInsert v prefs).2) as Hadd.
  { intros v.
    destruct (add_cases v prefs) as [_ [[-> _] | (i & Hi & _ & Hv & _ & _ & ->)]];
      [now split|].
    split; [|now apply cStrings_insert].
    apply slotsOnly_insert; [assumption | assumption |].
    pose proof (c_str_length v). destruct Hv. lia. }
  destruct r as [v|v|k|v]; cbn [serve].
  - apply Hadd.
  - rewrite <- (proj1 (add_cases v prefs)). apply Hadd.
  - unfold handleAPIDeleteKey, remove. cbv zeta.
    destruct (negb _); cbn [snd];
      [now split | split; [now apply slotsOnly_delete | now apply cStrings_delete]].
  - unfold handleAPIRemove, remove.
    destruct (_ =? _)%nat; [now split|].
    destruct (_ =? _)%nat; cbn [snd];
      [now split | split; [now apply slotsOnly_delete | now apply cStrings_delete]].
Qed.

(** X4: whatever requests the store API serves, starting from the empty
    store, every entry of the store sits under one of the keys [k0] to
    [k99] and holds a value of at most 128 bytes without a NUL.  A value
    can be empty: the form value of the one byte NUL passes the length
    test and leaves [k0] with the empty value. *)
Theorem store_stays_within_slots (rs : list Request) :
  slotsOnly (serveAll rs ∅)
  /\ cStrings (serveAll rs ∅)
  /\ serveAll [ReqAddKey (String "000" "")] ∅ = {[ keyName 0 := "" ]}.
Proof.
  assert (forall prefs, slotsOnly prefs /\ cStrings prefs ->
            slotsOnly (serveAll rs prefs) /\ cStrings (serveAll rs prefs)) as H.
  { induction rs as [|r rs IH]; intros prefs Hs; cbn [serveAll]; [assumption|].
    apply IH. now apply serve_slotsOnly. }
  destruct (H ∅) as [Hs Hc].
  - split; intros k v Hkv; rewrite lookup_empty in Hkv; discriminate.
  - split; [exact Hs | split; [exact Hc|]]. vm_compute. reflexivity.
Qed.

End StoreApiFacts.

Module SessionFacts.
Import Auth Http Sessions.

Lemma append_length (a b : string) :
  String.length (a +:+ b) = (String.length a + String.length b)%nat.
Proof.
  induction a as [|x a IH]; [reflexivity|].
  change (S (String.length (a +:+ b)) = S (String.length a + String.length b)).
  now rewrite IH.
Qed.

Lemma hexDigit_length (v : Z) : 0 <= v < 16 -> String.length (hexDigit v) = 1%nat.
Proof.
  intros Hv.
  assert (v = 0 \/ v = 1 \/ v = 2 \/ v = 3 \/ v = 4 \/ v = 5 \/ v = 6 \/ v = 7 \/
          v = 8 \/ v = 9 \/ v = 10 \/ v = 11 \/ v = 12 \/ v = 13 \/ v = 14 \/
          v = 15) as H by lia.
  repeat (destruct H as [-> | H]); try subst v; reflexivity.
Qed.

Lemma fold_hex_length (draws : list Z) :
  Forall (fun v => 0 <= v < 16) draws ->
  forall acc,
    String.length (fold_left (fun sessionId v => sessionId +:+ hexDigit v) draws acc)
    = (String.length acc + length draws)%nat.
Proof.
  induction 1 as [|v draws Hv _ IH]; intros acc; cbn [fold_left length]; [lia|].
  rewrite IH, append_length, hexDigit_length by assumption. lia.
Qed.

(** X5: when the random generator hands out at least 32 values, each
    between 0 and 15, the session token has exactly 32 characters. *)
Theorem sessionId_has_32_chars (draws : list Z) :
  (32 <= length draws)%nat -> Forall (fun v => 0 <= v < 16) draws ->
  String.length (generateSessionId draws) = 32%nat
  /\ generateSessionId draws <> "".
Proof.
  intros Hlen Hall.
  assert (String.length (generateSessionId draws) = 32%nat) as H.
  { unfold generateSessionId. rewrite fold_hex_length.
    - rewrite length_take. cbn [String.length]. lia.
    - now apply Forall_take. }
  split; [exact H|]. intros E. rewrite E in H. discriminate.
Qed.

Lemma sessionId_has_32_chars_witness :
  String.length (generateSessionId (repeat 11 40)) = 32%nat.
Proof.
  refine (proj1 (sessionId_has_32_chars (repeat 11 40) _ _)).
  - rewrite repeat_length. lia.
  - apply Forall_forall. intros v Hv. apply list_elem_of_In, repeat_spec in Hv. lia.
Defined.

Lemma validate_live (token : string) (now : Z) (cur : Session) :
  token <> "" -> token = sessionId cur -> isAuthenticated cur = true ->
  wrap32 (now - lastActivity cur) <= SESSION_TIMEOUT ->
  isSessionValid token now cur =
    (true, {| sessionId := sessionId cur; lastActivity := now;
              isAuthenticated := true |}).
Proof.
  intros Hne Htok Hauth Hidle. unfold isSessionValid.
  destruct (Nat.eqb_spec (String.length token) 0) as [E|_];
    [destruct token; [congruence | discriminate]|].
  rewrite (proj2 (String.eqb_eq _ _) Htok), Hauth. cbn [negb].
  destruct (Z.gtb_spec (wrap32 (now - lastActivity cur)) SESSION_TIMEOUT);
    [lia | reflexivity].
Qed.

Lemma last_cons_default (l : list Z) :
  forall x a b, List.last (x :: l) a = List.last (x :: l) b.
Proof.
  induction l as [|y l IH]; intros x a b; [reflexivity|].
  change (List.last (y :: l) a = List.last (y :: l) b). apply IH.
Qed.

(** X6: a session stays alive as long as it is used: after a login at
    [t0], validations of the token at times each within one hour of the
    one before all succeed, however long ago the login was, and leave the
    session as a login at the last of these times would. *)
Theorem session_slides (draws : list Z) (t0 : Z) (times : list Z) :
  generateSessionId draws <> "" -> withinTimeout t0 times ->
  validateAll (generateSessionId draws) times (createSession draws t0)
  = (true, createSession draws (List.last times t0)).
Proof.
  intros Hne. revert t0. induction times as [|now rest IH]; intros t0 Hgap.
  - reflexivity.
  - destruct Hgap as [Hnow Hrest]. cbn [validateAll].
    rewrite validate_live by (try assumption; reflexivity).
    change {| sessionId := sessionId (createSession draws t0);
              lastActivity := now; isAuthenticated := true |}
      with (createSession draws now).
    rewrite IH by assumption. f_equal. f_equal.
    destruct rest as [|z rest]; [reflexivity|].
    change (List.last (z :: rest) now = List.last (z :: rest) t0).
    apply last_cons_default.
Qed.

Lemma session_slides_witness :
  validateAll (generateSessionId (repeat 3 32)) [3000000; 6000000; 9000000]
              (createSession (repeat 3 32) 0)
  = (true, createSession (repeat 3 32) 9000000).
Proof.
  refine (session_slides (repeat 3 32) 0 [3000000; 6000000; 9000000] _ _).
  - vm_compute. discriminate.
  - vm_compute. intuition discriminate.
Defined.

(** X7: a session that rejects its own token does not come back: once
    [isSessionValid] has answered false to the stored token, it answers
    false to every token at every later time, also after the millisecond
    counter has wrapped around. *)
Theorem rejected_session_stays_dead (now : Z) (cur : Session) :
  (isSessionValid (sessionId cur) now cur).1 = false ->
  forall token now',
    (isSessionValid token now' (isSessionValid (sessionId cur) now cur).2).1
    = false.
Proof.
  unfold isSessionValid at 1 3.
  destruct (Nat.eqb_spec (String.length (sessionId cur)) 0) as [E|E].
  - intros _ token now'. cbn [snd]. unfold isSessionValid.
    destruct (Nat.eqb_spec (String.length token) 0) as [E'|E']; [reflexivity|].
    destruct (String.eqb_spec token (sessionId cur)) as [->|]; [congruence|].
    reflexivity.
  - rewrite String.eqb_refl. cbn [negb].
    destruct (isAuthenticated cur) eqn:Ha; cbn [negb].
    + destruct (Z.gtb_spec (wrap32 (now - lastActivity cur)) SESSION_TIMEOUT);
        cbn [fst snd]; [|discriminate].
      intros _ token now'. unfold isSessionValid. cbn [sessionId isAuthenticated].
      destruct (String.length token =? 0)%nat; [reflexivity|].
      destruct (String.eqb token (sessionId cur)); reflexivity.
    + intros _ token now'. cbn [snd]. unfold isSessionValid. rewrite Ha.
      destruct (String.length token =? 0)%nat; [reflexivity|].
      destruct (String.eqb token (sessionId cur)); reflexivity.
Qed.

Lemma rejected_session_stays_dead_witness :
  let cur := {| sessionId := "ab"; lastActivity := 0; isAuthenticated := true |} in
  (isSessionValid "ab" 5 (isSessionValid "ab" 3600001 cur).2).1 = false.
Proof.
  cbv zeta.
  exact (rejected_session_stays_dead 3600001
           {| sessionId := "ab"; lastActivity := 0; isAuthenticated := true |}
           ltac:(vm_compute; reflexivity) "ab" 5).
Defined.

End SessionFacts.

Module CookieFacts.
Import Auth Http Sessions SessionFacts.




Lemma prefix_char (c x : ascii) (s : string) :
  String.prefix (String c "") (String x s) = if ascii_dec c x then true else false.
Proof.
  apply eq_true_iff_eq. rewrite prefix_correct. cbn [String.length substring].
  destruct (ascii_dec c x) as [->|Hne]; split; intros H; try reflexivity;
    try discriminate.
  - destruct s; reflexivity.
  - exfalso. apply Hne. destruct s; now injection H.
Qed.

(** Search of a single character, past a text that does not hold it. *)
Lemma index_char_app (c : ascii) (v : string) :
  index 0 (String c "") v = None ->
  forall r, index 0 (String c "") (v +:+ r)
            = option_map (fun m => (String.length v + m)%nat)
                         (index 0 (String c "") r).
Proof.
  induction v as [|x v IH]; intros Hno r.
  - change (index 0 (String c "") r
            = option_map (fun m => m) (index 0 (String c "") r)).
    destruct (index 0 (String c "") r); reflexivity.
  - change (index 0 (String c "") (String x (v +:+ r))
            = option_map (fun m => S (String.length v + m))
                         (index 0 (String c "") r)).
    cbn [index] in Hno |- *. rewrite prefix_char in *.
    destruct (ascii_dec c x); [discriminate|].
    destruct (index 0 (String c "") v) eqn:E; [discriminate|].
    rewrite IH by reflexivity.
    destruct (index 0 (String c "") r); reflexivity.
Qed.

Lemma append_assoc' (a b c : string) : (a +:+ b) +:+ c = a +:+ (b +:+ c).
Proof.
  induction a as [|x a IH]; [reflexivity|].
  change (String x ((a +:+ b) +:+ c) = String x (a +:+ (b +:+ c))).
  now rewrite IH.
Qed.

Lemma append_empty_r (a : string) : a +:+ "" = a.
Proof.
  induction a as [|x a IH]; [reflexivity|].
  change (String x (a +:+ "") = String x a). now rewrite IH.
Qed.






Lemma index_char_none_app (c : ascii) (a b : string) :
  index 0 (String c "") a = None -> index 0 (String c "") b = None ->
  index 0 (String c "") (a +:+ b) = None.
Proof. intros Ha Hb. now rewrite (index_char_app c a Ha), Hb. Qed.





(** X10: logout closes the upload: [handleLogout] leaves the body unread
    and the session destroyed, and from then on a POST to [/doupdate] is
    answered with 401, whatever cookie it carries and whenever it comes,
    with its body unread, and the session stays destroyed. *)
Theorem logout_closes_upload (strtol16 : ascii -> ascii -> ascii)
    (handleOTAUpload : Z -> string -> string -> Client -> Session -> Client * Session)
    (handleAPI : string -> Z -> Client -> Session -> Client * Session)
    (c : Client) (cur : Session) :
  let '(c1, cur1) := handleLogout c cur in
  rx c1 = rx c /\ cur1 = destroySession cur
  /\ forall cookieHeader contentType contentLength now draws c',
       routePost strtol16 handleOTAUpload handleAPI "/doupdate" cookieHeader
                 contentType contentLength now draws c' cur1
       = ({| rx := rx c'; tx := tx c' +:+ unauthorizedResponse |}, cur1).
Proof.
  unfold handleLogout. cbv beta iota zeta delta [println rx]. split; [reflexivity|].
  split; [reflexivity|].
  intros cookieHeader contentType contentLength now draws c'.
  unfold routePost. cbn [String.eqb Ascii.eqb Bool.eqb andb].
  unfold isSessionValid, destroySession. cbn [sessionId isAuthenticated].
  assert (forall x, serveUnauthorized x
            = {| rx := rx x; tx := tx x +:+ unauthorizedResponse |}) as Hser.
  { intros x.
    cbv beta iota zeta delta [unauthorizedResponse serveUnauthorized println rx tx].
    now rewrite !append_assoc'. }
  destruct (String.length (extractCookie cookieHeader "sessionId") =? 0)%nat;
    [now rewrite Hser|].
  destruct (String.eqb (extractCookie cookieHeader "sessionId") "");
    cbn [negb]; now rewrite Hser.
Qed.

End CookieFacts.

Module EscapeFacts.
Import Http Escapes CookieFacts SessionFacts.

Lemma lacks_cons (c x : ascii) (s : string) :
  lacks c (String x s) <-> c <> x /\ lacks c s.
Proof.
  unfold lacks. cbn [index]. rewrite prefix_char.
  destruct (ascii_dec c x) as [->|Hne].
  - split; [discriminate | intros [H _]; congruence].
  - destruct (index 0 (String c "") s); split;
      try discriminate; try tauto; intros [_ H]; discriminate.
Qed.

Lemma lacks_app (c : ascii) (a b : string) :
  lacks c a -> lacks c b -> lacks c (a +:+ b).
Proof. apply index_char_none_app. Qed.

Lemma lacks_empty (c : ascii) : lacks c "".
Proof. reflexivity. Qed.

(** X11: text that holds neither [+] nor [%] is left as it is by
    [urlDecode], and [urlDecode] never makes a text longer. *)
Theorem urlDecode_plain_and_short (strtol16 : ascii -> ascii -> ascii)
    (str : string) :
  (lacks "+" str -> lacks "%" str -> urlDecode strtol16 str = str)
  /\ (String.length (urlDecode strtol16 str) <= String.length str)%nat.
Proof.
  split.
  - induction str as [|c rest IH]; intros Hplus Hpct; [reflexivity|].
    apply lacks_cons in Hplus, Hpct. destruct Hplus as [Hp1 Hp2], Hpct as [Hq1 Hq2].
    cbn [urlDecode].
    destruct (Ascii.eqb_spec c "+"); [congruence|].
    destruct (Ascii.eqb_spec c "%"); [congruence|].
    now rewrite IH.
  - assert (forall n s, (String.length s <= n)%nat ->
              (String.length (urlDecode strtol16 s) <= String.length s)%nat) as H.
    { induction n as [|n IH]; intros s Hs.
      - destruct s. reflexivity. cbn [String.length] in Hs. lia.
      - destruct s as [|c rest]; [reflexivity|]. cbn [String.length] in Hs.
        cbn [urlDecode].
        destruct (Ascii.eqb c "+").
        + cbn [String.length]. specialize (IH rest ltac:(lia)). lia.
        + destruct (Ascii.eqb c "%").
          * destruct rest as [|h1 [|h2 rest']].
            -- simpl. lia.
            -- simpl. destruct (Ascii.eqb h1 "+"), (Ascii.eqb h1 "%"); simpl; lia.
            -- cbn [String.length] in *. specialize (IH rest' ltac:(lia)). lia.
          * cbn [String.length]. specialize (IH rest ltac:(lia)). lia. }
    now apply (H (String.length str)).
Qed.

Lemma urlDecode_plain_and_short_witness :
  urlDecode hexPair "table-5-boungaville" = "table-5-boungaville".
Proof.
  apply (proj1 (urlDecode_plain_and_short hexPair "table-5-boungaville"));
    vm_compute; reflexivity.
Defined.

Lemma htmlEscape_piece_lacks (c x : ascii) :
  c = "<"%char \/ c = ">"%char \/ c = dq \/ c = "'"%char ->
  lacks c (if Ascii.eqb x "<" then "&lt;"
           else if Ascii.eqb x ">" then "&gt;"
           else if Ascii.eqb x "&" then "&amp;"
           else if Ascii.eqb x dq then "&quot;"
           else if Ascii.eqb x "'" then "&#39;"
           else String x "").
Proof.
  intros Hc.
  destruct (Ascii.eqb_spec x "<");
    [destruct Hc as [-> | [-> | [-> | ->]]]; reflexivity|].
  destruct (Ascii.eqb_spec x ">");
    [destruct Hc as [-> | [-> | [-> | ->]]]; reflexivity|].
  destruct (Ascii.eqb_spec x "&");
    [destruct Hc as [-> | [-> | [-> | ->]]]; reflexivity|].
  destruct (Ascii.eqb_spec x dq);
    [destruct Hc as [-> | [-> | [-> | ->]]]; reflexivity|].
  destruct (Ascii.eqb_spec x "'");
    [destruct Hc as [-> | [-> | [-> | ->]]]; reflexivity|].
  apply lacks_cons. split; [|apply lacks_empty].
  destruct Hc as [-> | [-> | [-> | ->]]]; congruence.
Qed.

(** X12: the result of [htmlEscape] holds no [<], no [>], no double quote
    and no single quote, whatever the text. *)
Theorem htmlEscape_no_markup (str : string) :
  lacks "<" (htmlEscape str) /\ lacks ">" (htmlEscape str)
  /\ lacks dq (htmlEscape str) /\ lacks "'" (htmlEscape str).
Proof.
  assert (forall c, c = "<"%char \/ c = ">"%char \/ c = dq \/ c = "'"%char ->
                    lacks c (htmlEscape str)) as H.
  { intros c Hc. induction str as [|x rest IH]; [apply lacks_empty|].
    cbn [htmlEscape]. apply lacks_app; [|exact IH].
    now apply htmlEscape_piece_lacks. }
  repeat split; apply H; auto.
Qed.

Lemma jsonUnescape_escape (value : string) :
  jsonUnescape (jsonEscape value) = value.
Proof.
  induction value as [|c rest IH]; [reflexivity|].
  cbn [jsonEscape].
  destruct (Ascii.eqb_spec c dq) as [->|H1];
    [change (String dq (jsonUnescape (jsonEscape rest)) = String dq rest);
     now rewrite IH|].
  destruct (Ascii.eqb_spec c bs) as [->|H2];
    [change (String bs (jsonUnescape (jsonEscape rest)) = String bs rest);
     now rewrite IH|].
  destruct (Ascii.eqb_spec c "010") as [->|H3];
    [change (String "010" (jsonUnescape (jsonEscape rest)) = String "010" rest);
     now rewrite IH|].
  destruct (Ascii.eqb_spec c "013") as [->|H4];
    [change (String "013" (jsonUnescape (jsonEscape rest)) = String "013" rest);
     now rewrite IH|].
  destruct (Ascii.eqb_spec c "009") as [->|H5];
    [change (String "009" (jsonUnescape (jsonEscape rest)) = String "009" rest);
     now rewrite IH|].
  change (String c "" +:+ jsonEscape rest) with (String c (jsonEscape rest)).
  cbn [jsonUnescape]. destruct (Ascii.eqb_spec c bs); [congruence|].
  now rewrite IH.
Qed.

Lemma jsonEscape_piece_lacks (c x : ascii) :
  c = "010"%char \/ c = "013"%char \/ c = "009"%char ->
  lacks c (if Ascii.eqb x dq then String bs (String dq "")
           else if Ascii.eqb x bs then String bs (String bs "")
           else if Ascii.eqb x "010" then String bs "n"
           else if Ascii.eqb x "013" then String bs "r"
           else if Ascii.eqb x "009" then String bs "t"
           else String x "").
Proof.
  intros Hc.
  destruct (Ascii.eqb_spec x dq); [destruct Hc as [-> | [-> | ->]]; reflexivity|].
  destruct (Ascii.eqb_spec x bs); [destruct Hc as [-> | [-> | ->]]; reflexivity|].
  destruct (Ascii.eqb_spec x "010"); [destruct Hc as [-> | [-> | ->]]; reflexivity|].
  destruct (Ascii.eqb_spec x "013"); [destruct Hc as [-> | [-> | ->]]; reflexivity|].
  destruct (Ascii.eqb_spec x "009"); [destruct Hc as [-> | [-> | ->]]; reflexivity|].
  apply lacks_cons. split; [|apply lacks_empty].
  destruct Hc as [-> | [-> | ->]]; congruence.
Qed.

(** X13: the JSON escaping of values loses nothing and lets no line
    break through: different values are written differently, the value
    can be read back from what is written, and what is written holds no
    line feed, carriage return or tab. *)
Theorem jsonEscape_faithful (a b : string) :
  (jsonEscape a = jsonEscape b -> a = b)
  /\ jsonUnescape (jsonEscape a) = a
  /\ lacks "010" (jsonEscape a) /\ lacks "013" (jsonEscape a)
  /\ lacks "009" (jsonEscape a).
Proof.
  split.
  - intros H. rewrite <- (jsonUnescape_escape a), <- (jsonUnescape_escape b).
    now rewrite H.
  - split; [apply jsonUnescape_escape|].
    assert (forall c, c = "010"%char \/ c = "013"%char \/ c = "009"%char ->
                      lacks c (jsonEscape a)) as H.
    { intros c Hc. induction a as [|x rest IH]; [apply lacks_empty|].
      cbn [jsonEscape]. apply lacks_app; [|exact IH].
      now apply jsonEscape_piece_lacks. }
    repeat split; apply H; auto.
Qed.

Lemma jsonEscape_faithful_witness :
  String dq "a" = String dq "a".
Proof.
  apply (proj1 (jsonEscape_faithful (String dq "a") (String dq "a"))).
  reflexivity.
Defined.

End EscapeFacts.

Module MultipartFacts.
Import Http Escapes Multipart CookieFacts SessionFacts EscapeFacts.

Lemma readLine_app (l : string) :
  forall out rest,
    lacks LF l ->
    readLine (l +:+ String LF rest) out = (true, out +:+ dropCR l, rest).
Proof.
  induction l as [|c l IH]; intros out rest Hl.
  - change (readLine (String LF rest) out = (true, out +:+ "", rest)).
    cbn [readLine]. change (Ascii.eqb LF CR) with false.
    change (Ascii.eqb LF LF) with true. cbv iota. now rewrite append_empty_r.
  - apply lacks_cons in Hl. destruct Hl as [Hc Hl].
    change (readLine (String c (l +:+ String LF rest)) out
            = (true, out +:+ dropCR (String c l), rest)).
    cbn [readLine dropCR].
    destruct (Ascii.eqb_spec c CR); [now apply IH|].
    destruct (Ascii.eqb_spec c LF); [congruence|].
    rewrite IH by assumption. now rewrite append_assoc'.
Qed.

Lemma readLine_open (s : string) :
  forall out, lacks LF s -> readLine s out = (false, out +:+ dropCR s, "").
Proof.
  induction s as [|c s IH]; intros out Hs.
  - cbn [readLine dropCR]. now rewrite append_empty_r.
  - apply lacks_cons in Hs. destruct Hs as [Hc Hs]. cbn [readLine dropCR].
    destruct (Ascii.eqb_spec c CR); [now apply IH|].
    destruct (Ascii.eqb_spec c LF); [congruence|].
    rewrite IH by assumption. now rewrite append_assoc'.
Qed.



(** X14: [readLine] returns the text up to the first line feed with every
    carriage return dropped, and leaves unread what follows that line
    feed; when no line feed arrives before the connection ends it reports
    failure and nothing is left to read. *)
Theorem readLine_spec (l rest : string) :
  lacks LF l ->
  readLine (l +:+ String LF rest) "" = (true, dropCR l, rest)
  /\ readLine l "" = (false, dropCR l, "").
Proof.
  intros Hl. split.
  - now rewrite readLine_app.
  - now rewrite readLine_open.
Qed.

Lemma readLine_spec_witness :
  readLine ("--B" +:+ String CR (String LF "rest")) "" = (true, "--B", "rest").
Proof.
  exact (proj1 (readLine_spec ("--B" +:+ String CR "") "rest"
                  ltac:(vm_compute; reflexivity))).
Defined.










End MultipartFacts.

Module OtaHandlerFacts.
Import Http Ota Multipart OtaHandler Escapes Text.
Import CookieFacts SessionFacts EscapeFacts MultipartFacts OtaFacts.

Lemma chunksOf_ok (n : nat) (fuel : nat) :
  (0 < n)%nat ->
  forall body, (length body <= fuel)%nat ->
    Forall (fun buf => (0 < length buf <= n)%nat) (chunksOf fuel n body)
    /\ concat (chunksOf fuel n body) = body.
Proof.
  intros Hn. induction fuel as [|fuel IH]; intros body Hlen.
  - destruct body; [cbn; auto | cbn in Hlen; lia].
  - destruct body as [|b body]; [cbn; auto|].
    cbn [chunksOf].
    destruct (IH (drop n (b :: body))) as [Hok Hcat].
    { rewrite length_drop. cbn [length] in *. lia. }
    split.
    + constructor; [|assumption]. rewrite length_take. cbn [length]. lia.
    + cbn [concat]. rewrite Hcat. apply take_drop.
Qed.

Lemma readChunks_ok (body : list byte) :
  Forall chunk_ok (readChunks body) /\ concat (readChunks body) = body.
Proof.
  unfold readChunks, chunk_ok, BUF_SIZE.
  change (Z.to_nat 1024) with 1024%nat.
  apply chunksOf_ok; lia.
Qed.

(** What the payload loop writes is a prefix of what it is given to
    read. *)
Lemma upload_image_prefix (marker body : list byte) :
  exists n, image (flash (upload marker body)) = take n body.
Proof.
  unfold upload. destruct (readChunks_ok body) as [Hok Hcat].
  destruct (uploadLoop_streaming marker (readChunks body) start []
              start_streaming Hok) as [Hrun Hfin].
  destruct (finished (uploadLoop marker start (readChunks body))) eqn:E.
  - destruct (Hfin eq_refl) as (pre & buf & post & i & Hch & _ & Himg).
    cbn [app] in Himg. rewrite Himg.
    set (k := Z.to_nat _).
    exists (length (concat pre ++ take k buf)).
    rewrite <- Hcat, Hch, concat_app. cbn [concat].
    replace (buf ++ concat post)
      with (take k buf ++ (drop k buf ++ concat post))
      by (now rewrite app_assoc, take_drop).
    rewrite (app_assoc (concat pre)).
    now rewrite take_app_length.
  - destruct (Hrun eq_refl) as (_ & Himg & _).
    cbn [app] in Himg. rewrite Himg, Hcat.
    exists (length body). now rewrite firstn_all.
Qed.




Lemma tx_sendUpdateError (c : Client) (msg : string) :
  exists page,
    tx (sendUpdateError c msg) = tx c +:+ statusLine false +:+ CRLF +:+ page.
Proof.
  unfold sendUpdateError, println, print. cbn [tx rx].
  rewrite !append_assoc'. eexists. reflexivity.
Qed.

Lemma tx_sendUpdateSuccess (c : Client) :
  exists page,
    tx (sendUpdateSuccess c) = tx c +:+ statusLine true +:+ CRLF +:+ page.
Proof.
  unfold sendUpdateSuccess, println, print. cbn [tx rx].
  rewrite !append_assoc'. eexists. reflexivity.
Qed.

(** X16: whatever the request is, [handleOTAUpload] writes to the flash
    only bytes of the request, in their order: when the payload loop has
    run, the image is a prefix of the bytes that [findMultipartField] left
    unread behind the headers of the [update] part, [Update.begin] had
    succeeded, and the answer is the 200 page exactly when
    [Update.end(true)] succeeded; in every other case the answer is the
    500 page and the device does not restart. *)
Theorem handleOTAUpload_writes_request_bytes (beginOk endOk : bool)
    (contentType : string) (c : Client) :
  let r := handleOTAUpload beginOk endOk contentType c in
  (exists page,
     tx r.1 = tx c +:+ statusLine (restarts r.2) +:+ CRLF +:+ page)
  /\ (forall u committed,
        r.2 = Written u committed ->
        beginOk = true /\ committed = endOk /\
        exists boundary unread n,
          findMultipartField boundary "update" (rx c) = (true, unread) /\
          image (flash u) = take n (list_byte_of_string unread)).
Proof.
  cbv zeta. unfold handleOTAUpload.
  destruct (negb (String.prefix "multipart/form-data" contentType)).
  { split; [apply tx_sendUpdateError | discriminate]. }
  destruct (indexOf contentType "boundary=" <? 0).
  { split; [apply tx_sendUpdateError | discriminate]. }
  set (boundary := trim _).
  destruct (findMultipartField boundary "update" (rx c))
    as [found unread] eqn:Hfind.
  destruct found; cbn [negb].
  2:{ split; [|discriminate].
      apply (tx_sendUpdateError {| rx := unread; tx := tx c |}). }
  destruct beginOk; cbn [negb].
  2:{ split; [|discriminate].
      apply (tx_sendUpdateError {| rx := unread; tx := tx c |}). }
  set (marker := list_byte_of_string _).
  destruct (upload_image_prefix marker (list_byte_of_string unread))
    as [n Hn].
  destruct endOk; cbn [fst snd].
  - split; [apply (tx_sendUpdateSuccess {| rx := ""; tx := tx c |})|].
    intros u committed [= <- <-]. repeat split.
    exists boundary, unread, n. split; [exact Hfind | exact Hn].
  - split; [apply (tx_sendUpdateError {| rx := ""; tx := tx c |})|].
    intros u committed [= <- <-]. repeat split.
    exists boundary, unread, n. split; [exact Hfind | exact Hn].
Qed.






Lemma handleOTAUpload_writes_request_bytes_witness :
  let c := formClient "FIRMWARE" in
  let u := upload (list_byte_of_string (CRLF +:+ "--B"))
                  (list_byte_of_string "FIRMWARE") in
  exists boundary unread n,
    findMultipartField boundary "update" (rx c) = (true, unread) /\
    image (flash u) = take n (list_byte_of_string unread).
Proof.
  cbv zeta.
  exact (proj2 (proj2
           (proj2 (handleOTAUpload_writes_request_bytes true true formType
                     (formClient "FIRMWARE"))
                  (upload (list_byte_of_string (CRLF +:+ "--B"))
                          (list_byte_of_string "FIRMWARE"))
                  true ltac:(vm_compute; reflexivity)))).
Defined.



End OtaHandlerFacts.

Module TimeApiFacts.
Import Clock TimeApi ClockFacts.

Lemma days_next_in_month (y m d : Z) :
  ref_days_from_civil y m (d + 1) = ref_days_from_civil y m d + 1.
Proof. unfold ref_days_from_civil. cbv zeta. lia. Qed.

Lemma days_next_month (y m : Z) :
  1 <= m < 12 ->
  ref_days_from_civil y (m + 1) 1
  = ref_days_from_civil y m (ref_daysInMonth y m) + 1.
Proof.
  intros Hm.
  assert (m = 1 \/ m = 2 \/ m = 3 \/ m = 4 \/ m = 5 \/ m = 6 \/ m = 7 \/
          m = 8 \/ m = 9 \/ m = 10 \/ m = 11) as Hc by lia.
  repeat (destruct Hc as [-> | Hc]); try subst m;
    match goal with
    | |- context [ref_days_from_civil _ (?a + 1) _] =>
        let v := eval vm_compute in (a + 1) in change (a + 1) with v
    end;
    unfold ref_days_from_civil, ref_daysInMonth, ref_isLeap; cbv zeta;
    cbn [Z.leb Z.gtb Z.eqb Pos.eqb Z.compare Pos.compare
         Pos.compare_cont orb];
    try (Z.div_mod_to_equations; lia).
  destruct (Z.eqb_spec (y mod 4) 0), (Z.eqb_spec (y mod 100) 0),
    (Z.eqb_spec (y mod 400) 0); cbn [andb orb negb];
    Z.div_mod_to_equations; lia.
Qed.

Lemma days_next_year (y : Z) :
  ref_days_from_civil (y + 1) 1 1 = ref_days_from_civil y 12 31 + 1.
Proof.
  unfold ref_days_from_civil. cbv zeta.
  cbn [Z.leb Z.gtb Z.compare Pos.compare Pos.compare_cont].
  replace (y + 1 - 1) with y by lia. Z.div_mod_to_equations; lia.
Qed.

Lemma daysInMonth_range (y m : Z) :
  28 <= ref_daysInMonth y m <= 31
  /\ (m = 3 \/ m = 10 \/ m = 12 -> ref_daysInMonth y m = 31).
Proof.
  unfold ref_daysInMonth.
  destruct (Z.eqb_spec m 2), (Z.eqb_spec m 4), (Z.eqb_spec m 6),
    (Z.eqb_spec m 9), (Z.eqb_spec m 11); cbn [orb];
    try destruct (ref_isLeap y); lia.
Qed.

(** The day number after a date is the day number of [nextDay]. *)
Lemma nextDay_ok (y m d : Z) :
  1 <= m <= 12 -> 1 <= d <= ref_daysInMonth y m ->
  ref_civil_from_days (ref_days_from_civil y m d + 1) = nextDay y m d.
Proof.
  intros Hm Hd. unfold nextDay.
  destruct (daysInMonth_range y m) as [Hr H31].
  destruct (Z.ltb_spec d (ref_daysInMonth y m)).
  - rewrite <- days_next_in_month. apply ref_civil_roundtrip; lia.
  - assert (d = ref_daysInMonth y m) as -> by lia.
    destruct (Z.ltb_spec m 12).
    + rewrite <- days_next_month by lia.
      apply ref_civil_roundtrip; [lia|].
      destruct (daysInMonth_range y (m + 1)). lia.
    + assert (m = 12) as -> by lia. rewrite H31 by lia.
      rewrite <- days_next_year.
      apply ref_civil_roundtrip; [lia|].
      destruct (daysInMonth_range (y + 1) 1). lia.
Qed.

Lemma isDST_cases (y m d h : Z) :
  isDST y m d h = true <->
    4 <= m <= 9
    \/ (m = 3 /\ (lastSunday y 3 < d \/ (d = lastSunday y 3 /\ 2 <= h)))
    \/ (m = 10 /\ (d < lastSunday y 10 \/ (d = lastSunday y 10 /\ h < 3))).
Proof.
  destruct (Z.eq_dec m 3) as [->|H3].
  { rewrite isDST_march. lia. }
  destruct (Z.eq_dec m 10) as [->|H10].
  { rewrite isDST_october. lia. }
  unfold isDST.
  destruct (Z.ltb_spec m 3), (Z.gtb_spec m 10), (Z.gtb_spec m 3),
    (Z.ltb_spec m 10), (Z.eqb_spec m 3), (Z.eqb_spec m 10);
    cbn [orb andb]; split; intros Hx; try discriminate; try reflexivity; lia.
Qed.

(** The calendar fields of the clock that a synchronisation installs:
    the GMT fields with the hour moved on, into the next day when it
    passes midnight. *)
Lemma gmtime_shift (y m d hh mi ss off : Z) :
  1970 <= y <= 2037 -> 1 <= m <= 12 -> 1 <= d <= ref_daysInMonth y m ->
  0 <= hh < 24 -> 0 <= mi < 60 -> 0 <= ss < 60 -> 0 <= off <= 24 ->
  ref_gmtime (toEpoch y m d hh mi ss + off * 3600)
  = if hh + off <? 24 then (y, m, d, hh + off, mi, ss)
    else (nextDay y m d, hh + off - 24, mi, ss).
Proof.
  intros Hy Hm Hd Hh Hmi Hs Hoff.
  destruct (daysInMonth_range y m) as [Hdim _].
  rewrite (proj1 (toEpoch_fits_long y m d hh mi ss Hy Hm ltac:(lia) Hh Hmi Hs)).
  unfold ref_timegm.
  set (D := ref_days_from_civil y m d).
  destruct (Z.ltb_spec (hh + off) 24).
  - replace (D * 86400 + hh * 3600 + mi * 60 + ss + off * 3600)
      with (D * 86400 + (hh + off) * 3600 + mi * 60 + ss) by lia.
    destruct (timeOfDay_split D (hh + off) mi ss) as (H1 & H2 & H3 & H4);
      try lia.
    unfold ref_gmtime. rewrite H1, H2, H3, H4. subst D.
    now rewrite ref_civil_roundtrip.
  - replace (D * 86400 + hh * 3600 + mi * 60 + ss + off * 3600)
      with ((D + 1) * 86400 + (hh + off - 24) * 3600 + mi * 60 + ss) by lia.
    destruct (timeOfDay_split (D + 1) (hh + off - 24) mi ss)
      as (H1 & H2 & H3 & H4); try lia.
    unfold ref_gmtime. rewrite H1, H2, H3, H4. subst D.
    rewrite nextDay_ok by assumption.
    now destruct (nextDay y m d) as [[y' m'] d'].
Qed.

Lemma lastSunday_range (y m : Z) :
  0 <= y -> m = 3 \/ m = 10 -> 25 <= lastSunday y m <= 31.
Proof.
  intros Hy Hm. destruct (lastSunday_ok y m Hy Hm) as (H1 & _ & H2). lia.
Qed.

Lemma inTransition_cases (y m d h : Z) :
  inTransition y m d h = true <->
    (m = 3 /\ d = lastSunday y 3 /\ h = 1)
    \/ (m = 10 /\ d = lastSunday y 10 /\ (h = 1 \/ h = 2)).
Proof.
  unfold inTransition.
  rewrite orb_true_iff, !andb_true_iff, orb_true_iff, !Z.eqb_eq. tauto.
Qed.

(** The DST flag that [isDST] gives on the fields of the clock shifted by
    the offset of the synchronisation. *)
Lemma isDST_shifted (y m d hh : Z) :
  1970 <= y -> 1 <= m <= 12 -> 1 <= d <= ref_daysInMonth y m ->
  0 <= hh < 24 ->
  let off := if isDST y m d hh then 2 else 1 in
  let '(y', m', d', hh') :=
    if hh + off <? 24 then (y, m, d, hh + off)
    else (nextDay y m d, hh + off - 24) in
  isDST y' m' d' hh' = xorb (isDST y m d hh) (inTransition y m d hh).
Proof.
  intros Hy Hm Hd Hh.
  pose proof (lastSunday_range y 3 ltac:(lia) ltac:(auto)) as L3.
  pose proof (lastSunday_range y 10 ltac:(lia) ltac:(auto)) as L10.
  destruct (daysInMonth_range y m) as [Hr H31].
  pose proof (isDST_cases y m d hh) as Hsync.
  pose proof (inTransition_cases y m d hh) as Htr.
  cbv zeta.
  assert (forall y' m' d' hh',
            y' = y \/ m' = 1 ->
            ((isDST y m d hh = true <-> inTransition y m d hh = false) <->
             (4 <= m' <= 9
              \/ (m' = 3 /\ (lastSunday y 3 < d'
                             \/ (d' = lastSunday y 3 /\ 2 <= hh')))
              \/ (m' = 10 /\ (d' < lastSunday y 10
                              \/ (d' = lastSunday y 10 /\ hh' < 3))))) ->
            isDST y' m' d' hh'
            = xorb (isDST y m d hh) (inTransition y m d hh)) as Hgoal.
  { intros y' m' d' hh' Hy' Hiff.
    apply eq_true_iff_eq. rewrite isDST_cases.
    assert (xorb (isDST y m d hh) (inTransition y m d hh) = true <->
            (isDST y m d hh = true <-> inTransition y m d hh = false)) as ->.
    { destruct (isDST y m d hh), (inTransition y m d hh); cbn;
        intuition congruence. }
    rewrite Hiff. destruct Hy' as [-> | ->]; [tauto | lia]. }
  assert (inTransition y m d hh = false <-> ~ inTransition y m d hh = true)
    as Hneg by (destruct (inTransition y m d hh); intuition congruence).
  destruct (isDST y m d hh) eqn:E.
  - assert (4 <= m <= 9
            \/ (m = 3 /\ (lastSunday y 3 < d \/ (d = lastSunday y 3 /\ 2 <= hh)))
            \/ (m = 10 /\ (d < lastSunday y 10
                           \/ (d = lastSunday y 10 /\ hh < 3)))) as Hs
      by (now apply Hsync).
    clear Hsync.
    destruct (Z.ltb_spec (hh + 2) 24).
    + apply Hgoal; [auto|]. rewrite Hneg, Htr. lia.
    + unfold nextDay.
      destruct (Z.ltb_spec d (ref_daysInMonth y m));
        [|destruct (Z.ltb_spec m 12)];
        (apply Hgoal; [auto|]); rewrite Hneg, Htr; lia.
  - assert (~ (4 <= m <= 9
            \/ (m = 3 /\ (lastSunday y 3 < d \/ (d = lastSunday y 3 /\ 2 <= hh)))
            \/ (m = 10 /\ (d < lastSunday y 10
                           \/ (d = lastSunday y 10 /\ hh < 3))))) as Hs
      by (intros H; apply Hsync in H; discriminate).
    clear Hsync.
    destruct (Z.ltb_spec (hh + 1) 24).
    + apply Hgoal; [auto|]. rewrite Hneg, Htr. lia.
    + unfold nextDay.
      destruct (Z.ltb_spec d (ref_daysInMonth y m));
        [|destruct (Z.ltb_spec m 12)];
        (apply Hgoal; [auto|]); rewrite Hneg, Htr; lia.
Qed.

(** X19: what [/api/time] reports right after a synchronisation, for a
    [Date:] header of the years 1970 to 2037, where the epoch and the
    offset fit the 32-bit [long] of the computation.  The
    time of day is the GMT time of the [Date:] header moved on by the
    offset that the synchronisation chose (one hour, or two when [isDST]
    holds of the GMT fields).  The zone that is reported comes from
    [isDST] on the fields of that shifted clock: it agrees with the offset
    in use at every time of the year except GMT hour 1 of the last Sunday
    of March and GMT hours 1 and 2 of the last Sunday of October, where it
    is the opposite one. *)
Theorem api_zone_vs_sync_offset (d : DateFields) (st : TimeState) :
  let year := f_year d in
  let month := monthOf d in
  let day := f_mday d in
  let hour := f_hour d in
  let inDST := isDST year month day hour in
  let st' := installDate d st in
  let r := handleAPIGetTime (tv_sec st') st' in
  1970 <= year <= 2037 -> 1 <= day <= ref_daysInMonth year month ->
  0 <= hour < 24 -> 0 <= f_min d < 60 -> 0 <= f_sec d < 60 ->
  t_time r = ((hour + (if inDST then 2 else 1)) mod 24, f_min d, f_sec d)
  /\ t_dst r = xorb inDST (inTransition year month day hour)
  /\ t_offset r = (if t_dst r then "+02:00" else "+01:00")%string
  /\ t_synced r = true.
Proof.
  cbv zeta. intros Hy Hd Hh Hmi Hs.
  pose proof (monthOf_range d) as Hm.
  assert (tv_sec (installDate d st)
          = toEpoch (f_year d) (monthOf d) (f_mday d) (f_hour d) (f_min d)
                    (f_sec d)
            + (if isDST (f_year d) (monthOf d) (f_mday d) (f_hour d)
               then 2 else 1) * 3600) as ->.
  { unfold installDate, monthOf. cbn [tv_sec].
    replace (f_year d - 1900 + 1900) with (f_year d) by lia. reflexivity. }
  pose proof (isDST_shifted (f_year d) (monthOf d) (f_mday d) (f_hour d)
                (proj1 Hy) Hm Hd Hh) as Hflag.
  cbv zeta in Hflag.
  unfold handleAPIGetTime.
  rewrite gmtime_shift by
    (try assumption; destruct (isDST _ _ _ _); lia).
  set (off := if isDST _ _ _ _ then 2 else 1) in *.
  assert (1 <= off <= 2) as Hoff
    by (subst off; destruct (isDST _ _ _ _); lia).
  destruct (Z.ltb_spec (f_hour d + off) 24).
  - cbn [t_time t_dst t_offset t_synced].
    rewrite Z.mod_small by lia. repeat split. exact Hflag.
  - destruct (nextDay (f_year d) (monthOf d) (f_mday d)) as [[y' m'] d'].
    cbn [t_time t_dst t_offset t_synced].
    replace ((f_hour d + off) mod 24) with (f_hour d + off - 24)
      by (Z.div_mod_to_equations; lia).
    repeat split. exact Hflag.
Qed.

Lemma api_zone_vs_sync_offset_witness :
  let d := {| f_mday := 27; f_monthStr := "Oct"; f_year := 2024;
              f_hour := 1; f_min := 30; f_sec := 0 |} in
  let st' := installDate d {| tv_sec := 0; timeIsSynced := false |} in
  let r := handleAPIGetTime (tv_sec st') st' in
  t_time r = (3, 30, 0) /\ t_dst r = false
  /\ t_offset r = "+01:00"%string /\ t_synced r = true.
Proof.
  cbv zeta.
  refine (api_zone_vs_sync_offset
            {| f_mday := 27; f_monthStr := "Oct"; f_year := 2024;
               f_hour := 1; f_min := 30; f_sec := 0 |}
            {| tv_sec := 0; timeIsSynced := false |} _ _ _ _ _);
    vm_compute; intuition discriminate.
Defined.

Lemma last_sunday_unique (y m a b : Z) :
  is_last_sunday y m a -> is_last_sunday y m b -> a = b.
Proof.
  unfold is_last_sunday, ref_weekday.
  assert (forall d, ref_days_from_civil y m d = ref_days_from_civil y m 0 + d)
    as Hlin by (intros d; unfold ref_days_from_civil; cbv zeta; lia).
  rewrite (Hlin a), (Hlin b).
  set (K := ref_days_from_civil y m 0).
  intros (Ha & Hwa & Ha') (Hb & Hwb & Hb').
  Z.div_mod_to_equations. lia.
Qed.

(** X26: the offset that a synchronisation chooses, against the Central
    European rule.  [isDST] is applied to the GMT fields of the [Date:]
    header but switches at hours 2 and 3, the local times of the change,
    while the rule switches at 01:00 GMT on both days: the decision is
    the one of the rule at every time except GMT hour 1 of the last
    Sunday of March and GMT hours 1 and 2 of the last Sunday of October,
    where it is the opposite one. *)
Theorem sync_offset_vs_rule (year month day hour s3 s10 : Z) :
  0 <= year ->
  is_last_sunday year 3 s3 -> is_last_sunday year 10 s10 ->
  isDST year month day hour
  = xorb (ref_summerTime s3 s10 month day hour)
         (inTransition year month day hour).
Proof.
  intros Hy H3 H10.
  assert (s3 = lastSunday year 3) as ->
    by (apply (last_sunday_unique year 3); [assumption|];
        apply lastSunday_ok; auto).
  assert (s10 = lastSunday year 10) as ->
    by (apply (last_sunday_unique year 10); [assumption|];
        apply lastSunday_ok; auto).
  apply eq_true_iff_eq. rewrite isDST_cases.
  pose proof (inTransition_cases year month day hour) as Htr.
  assert (ref_summerTime (lastSunday year 3) (lastSunday year 10)
                         month day hour = true <->
          4 <= month <= 9
          \/ (month = 3 /\ (lastSunday year 3 < day
                            \/ (day = lastSunday year 3 /\ 1 <= hour)))
          \/ (month = 10 /\ (day < lastSunday year 10
                             \/ (day = lastSunday year 10 /\ hour < 1))))
    as Href.
  { unfold ref_summerTime.
    rewrite !orb_true_iff, !andb_true_iff, !orb_true_iff, !andb_true_iff.
    rewrite !Z.leb_le, !Z.ltb_lt, !Z.eqb_eq. tauto. }
  destruct (ref_summerTime _ _ month day hour),
    (inTransition year month day hour); cbn [xorb];
    intuition (try discriminate; try lia).
Qed.

Lemma sync_offset_vs_rule_witness :
  isDST 2024 3 31 1 = false /\ ref_summerTime 31 27 3 31 1 = true.
Proof.
  split; [|reflexivity].
  refine (eq_trans (sync_offset_vs_rule 2024 3 31 1 31 27 _ _ _) _).
  - lia.
  - vm_compute. intuition (discriminate || reflexivity).
  - vm_compute. intuition (discriminate || reflexivity).
  - reflexivity.
Defined.

Lemma resyncAll_synced (passes : list (Z * Z * option DateFields)) :
  forall lastSync st,
    timeIsSynced st = true -> (resyncAll passes lastSync st).1 = st.
Proof.
  induction passes as [|[[now now'] fetched] rest IH]; intros lastSync st Hs;
    [reflexivity|].
  cbn [resyncAll]. unfold resync. rewrite Hs. cbn [negb].
  destruct (wrap32 (now - lastSync) >? 3600000); now apply IH.
Qed.

(** X27: the clock is set once.  While the device is not synchronised, a
    pass of [loop] that comes more than an hour (modulo 2^32 ms) after
    the last attempt installs the date it fetches; after a successful
    synchronisation no later pass changes the clock again, whatever the
    time server would answer: the offset chosen then stays in use. *)
Theorem clock_is_set_once (d : DateFields) (st : TimeState)
    (now now' lastSync : Z) (passes : list (Z * Z * option DateFields)) :
  timeIsSynced st = false -> 3600000 < wrap32 (now - lastSync) ->
  resync now now' lastSync (Some d) st = (installDate d st, now')
  /\ (resyncAll passes now' (installDate d st)).1 = installDate d st.
Proof.
  intros Hs Hdue. split.
  - unfold resync. rewrite Hs.
    destruct (Z.gtb_spec (wrap32 (now - lastSync)) 3600000); [reflexivity | lia].
  - now apply resyncAll_synced.
Qed.

Lemma clock_is_set_once_witness :
  let d := {| f_mday := 15; f_monthStr := "Jan"; f_year := 2024;
              f_hour := 12; f_min := 0; f_sec := 0 |} in
  let july := {| f_mday := 15; f_monthStr := "Jul"; f_year := 2024;
                 f_hour := 12; f_min := 0; f_sec := 0 |} in
  let st := {| tv_sec := 0; timeIsSynced := false |} in
  (resyncAll [(7300000, 7300100, Some july)] 3700000 (installDate d st)).1
  = installDate d st.
Proof.
  cbv zeta.
  refine (proj2 (clock_is_set_once _ {| tv_sec := 0; timeIsSynced := false |}
                   3600001 3700000 0 _ _ _)).
  - reflexivity.
  - vm_compute. reflexivity.
Defined.

End TimeApiFacts.

Module StoreRequestFacts.
Import Http Store Escapes Text StoreRequests.
Import CookieFacts SessionFacts EscapeFacts.








Lemma index_char_lacks (c : ascii) (s : string) :
  forall n m,
    index n (String c "") s = Some m ->
    (n <= m < String.length s)%nat /\ lacks c (substring n (m - n) s).
Proof.
  induction s as [|x s IH]; intros n m H.
  - destruct n; discriminate.
  - cbn [String.length]. destruct n as [|n].
    + cbn [index] in H. rewrite prefix_char in H.
      destruct (ascii_dec c x) as [->|Hne].
      * injection H as <-. split; [lia|]. cbn. apply lacks_empty.
      * destruct (index 0 (String c "") s) as [k|] eqn:E; [|discriminate].
        injection H as <-. destruct (IH 0%nat k E) as [Hlt Hl].
        split; [lia|]. rewrite Nat.sub_0_r in *. cbn [substring].
        apply lacks_cons. split; assumption.
    + cbn [index] in H.
      destruct (index n (String c "") s) as [k|] eqn:E; [|discriminate].
      injection H as <-. destruct (IH n k E) as [Hle Hl].
      split; [lia|]. cbn [substring Nat.sub]. exact Hl.
Qed.

Lemma lacks_trimLeft (c : ascii) (s : string) :
  lacks c s -> lacks c (trimLeft s).
Proof.
  induction s as [|x s IH]; intros H; [assumption|].
  cbn [trimLeft]. destruct (isspace x); [|assumption].
  apply IH. now apply lacks_cons in H.
Qed.

Lemma lacks_trimRight (c : ascii) (s : string) :
  lacks c s -> lacks c (trimRight s).
Proof.
  induction s as [|x s IH]; intros H; [assumption|].
  apply lacks_cons in H as [Hx Hs]. specialize (IH Hs).
  cbn [trimRight]. destruct (trimRight s) as [|y k].
  - destruct (isspace x); [apply lacks_empty|].
    apply lacks_cons. split; [assumption | apply lacks_empty].
  - apply lacks_cons. split; assumption.
Qed.

Lemma trimRight_idem (s : string) : trimRight (trimRight s) = trimRight s.
Proof.
  induction s as [|x s IH]; [reflexivity|].
  cbn [trimRight]. destruct (trimRight s) as [|y k] eqn:E.
  - destruct (isspace x) eqn:Ex; [reflexivity|].
    cbn [trimRight]. now rewrite Ex.
  - cbn [trimRight] in *. rewrite IH. reflexivity.
Qed.

(** No white space at the head of [s]. *)
Lemma trimLeft_head (s : string) :
  match trimLeft s with
  | EmptyString => True
  | String c _ => isspace c = false
  end.
Proof.
  induction s as [|x s IH]; [exact I|].
  cbn [trimLeft]. destruct (isspace x) eqn:E; [exact IH | exact E].
Qed.

Lemma trimLeft_trimRight (s : string) :
  match s with
  | EmptyString => True
  | String c _ => isspace c = false
  end ->
  trimLeft (trimRight s) = trimRight s.
Proof.
  destruct s as [|x s]; [reflexivity|]. intros Hx.
  cbn [trimRight]. destruct (trimRight s).
  - rewrite Hx. cbn [trimLeft]. now rewrite Hx.
  - cbn [trimLeft]. now rewrite Hx.
Qed.

Lemma trim_idem (s : string) : trim (trim s) = trim s.
Proof.
  unfold trim. rewrite trimLeft_trimRight by apply trimLeft_head.
  apply trimRight_idem.
Qed.

(** What [jsonValue] hands on holds no double quote and no white space at
    its ends. *)
Lemma jsonValue_shape (body value : string) :
  Z.of_nat (String.length body) < 2 ^ 32 ->
  jsonValue body = inr value -> lacks dq value /\ trimmed value.
Proof.
  intros Hsmall. unfold jsonValue.
  destruct (indexOf body valueField <? 0); [discriminate|].
  set (quoteStart := indexOfAt body (String dq "") _).
  destruct (Z.ltb_spec quoteStart 0) as [|Hstart]; [discriminate|].
  destruct (Z.ltb_spec (indexOfAt body (String dq "") (quoteStart + 1)) 0)
    as [|Hend]; [discriminate|].
  cbn [orb]. intros [= <-]. split; [|apply trim_idem].
  unfold trim. apply lacks_trimRight, lacks_trimLeft.
  assert (quoteStart < Z.of_nat (String.length body)) as Hqs.
  { subst quoteStart. unfold indexOfAt, indexOfFrom in Hstart |- *.
    destruct (Z.of_nat (String.length body) <=? wrap32 _); [lia|].
    destruct (index _ _ body) as [k|] eqn:E; [|lia].
    apply index_char_lacks in E. lia. }
  unfold indexOfAt, wrap32 in Hend |- *.
  rewrite Z.mod_small in * by lia.
  destruct (Z.of_nat (String.length body) <=? quoteStart + 1); [lia|].
  unfold indexOfFrom in *.
  destruct (index (Z.to_nat (quoteStart + 1)) (String dq "") body)
    as [k|] eqn:E; [|lia].
  apply index_char_lacks in E as [Hle Hl].
  unfold substringRange. now rewrite Nat2Z.id.
Qed.

Lemma readBody_length (n : nat) :
  forall avail, (String.length (readBody n avail).1 <= n)%nat.
Proof.
  induction n as [|n IH]; intros avail; [destruct avail; cbn; lia|].
  destruct avail as [|c rest]; [cbn; lia|].
  cbn [readBody]. specialize (IH rest).
  destruct (readBody n rest) as [body unread]. cbn [fst String.length] in *.
  lia.
Qed.

Lemma lacks_c_str (c : ascii) (s : string) : lacks c s -> lacks c (c_str s).
Proof.
  induction s as [|x s IH]; intros H; [assumption|].
  apply lacks_cons in H as [Hx Hs]. cbn [c_str].
  destruct (Ascii.eqb x "000"); [apply lacks_empty|].
  apply lacks_cons. split; [assumption | now apply IH].
Qed.

(** X21: whatever the request, every entry of the store after an insert
    request was there before, or is what the store keeps (the text up to
    its first NUL) of a text that holds no double quote and no white
    space at its ends; so it holds no double quote itself, and it is
    that text, white space at neither end, when the text holds no NUL. *)
Theorem insert_request_stores_no_quote (contentLength : Z)
    (avail : string) (prefs : Prefs) :
  let prefs' := (handleAPIInsertRequest contentLength avail prefs).2 in
  forall k v,
    prefs' !! k = Some v ->
    prefs !! k = Some v
    \/ (lacks dq v
        /\ exists value,
             lacks dq value /\ trimmed value /\ v = c_str value).
Proof.
  cbv zeta. intros k v. unfold handleAPIInsertRequest.
  destruct (Z.leb_spec contentLength 0); [cbn; auto|].
  destruct (Z.gtb_spec contentLength 512); [cbn; auto|]. cbn [orb].
  pose proof (readBody_length (Z.to_nat contentLength) avail) as Hlen.
  destruct (readBody (Z.to_nat contentLength) avail) as [body unread].
  cbn [fst] in Hlen.
  destruct (jsonValue body) as [r|value] eqn:E; [cbn; auto|].
  apply jsonValue_shape in E; [|lia].
  unfold handleAPIInsert.
  destruct (String.length value =? 0)%nat; [cbn; auto|].
  destruct (MAX_VALUE_LENGTH <? String.length value)%nat; [cbn; auto|].
  destruct (freeIndex prefs) as [i|]; [|cbn; auto].
  cbn [snd]. unfold putString.
  destruct (decide (k = keyName i)) as [->|Hne].
  - rewrite lookup_insert_eq. intros [= <-]. right.
    destruct E as [Hq Ht]. split; [now apply lacks_c_str|].
    exists value. auto.
  - rewrite lookup_insert_ne by congruence. auto.
Qed.

Lemma insert_request_stores_no_quote_witness :
  (∅ : Prefs) !! "k0" = Some ("a" +:+ String bs "")
  \/ (lacks dq ("a" +:+ String bs "")
      /\ exists value,
           lacks dq value /\ trimmed value
           /\ "a" +:+ String bs "" = c_str value).
Proof.
  refine (insert_request_stores_no_quote
            (Z.of_nat (String.length
               (jsonBody "{" "" "" ("a" +:+ String bs "")
                         ("b" +:+ String dq "}"))))
            (jsonBody "{" "" "" ("a" +:+ String bs "")
                      ("b" +:+ String dq "}")) ∅ "k0"
            ("a" +:+ String bs "") _).
  vm_compute. reflexivity.
Defined.

Section FormFacts.

Variable strtol16 : ascii -> ascii -> ascii.



End FormFacts.


End StoreRequestFacts.

Module ListingFacts.
Import Http Store StoreApi Escapes Listing.
Import StoreFacts StoreApiFacts CookieFacts SessionFacts.

Lemma isKey_lookup (prefs : Prefs) (k : string) :
  (isKey prefs k = true /\ exists v, prefs !! k = Some v
                                    /\ getString prefs k "" = v)
  \/ (isKey prefs k = false /\ prefs !! k = None).
Proof.
  unfold getString. destruct (prefs !! k) as [v|] eqn:E.
  - left. split; [apply isKey_true; rewrite E; eauto|]. exists v. auto.
  - right. split; [now apply isKey_false | reflexivity].
Qed.

Lemma joinComma_cons (x : string) (l : list (string * string)) :
  joinComma (x :: map renderEntry l)
  = x +:+ sep false l +:+ joinComma (map renderEntry l).
Proof.
  destruct l as [|e l]; cbn [map joinComma sep].
  - now rewrite append_empty_r.
  - reflexivity.
Qed.

Lemma listLoop_join (prefs : Prefs) (slots : list nat) :
  forall first json,
    listLoop prefs slots first json
    = json +:+ sep first (entriesOf prefs slots)
      +:+ joinComma (map renderEntry (entriesOf prefs slots)).
Proof.
  induction slots as [|i rest IH]; intros first json.
  - cbn [listLoop entriesOf flat_map map joinComma sep].
    now rewrite !append_empty_r.
  - cbn [listLoop entriesOf flat_map].
    fold (entriesOf prefs rest).
    destruct (isKey_lookup prefs (keyName i))
      as [(-> & v & -> & ->) | (-> & ->)].
    + cbn [app]. rewrite IH.
      change (map renderEntry ((keyName i, v) :: entriesOf prefs rest))
        with (renderEntry (keyName i, v)
              :: map renderEntry (entriesOf prefs rest)).
      rewrite joinComma_cons.
      unfold renderEntry, quoted. cbn [fst snd sep].
      destruct first; cbn [negb]; rewrite !append_assoc'; reflexivity.
    + cbn [app]. apply IH.
Qed.

Lemma count_entries (prefs : Prefs) (slots : list nat) :
  fold_left (fun count i => if isKey prefs (keyName i) then S count else count)
            slots 0%nat
  = length (entriesOf prefs slots).
Proof.
  induction slots as [|i rest IH]; [reflexivity|].
  cbn [fold_left entriesOf flat_map]. fold (entriesOf prefs rest).
  rewrite countLoop_acc, IH, length_app.
  destruct (isKey_lookup prefs (keyName i))
    as [(-> & v & -> & _) | (-> & ->)]; reflexivity.
Qed.

Lemma entriesOf_In (prefs : Prefs) (slots : list nat) (k v : string) :
  In (k, v) (entriesOf prefs slots)
  <-> (exists i, In i slots /\ k = keyName i) /\ prefs !! k = Some v.
Proof.
  unfold entriesOf. rewrite in_flat_map. split.
  - intros (i & Hi & Hin). destruct (prefs !! keyName i) as [w|] eqn:E;
      [|destruct Hin].
    destruct Hin as [[= <- <-]|[]]. split; [eauto | assumption].
  - intros ((i & Hi & ->) & Hv). exists i. split; [assumption|].
    rewrite Hv. now left.
Qed.

Lemma entriesOf_keys (prefs : Prefs) (slots : list nat) :
  map fst (entriesOf prefs slots)
  = map keyName (List.filter (fun i => isKey prefs (keyName i)) slots).
Proof.
  induction slots as [|i rest IH]; [reflexivity|].
  cbn [entriesOf flat_map]. fold (entriesOf prefs rest).
  rewrite map_app, IH. cbn [List.filter].
  destruct (isKey_lookup prefs (keyName i))
    as [(-> & v & -> & _) | (-> & ->)]; reflexivity.
Qed.

Lemma entriesOf_NoDup (prefs : Prefs) (slots : list nat) :
  NoDup slots -> NoDup (map fst (entriesOf prefs slots)).
Proof.
  induction slots as [|i rest IH]; intros Hnd; [constructor|].
  apply NoDup_cons in Hnd as [Hi Hnd]. specialize (IH Hnd).
  cbn [entriesOf flat_map]. fold (entriesOf prefs rest).
  destruct (prefs !! keyName i) as [v|]; [|exact IH].
  cbn [app map fst]. apply NoDup_cons. split; [|exact IH].
  intros Hin. apply list_elem_of_In, in_map_iff in Hin
    as ([k w] & Hk & Hin).
  cbn [fst] in Hk. subst k.
  apply entriesOf_In in Hin as [(j & Hj & E) _].
  apply keyName_inj in E. subst j. apply Hi, list_elem_of_In, Hj.
Qed.

(** X23: what the two listings show.  [handleAPIGetKeys] and
    [handleAPIPrint] write one JSON object per occupied slot, in the order
    of the slots and with commas between them only, each with its key and
    its escaped value, and the count written before them is their number;
    no key is listed twice, and when the store holds nothing outside the
    slots the listing shows exactly the entries of the store. *)
Theorem listing_shows_store (field : string) (prefs : Prefs) :
  let es := entries prefs in
  listing field prefs
  = "{" +:+ quoted "success" +:+ ":true," +:+ quoted "count" +:+ ":"
    +:+ pretty (length es) +:+ "," +:+ quoted field +:+ ":["
    +:+ joinComma (map renderEntry es) +:+ "]}"
  /\ (forall k v,
        In (k, v) es <->
        (exists i, (i < MAX_KEYS)%nat /\ k = keyName i)
        /\ prefs !! k = Some v)
  /\ NoDup (map fst es)
  /\ (slotsOnly prefs ->
      forall k v, In (k, v) es <-> prefs !! k = Some v).
Proof.
  cbv zeta.
  assert (forall k v,
            In (k, v) (entries prefs) <->
            (exists i, (i < MAX_KEYS)%nat /\ k = keyName i)
            /\ prefs !! k = Some v) as Hin.
  { intros k v. unfold entries. rewrite entriesOf_In.
    split; intros [(i & Hi & ->) Hv]; (split; [|assumption]); exists i;
      (split; [|reflexivity]).
    - apply in_seq in Hi. apply Hi.
    - apply in_seq. split; [apply Nat.le_0_l | exact Hi]. }
  split; [|split; [exact Hin|split]].
  - unfold listing, countKeys, entries.
    rewrite listLoop_join, count_entries.
    assert (forall es, sep true es = "") as -> by (now intros [|e es]).
    rewrite !append_assoc'. reflexivity.
  - apply entriesOf_NoDup, NoDup_seq.
  - intros Hslots k v. rewrite Hin. split; [tauto|].
    intros Hv. split; [|assumption]. exact (proj1 (Hslots k v Hv)).
Qed.

Lemma listing_shows_store_witness :
  let prefs : Prefs := <[keyName 3 := "b" +:+ String dq ""]> {[ keyName 0 := "a" ]} in
  In (keyName 3, "b" +:+ String dq "") (entries prefs).
Proof.
  cbv zeta.
  apply (proj2 (proj2 (proj2 (listing_shows_store "keys"
           (<[keyName 3 := "b" +:+ String dq ""]> {[ keyName 0 := "a" ]}))))).
  - intros k v Hkv.
    apply lookup_insert_Some in Hkv as [[<- <-] | [_ Hkv]].
    + split; [exists 3%nat; split; [vm_compute; lia | reflexivity]|].
      vm_compute. lia.
    + apply lookup_singleton_Some in Hkv as [<- <-].
      split; [exists 0%nat; split; [vm_compute; lia | reflexivity]|].
      vm_compute. lia.
  - vm_compute. reflexivity.
Defined.

End ListingFacts.

Module ParserFacts.
Import Http Escapes Multipart Text StoreRequests Parser.
Import CookieFacts SessionFacts EscapeFacts MultipartFacts StoreRequestFacts.

Lemma prefix_app (x : string) :
  forall p q, String.prefix x p = true -> String.prefix x (p +:+ q) = true.
Proof.
  induction x as [|a x IH]; intros p q H; [now destruct (p +:+ q)|].
  destruct p as [|b p]; [discriminate|].
  change (String b p +:+ q) with (String b (p +:+ q)).
  cbn [String.prefix] in *.
  destruct (ascii_dec a b); [now apply IH | discriminate].
Qed.

Lemma index_app_stable (c : ascii) (p q : string) :
  forall n m,
    index n (String c "") p = Some m ->
    index n (String c "") (p +:+ q) = Some m.
Proof.
  induction p as [|x p IH]; intros n m H.
  - destruct n; discriminate.
  - change (String x p +:+ q) with (String x (p +:+ q)).
    destruct n as [|n]; cbn [index] in *.
    + rewrite prefix_char in *.
      destruct (ascii_dec c x); [assumption|].
      destruct (index 0 (String c "") p) as [k|] eqn:E; [|discriminate].
      now rewrite (IH 0%nat k E).
    + destruct (index n (String c "") p) as [k|] eqn:E; [|discriminate].
      now rewrite (IH n k E).
Qed.

(** Once method and path are assigned on a line, they are assigned, to
    the same texts, with every character that follows on the line. *)
Lemma requestLineHit_app (p q : string) :
  requestLineHit p = true ->
  requestLineHit (p +:+ q) = true
  /\ firstSpace (p +:+ q) = firstSpace p
  /\ secondSpace (p +:+ q) = secondSpace p.
Proof.
  unfold requestLineHit, secondSpace, firstSpace, indexOf, indexOfFrom.
  change (Z.to_nat 0) with 0%nat.
  intros H. apply andb_true_iff in H as [Hreq Hsec].
  assert (isRequestLine (p +:+ q) = true) as ->.
  { unfold isRequestLine in *.
    apply orb_true_iff in Hreq as [Hreq|Hreq];
      [apply orb_true_iff in Hreq as [Hreq|Hreq]|];
      apply (prefix_app _ p q) in Hreq; rewrite Hreq;
      rewrite ?orb_true_r; reflexivity. }
  cbn [andb].
  destruct (index 0 " " p) as [f|] eqn:Ef.
  - rewrite (index_app_stable " " p q 0 f Ef).
    unfold indexOfAt, indexOfFrom in *.
    rewrite append_length.
    destruct (Z.leb_spec (Z.of_nat (String.length p))
                         (wrap32 (Z.of_nat f + 1))) as [|Hin]; [discriminate|].
    destruct (Z.leb_spec (Z.of_nat (String.length p + String.length q))
                         (wrap32 (Z.of_nat f + 1))); [lia|].
    destruct (index (Z.to_nat (wrap32 (Z.of_nat f + 1))) " " p) as [m|] eqn:Em;
      [|discriminate].
    rewrite (index_app_stable " " p q _ m Em). auto.
  - exfalso. unfold indexOfAt, indexOfFrom in Hsec.
    change (wrap32 (-1 + 1)) with 0 in Hsec.
    change (Z.to_nat 0) with 0%nat in Hsec. rewrite Ef in Hsec.
    destruct (Z.of_nat (String.length p) <=? 0); discriminate.
Qed.

Lemma parser_ext (a b : Parser) :
  currentLineIsBlank a = currentLineIsBlank b ->
  currentLine a = currentLine b ->
  requestPath a = requestPath b -> requestMethod a = requestMethod b ->
  contentLength a = contentLength b -> contentType a = contentType b ->
  cookieHeader a = cookieHeader b -> a = b.
Proof. destruct a, b. cbn. now intros -> -> -> -> -> -> ->. Qed.

Lemma endOfChar_text (c : ascii) (p : Parser) :
  c <> CR -> c <> LF -> endOfChar c p = endOfChar "x" p.
Proof.
  intros Hcr Hlf. unfold endOfChar.
  apply Ascii.eqb_neq in Hcr, Hlf. now rewrite Hcr, Hlf.
Qed.

(** The scan of a longer line overwrites what the scans of its
    beginnings assigned. *)
Lemma scanLine_over (read more : string) (p : Parser) :
  endOfChar "x" (scanLine (read +:+ more) (midLine read p))
  = midLine (read +:+ more) p.
Proof.
  unfold midLine.
  apply parser_ext; try reflexivity;
    cbn [endOfChar Ascii.eqb Bool.eqb CR LF negb scanLine requestPath
         requestMethod contentLength contentType cookieHeader];
    try (destruct (requestLineHit read) eqn:E;
         [destruct (requestLineHit_app read more E) as (-> & _ & _)|];
         now destruct (requestLineHit (read +:+ more)));
    match goal with
    | |- context [String.prefix ?x (read +:+ more)] =>
        destruct (String.prefix x read) eqn:E;
        [rewrite (prefix_app x read more E)|];
        now destruct (String.prefix x (read +:+ more))
    end.
Qed.

Lemma run_line (more : string) :
  forall read p rest,
    textLine more ->
    parseRequest (line more +:+ rest) (midLine read p)
    = parseRequest rest (afterLine (read +:+ more) p).
Proof.
  induction more as [|c more IH]; intros read p rest [Hcr Hlf].
  - change (line "" +:+ rest) with (String CR (String LF rest)).
    rewrite append_empty_r.
    cbn [parseRequest].
    change (Ascii.eqb CR LF) with false. cbn [andb].
    change (Ascii.eqb LF LF) with true.
    assert (parseChar CR (midLine read p) = midLine read p) as Hs.
    { unfold parseChar. change (Ascii.eqb CR CR) with true.
      change (Ascii.eqb CR LF) with false. cbn [negb andb].
      pose proof (scanLine_over read "" p) as H.
      rewrite append_empty_r in H.
      apply parser_ext; try reflexivity;
        try (now apply (f_equal requestPath) in H);
        try (now apply (f_equal requestMethod) in H);
        try (now apply (f_equal contentLength) in H);
        try (now apply (f_equal contentType) in H);
        try (now apply (f_equal cookieHeader) in H). }
    rewrite Hs.
    change (endOfChar CR (midLine read p)) with (midLine read p).
    assert (parseChar LF (midLine read p) = midLine read p) as Hs'.
    { rewrite <- Hs at 2. reflexivity. }
    rewrite Hs'. cbn [andb].
    change (currentLineIsBlank (midLine read p)) with false. cbv iota.
    f_equal.
  - apply lacks_cons in Hcr as [Hc1 Hcr], Hlf as [Hc2 Hlf].
    change (line (String c more) +:+ rest)
      with (String c (line more +:+ rest)).
    cbn [parseRequest].
    assert (Ascii.eqb c LF = false) as -> by (apply Ascii.eqb_neq; congruence).
    cbn [andb].
    assert (endOfChar c (parseChar c (midLine read p))
            = midLine (read +:+ String c "") p) as ->.
    { rewrite endOfChar_text by congruence.
      unfold parseChar.
      assert (Ascii.eqb c LF = false) as -> by (apply Ascii.eqb_neq; congruence).
      assert (Ascii.eqb c CR = false) as -> by (apply Ascii.eqb_neq; congruence).
      cbn [negb andb].
      change (currentLine (midLine read p)) with read.
      apply scanLine_over. }
    rewrite IH by (split; assumption).
    now rewrite append_assoc'.
Qed.

Lemma process_line (l rest : string) (p : Parser) :
  currentLine p = "" -> textLine l -> l <> "" ->
  parseRequest (line l +:+ rest) p = parseRequest rest (afterLine l p).
Proof.
  intros Hcur [Hcr Hlf] Hne. destruct l as [|c l]; [congruence|].
  apply lacks_cons in Hcr as [Hc1 Hcr], Hlf as [Hc2 Hlf].
  change (line (String c l) +:+ rest) with (String c (line l +:+ rest)).
  cbn [parseRequest].
  assert (Ascii.eqb c LF = false) as Hl by (apply Ascii.eqb_neq; congruence).
  assert (Ascii.eqb c CR = false) as Hr by (apply Ascii.eqb_neq; congruence).
  rewrite Hl. cbn [andb].
  assert (endOfChar c (parseChar c p) = midLine (String c "") p) as ->.
  { rewrite endOfChar_text by congruence.
    unfold parseChar. rewrite Hl, Hr, Hcur. reflexivity. }
  now rewrite run_line by (split; assumption).
Qed.

Lemma afterLines_currentLine (ls : list string) :
  forall p, currentLine p = "" -> currentLine (afterLines ls p) = "".
Proof.
  induction ls as [|l ls IH]; intros p Hp; [assumption|].
  cbn [afterLines fold_left]. now apply IH.
Qed.

Lemma afterLines_blank (ls : list string) :
  forall p, currentLineIsBlank p = true ->
            currentLineIsBlank (afterLines ls p) = true.
Proof.
  induction ls as [|l ls IH]; intros p Hp; [assumption|].
  cbn [afterLines fold_left]. now apply IH.
Qed.

Lemma parse_lines (ls : list string) :
  forall p rest,
    currentLine p = "" -> Forall (fun l => textLine l /\ l <> "") ls ->
    parseRequest (lines ls +:+ rest) p
    = parseRequest rest (afterLines ls p).
Proof.
  induction ls as [|l ls IH]; intros p rest Hcur Hls; [reflexivity|].
  apply Forall_cons in Hls as [[Hl Hne] Hls].
  change (lines (l :: ls)) with (line l +:+ lines ls).
  rewrite append_assoc', process_line by assumption.
  now rewrite IH.
Qed.

Lemma blank_line (p : Parser) (body : string) :
  currentLine p = "" -> currentLineIsBlank p = true ->
  parseRequest (CRLF +:+ body) p = Some (p, body).
Proof.
  intros Hcur Hblank.
  assert (scanLine "" p = p) as Hs
    by (apply parser_ext; try reflexivity; now rewrite Hcur).
  change (CRLF +:+ body) with (String CR (String LF body)).
  cbn [parseRequest]. unfold parseChar.
  change (Ascii.eqb CR LF) with false. change (Ascii.eqb CR CR) with true.
  change (Ascii.eqb LF LF) with true. cbn [negb andb].
  rewrite Hcur, Hs. change (endOfChar CR p) with p.
  now rewrite Hcur, Hs, Hblank.
Qed.

Lemma no_blank_line (ls : list string) :
  forall p, currentLine p = "" ->
            Forall (fun l => textLine l /\ l <> "") ls ->
            parseRequest (lines ls) p = None.
Proof.
  intros p Hcur Hls.
  rewrite <- (append_empty_r (lines ls)), parse_lines by assumption.
  reflexivity.
Qed.

(** X24: the parser of [loop] reads a request line by line.  On lines
    that are not empty, each ended by a carriage return and a line feed,
    the tests made after every character come to one scan of each whole
    line; at the first empty line the request is routed, with all that
    follows left unread; and when the bytes end before an empty line,
    nothing is routed. *)
Theorem parseRequest_by_lines (ls : list string) (body : string) :
  Forall (fun l => textLine l /\ l <> "") ls ->
  parseRequest (lines ls +:+ CRLF +:+ body) start
  = Some (afterLines ls start, body)
  /\ parseRequest (lines ls) start = None.
Proof.
  intros Hls. split.
  - rewrite parse_lines by (assumption || reflexivity).
    apply blank_line.
    + now apply afterLines_currentLine.
    + now apply afterLines_blank.
  - now apply no_blank_line.
Qed.

Lemma parseRequest_by_lines_witness :
  parseRequest
    (lines ["POST /login HTTP/1.1"; "Host: device"; "Content-Length: 17"]
     +:+ CRLF +:+ "password=admin123") start
  = Some ({| currentLineIsBlank := true; currentLine := "";
             requestPath := "/login"; requestMethod := "POST";
             contentLength := 17; contentType := "";
             cookieHeader := "" |}, "password=admin123").
Proof.
  refine (eq_trans
            (proj1 (parseRequest_by_lines
                      ["POST /login HTTP/1.1"; "Host: device";
                       "Content-Length: 17"] "password=admin123" _)) _).
  - repeat constructor; vm_compute; (reflexivity || discriminate).
  - vm_compute. reflexivity.
Defined.









End ParserFacts.
